(** * GLideNHQ texture cache (TxCache.cpp): a shallow embedding

    The development follows src/GLideN64/src/GLideNHQ/TxCache.cpp:
    - [Mach]            the C integer types the file computes with;
    - [Externals]       what TxCache.cpp takes from other translation units
                        (TxUtil::sizeofTx, the GL_TEXFMT_GZ flag, zlib's
                        uncompress);
    - [StdList], [Gz], [IfStream]  the library objects it drives;
    - [TxMemoryCache]   the in-memory backend (std::map + std::list);
    - [TxFileStorage]   the file backend;
    - [TxCache]         the facade that owns one backend. *)

From Stdlib Require Import ZArith Lia.
From Stdlib.Strings Require Import Ascii Byte.
From stdpp Require Import base option list list_numbers strings gmap fin_maps.

Local Open Scope Z_scope.

(** ** Machine integers *)

Module Mach.

(** [uint64] arithmetic wraps modulo 2^64; [size_t] and [uLong] are taken
    to be 64 bits wide (LP64). *)
Definition to_uint64 (z : Z) : Z := z mod 2 ^ 64.
Definition to_size_t (z : Z) : Z := to_uint64 z.
Definition to_uint32 (z : Z) : Z := z mod 2 ^ 32.

(** [int] is 32 bits, two's complement. *)
Definition to_int (z : Z) : Z := (z + 2 ^ 31) mod 2 ^ 32 - 2 ^ 31.

Definition INT_MAX : Z := 2 ^ 31 - 1.
Definition PTRDIFF_MAX : Z := 2 ^ 63 - 1.

(** [malloc(n)]: [avail] is the allocator's answer when the request is
    satisfiable at all; a request that would bring the bytes held by the
    caller ([live]) above PTRDIFF_MAX cannot be satisfied (the blocks are
    disjoint ranges of one address space).  In particular a negative [int]
    converted to [size_t] is never granted. *)
Definition malloc (avail : bool) (live n : Z) : bool :=
  avail && (live + to_size_t n <=? PTRDIFF_MAX).

(** [memcpy(dst, src, n)] into a fresh block: the first [n] bytes of the
    source buffer (the source requires the buffer to hold that many). *)
Definition memcpy (src : list byte) (n : Z) : list byte :=
  take (Z.to_nat (to_size_t n)) src.

(** Writing [out] at the start of a buffer whose old contents are [old]. *)
Definition overlay (out old : list byte) : list byte :=
  out ++ drop (length out) old.

End Mach.

(** ** What TxCache.cpp takes from elsewhere *)

(** TxUtil::sizeofTx, the macros GL_TEXFMT_GZ and FILE_CACHE_MASK (GLideNHQ
    headers) and zlib's [uncompress] are not part of TxCache.cpp.
    [uncompress cap src] is [Some out] when zlib answers Z_OK for a
    destination of capacity [cap], and [None] for every other return code. *)
Class Externals := {
  sizeofTx : Z -> Z -> Z -> Z;
  GL_TEXFMT_GZ : Z;
  FILE_CACHE_MASK : Z;
  uncompress : Z -> list byte -> option (list byte);
}.

(** ** GHQTexInfo *)

(** [data] is the pixel buffer behind the pointer; [None] is [nullptr]. *)
Record GHQTexInfo := mkInfo {
  data : option (list byte);
  width : Z;
  height : Z;
  format : Z;
  texture_format : Z;
  pixel_type : Z;
  is_hires_tex : Z;
}.

Definition set_data (d : option (list byte)) (i : GHQTexInfo) : GHQTexInfo :=
  mkInfo d (width i) (height i) (format i) (texture_format i) (pixel_type i)
         (is_hires_tex i).

Definition set_format (f : Z) (i : GHQTexInfo) : GHQTexInfo :=
  mkInfo (data i) (width i) (height i) f (texture_format i) (pixel_type i)
         (is_hires_tex i).

(** The caller's view of a record: everything but the buffer address. *)
Definition same_metadata (a b : GHQTexInfo) : Prop :=
  width a = width b /\ height a = height b /\ format a = format b /\
  texture_format a = texture_format b /\ pixel_type a = pixel_type b /\
  is_hires_tex a = is_hires_tex b.

(** [info->format & GL_TEXFMT_GZ] *)
Definition is_gz `{Externals} (f : Z) : bool :=
  negb (Z.land f GL_TEXFMT_GZ =? 0).

(** [info->format &= ~GL_TEXFMT_GZ] *)
Definition clear_gz `{Externals} (f : Z) : Z :=
  Z.land f (Z.lnot GL_TEXFMT_GZ).

(** ** std::list<uint64>: nodes with an identity *)

(** An iterator of a std::list names a node and stays valid until that node
    is erased.  A node is a pair of its identity and the checksum it holds. *)
Module StdList.

Definition node : Type := nat * Z.
Definition iterator : Type := nat.

Definition values (l : list node) : list Z := l.*2.
Definition iterators (l : list node) : list iterator := l.*1.

(** The identity of the node a [push_back] allocates: one no live node has. *)
Definition fresh (l : list node) : iterator := S (max_list (iterators l)).

(** [l.push_back(v); it = --l.end()] *)
Definition push_back (v : Z) (l : list node) : list node * iterator :=
  (l ++ [(fresh l, v)], fresh l).

(** [l.erase(it)]: undefined ([None]) when [it] names no node of [l]. *)
Fixpoint erase (it : iterator) (l : list node) : option (list node) :=
  match l with
  | [] => None
  | n :: l' =>
      if decide (n.1 = it) then Some l' else (n ::.) <$> erase it l'
  end.

End StdList.

(** [std::map::insert(value_type(k, v))]: no effect on a key that is
    already present. *)
Definition std_map_insert {V} (k : Z) (v : V) (m : gmap Z V) : gmap Z V :=
  match m !! k with
  | Some _ => m
  | None => <[k:=v]> m
  end.

(** A pointer compared with [nullptr]. *)
Definition is_null {A} (p : option A) : bool :=
  match p with None => true | Some _ => false end.

(** ** Files *)

(** The files the cache reads, by directory and file name: the bytes a
    reader gets out of each (zlib's gz layer inflates them on the way). *)
Abbreviation filesystem := (gmap (string * string) (list byte)).

(** Scalars are stored in host byte order; the host is little-endian. *)
Module Bytes.

Definition of_Z (z : Z) : byte :=
  default x00 (Byte.of_N (Z.to_N (z mod 256))).

Definition le_decode (bs : list byte) : Z :=
  foldr (fun b acc => Z.of_N (Byte.to_N b) + 256 * acc) 0 bs.

Fixpoint le_encode (n : nat) (z : Z) : list byte :=
  match n with
  | O => []
  | S n' => of_Z z :: le_encode n' (z / 256)
  end.

(** A read of [got] into an [n]-byte variable that held [old]: a short read
    leaves the bytes it did not reach. *)
Definition store_le (n : nat) (old : Z) (got : list byte) : Z :=
  le_decode (Mach.overlay got (le_encode n old)).

End Bytes.

(** zlib's [gzFile] opened for reading: the inflated contents, the read
    position, and the flag [gzeof] reports (set by a read that asked for
    more than was left). *)
Module Gz.

Record gzFile := mk {
  contents : list byte;
  pos : nat;
  past : bool;
}.

(** [gzopen(name, "rb")]; [None] is a null [gzFile]. *)
Definition gzopen (file : option (list byte)) : option gzFile :=
  (fun c => mk c 0 false) <$> file.

(** [gzread(fp, buf, len)]: the bytes delivered and the file afterwards. *)
Definition gzread (fp : gzFile) (len : Z) : list byte * gzFile :=
  if len <=? 0 then ([], fp)
  else
    let left := drop (pos fp) (contents fp) in
    let got := take (Z.to_nat len) left in
    (got, mk (contents fp) (pos fp + length got)
             (past fp || (Z.of_nat (length left) <? len))).

Definition gzeof (fp : gzFile) : bool := past fp.

(** [gzseek(fp, offset, SEEK_CUR)]: a seek before the start fails; a
    backward seek rewinds, which clears the end-of-file flag; a forward
    seek skips, and stops at the end of the contents. *)
Definition gzseek_cur (fp : gzFile) (offset : Z) : gzFile :=
  let target := Z.of_nat (pos fp) + offset in
  if target <? 0 then fp
  else if offset <? 0 then mk (contents fp) (Z.to_nat target) false
  else mk (contents fp) (Nat.min (Z.to_nat target) (length (contents fp)))
          (past fp).

(** [gzread(fp, &v, n)] for an unsigned scalar [v] of [n] bytes. *)
Definition read_uint (n : nat) (old : Z) (fp : gzFile) : Z * gzFile :=
  let '(got, fp') := gzread fp (Z.of_nat n) in
  (Bytes.store_le n old got, fp').

(** [gzread(fp, &v, 4)] for an [int]. *)
Definition read_int (old : Z) (fp : gzFile) : Z * gzFile :=
  let '(v, fp') := read_uint 4 old fp in (Mach.to_int v, fp').

End Gz.

(** A [std::ifstream]: [good] is false once a read or a seek has failed
    (nothing in TxCache.cpp clears the state). *)
Module IfStream.

Record t := mk {
  is_open : bool;
  contents : list byte;
  pos : nat;
  good : bool;
}.

(** A default-constructed stream. *)
Definition closed : t := mk false [] 0 true.

(** [f.seekg(off, std::ifstream::beg)] *)
Definition seekg (off : Z) (f : t) : t :=
  if negb (good f) then f
  else if negb (is_open f) || (off <? 0) then
    mk (is_open f) (contents f) (pos f) false
  else mk (is_open f) (contents f) (Z.to_nat off) true.

(** [f.read(buf, n)]: the characters stored and the stream afterwards. *)
Definition read (n : Z) (f : t) : list byte * t :=
  if negb (good f) then ([], f)
  else if negb (is_open f) then ([], mk false (contents f) (pos f) false)
  else
    let left := drop (pos f) (contents f) in
    let got := take (Z.to_nat n) left in
    (got, mk true (contents f) (pos f + length got)
             (Z.of_nat (Z.to_nat n) <=? Z.of_nat (length left))).

(** [FREAD(v)] for an unsigned scalar of [n] bytes. *)
Definition read_uint (n : nat) (old : Z) (f : t) : Z * t :=
  let '(got, f') := read (Z.of_nat n) f in
  (Bytes.store_le n old got, f').

(** [FREAD(v)] for an [int]. *)
Definition read_int (old : Z) (f : t) : Z * t :=
  let '(v, f') := read_uint 4 old f in (Mach.to_int v, f').

End IfStream.

(** ** TxMemoryCache *)

Module TxMemoryCache.
Import Mach.

(** [struct TXCACHE { int size; GHQTexInfo info; std::list<uint64>::iterator it; }].
    [txc_it = None] is an iterator that was never assigned. *)
Record TXCACHE := mkTXCACHE {
  txc_size : Z;
  txc_info : GHQTexInfo;
  txc_it : option StdList.iterator;
}.

Record t := mk {
  _options : Z;
  _cacheLimit : Z;
  _totalSize : Z;
  _cache : gmap Z TXCACHE;
  _cachelist : list StdList.node;
  _gzdest0 : option (list byte);
  _gzdest1 : option (list byte);
  _gzdestLen : Z;
}.

Definition set_store (c : gmap Z TXCACHE) (l : list StdList.node) (total : Z)
    (s : t) : t :=
  mk (_options s) (_cacheLimit s) total c l
     (_gzdest0 s) (_gzdest1 s) (_gzdestLen s).

Definition set_gzdest0 (d : option (list byte)) (s : t) : t :=
  mk (_options s) (_cacheLimit s) (_totalSize s) (_cache s) (_cachelist s)
     d (_gzdest1 s) (_gzdestLen s).

(** [TxMemoryCache::TxMemoryCache(uint32 options, uint64 cacheLimit)];
    the scratch buffers keep their in-class initialisers. *)
Definition new (options cacheLimit : Z) : t :=
  mk (to_uint32 options) (to_uint64 cacheLimit) 0 ∅ [] None None 0.

Definition empty (s : t) : bool := bool_decide (size (_cache s) = 0%nat).
Definition size (s : t) : Z := Z.of_nat (size (_cache s)).
Definition totalSize (s : t) : Z := _totalSize s.
Definition cacheLimit (s : t) : Z := _cacheLimit s.
Definition getOptions (s : t) : Z := _options s.
Definition setOptions (options : Z) (s : t) : t :=
  mk (to_uint32 options) (_cacheLimit s) (_totalSize s) (_cache s)
     (_cachelist s) (_gzdest0 s) (_gzdest1 s) (_gzdestLen s).

(** The bytes the cache holds in malloc'ed payload buffers. *)
Definition live_bytes (c : gmap Z TXCACHE) : Z :=
  map_fold (fun _ e acc => txc_size e + acc) 0 c.

(** The [while (itList != _cachelist.end())] loop of [add], followed by
    [_cachelist.erase(_cachelist.begin(), itList)]: the nodes left, the map
    left and the running total. *)
Fixpoint evict (limit : Z) (l : list StdList.node) (c : gmap Z TXCACHE)
    (total : Z) : list StdList.node * gmap Z TXCACHE * Z :=
  match l with
  | [] => ([], c, total)
  | n :: l' =>
      let '(c1, total1) :=
        match c !! n.2 with
        | Some e => (delete n.2 c, to_uint64 (total - txc_size e))
        | None => (c, total)
        end in
      if total1 <=? limit then (l', c1, total1)
      else evict limit l' c1 total1
  end.

(** The body of [if (_cacheLimit != 0) { ... }] at the head of [add]. *)
Definition make_room (dataSize : Z) (s : t) : t :=
  let total := to_uint64 (_totalSize s + dataSize) in
  let '(l, c, total') :=
    if (_cacheLimit s <? total) && negb (bool_decide (_cachelist s = []))
    then evict (_cacheLimit s) (_cachelist s) (_cache s) total
    else (_cachelist s, _cache s, total) in
  set_store c l (to_uint64 (total' - dataSize)) s.

(** The LRU order of the data model: every checksum of the lookup map sits
    at exactly one position of the sequence, and every element of the
    sequence is a key of the map. *)
Definition lru_consistent (s : t) : Prop :=
  NoDup (StdList.values (_cachelist s)) /\
  forall k, is_Some (_cache s !! k) <-> k ∈ StdList.values (_cachelist s).

(** Every entry's iterator names the node that holds the entry's checksum,
    and no two nodes share an identity. *)
Definition iterators_valid (s : t) : Prop :=
  NoDup (StdList.iterators (_cachelist s)) /\
  forall k e, _cache s !! k = Some e ->
    exists it, txc_it e = Some it /\ (it, k) ∈ _cachelist s.

Definition lru_inv (s : t) : Prop := lru_consistent s /\ iterators_valid s.

(** [_totalSize] is the number of payload bytes held, every stored size is
    a positive [int], and the budget is a [uint64]. *)
Definition accounted (s : t) : Prop :=
  _totalSize s = live_bytes (_cache s) /\
  (forall k e, _cache s !! k = Some e -> 0 < txc_size e <= INT_MAX) /\
  live_bytes (_cache s) <= PTRDIFF_MAX /\
  0 <= _cacheLimit s < 2 ^ 64.

(** A cache as its calls leave it: the total exact, and the list in step
    with the map when there is a budget, empty when there is none. *)
Definition well_formed (s : t) : Prop :=
  accounted s /\
  (if _cacheLimit s =? 0 then _cachelist s = [] else lru_inv s).

(** The stored sizes of the checksums [ks], summed. *)
Definition bytes_of (c : gmap Z TXCACHE) (ks : list Z) : Z :=
  foldr (fun k acc => from_option txc_size 0 (c !! k) + acc) 0 ks.

Section WithExternals.
Context `{Externals}.

(** [dataSize] as [add] settles it: the argument, or [sizeofTx] when the
    argument is 0; both are [int]s. *)
Definition stored_size (info : GHQTexInfo) (dataSize : Z) : Z :=
  if to_int dataSize =? 0
  then to_int (sizeofTx (width info) (height info) (format info))
  else to_int dataSize.

(** [bool TxMemoryCache::add(Checksum checksum, GHQTexInfo *info, int dataSize)];
    [avail] is the allocator's answer to the one [malloc] of the call. *)
Definition add (avail : bool) (checksum : Z) (info : GHQTexInfo) (dataSize : Z)
    (s : t) : bool * t :=
  if bool_decide (checksum = 0) || is_null (data info)
     || bool_decide (is_Some (_cache s !! checksum))
  then (false, s)
  else
    let dest := default [] (data info) in
    let format := format info in
    let dataSize := stored_size info dataSize in
    if dataSize =? 0 then (false, s)
    else
      let s := if _cacheLimit s =? 0 then s else make_room dataSize s in
      if negb (malloc avail (live_bytes (_cache s)) dataSize) then (false, s)
      else
        let tmpdata := memcpy dest dataSize in
        let info' := set_format format (set_data (Some tmpdata) info) in
        let '(l, it) :=
          if _cacheLimit s =? 0 then (_cachelist s, None)
          else
            let '(l, it) := StdList.push_back checksum (_cachelist s) in
            (l, Some it) in
        let txCache := mkTXCACHE dataSize info' it in
        (true, set_store (std_map_insert checksum txCache (_cache s)) l
                         (to_uint64 (_totalSize s + dataSize)) s).

(** The [if (_cacheLimit != 0)] block of [get]: erase the entry's node and
    push the checksum to the back. *)
Definition touch (checksum : Z) (e : TXCACHE) (s : t) : option t :=
  it ← txc_it e;
  l ← StdList.erase it (_cachelist s);
  let '(l', it') := StdList.push_back checksum l in
  Some (set_store
          (<[checksum := mkTXCACHE (txc_size e) (txc_info e) (Some it')]>
             (_cache s))
          l' (_totalSize s) s).

(** [bool TxMemoryCache::get(Checksum checksum, GHQTexInfo *info)]: the
    result, what [*info] holds on return, and the cache.  The stored buffer
    is a private block, so [_gzdest0 == info->data] is false and the
    destination of [uncompress] is [_gzdest0]. *)
Definition get (checksum : Z) (info : GHQTexInfo) (s : t)
    : option (bool * GHQTexInfo * t) :=
  if bool_decide (checksum = 0) || empty s then Some (false, info, s)
  else
    match _cache s !! checksum with
    | None => Some (false, info, s)
    | Some e =>
        let info := txc_info e in
        s ← (if _cacheLimit s =? 0 then Some s else touch checksum e s);
        if is_gz (format info) then
          let dest := _gzdest0 s in
          match uncompress (_gzdestLen s)
                           (memcpy (default [] (data info)) (txc_size e)) with
          | None => Some (false, info, s)
          | Some out =>
              let dest' := overlay out <$> dest in
              Some (true,
                    set_format (clear_gz (format info)) (set_data dest' info),
                    set_gzdest0 dest' s)
          end
        else Some (true, info, s)
    end.

(** [bool TxMemoryCache::del(Checksum checksum)] *)
Definition del (checksum : Z) (s : t) : option (bool * t) :=
  if bool_decide (checksum = 0) || empty s then Some (false, s)
  else
    match _cache s !! checksum with
    | None => Some (false, s)
    | Some e =>
        l ← (if bool_decide (_cachelist s = []) then Some (_cachelist s)
             else txc_it e ≫= fun it => StdList.erase it (_cachelist s));
        Some (true, set_store (delete checksum (_cache s)) l
                              (to_uint64 (_totalSize s - txc_size e)) s)
    end.

Definition isCached (checksum : Z) (s : t) : bool :=
  bool_decide (is_Some (_cache s !! checksum)).

(** [void TxMemoryCache::clear()] *)
Definition clear (s : t) : t := set_store ∅ [] 0 s.

(** [bool TxMemoryCache::save(path, filename, config)]: nothing is
    written. *)
Definition save (path filename : string) (config : Z) (s : t)
    (fs : filesystem) : bool * filesystem :=
  (false, fs).

(** What [load] finds in memory it does not initialise, and what the
    allocator answers, per iteration of its loop: the locals [tmpconfig],
    [checksum] and [dataSize] (declared once), the local [tmpInfo] and the
    block behind [tmpInfo.data] (one per iteration). *)
Record World := mkWorld {
  junk_tmpconfig : Z;
  junk_checksum : Z;
  junk_dataSize : Z;
  junk_tmpInfo : nat -> GHQTexInfo;
  junk_block : nat -> list byte;
  avail_tmp : nat -> bool;
  avail_add : nat -> bool;
}.

(** A fresh block of [n] bytes. *)
Definition fresh_block (w : World) (i : nat) (n : Z) : list byte :=
  take (Z.to_nat n) (junk_block w i ++ replicate (Z.to_nat n) x00).

(** The eight [gzread]s that open a pass of the loop: the checksum, the
    record, the payload size and the file afterwards. *)
Definition read_header (tmpInfo : GHQTexInfo) (checksum dataSize : Z)
    (fp : Gz.gzFile) : Z * GHQTexInfo * Z * Gz.gzFile :=
  let '(checksum, fp) := Gz.read_uint 8 checksum fp in
  let '(w_, fp) := Gz.read_int (width tmpInfo) fp in
  let '(h_, fp) := Gz.read_int (height tmpInfo) fp in
  let '(f_, fp) := Gz.read_uint 4 (format tmpInfo) fp in
  let '(tf_, fp) := Gz.read_uint 2 (texture_format tmpInfo) fp in
  let '(pt_, fp) := Gz.read_uint 2 (pixel_type tmpInfo) fp in
  let '(hi_, fp) := Gz.read_uint 1 (is_hires_tex tmpInfo) fp in
  let '(dataSize, fp) := Gz.read_int dataSize fp in
  (checksum, mkInfo (data tmpInfo) w_ h_ f_ tf_ pt_ hi_, dataSize, fp).

(** One pass through the body of [do { ... } while (!gzeof(gzfp))]. *)
Definition load_record (w : World) (i : nat) (fp : Gz.gzFile)
    (checksum dataSize : Z) (s : t) : Gz.gzFile * Z * Z * t :=
  let '(checksum, tmpInfo, dataSize, fp) :=
    read_header (junk_tmpInfo w i) checksum dataSize fp in
  if malloc (avail_tmp w i) (live_bytes (_cache s)) dataSize then
    let '(got, fp) := Gz.gzread fp dataSize in
    let block := overlay got (fresh_block w i dataSize) in
    let tmpInfo := set_data (Some block) tmpInfo in
    let s := (add (avail_add w i) checksum tmpInfo
                  (if is_gz (format tmpInfo) then dataSize else 0) s).2 in
    (fp, checksum, dataSize, s)
  else (Gz.gzseek_cur fp dataSize, checksum, dataSize, s).

(** The loop, run for at most [fuel] passes starting with pass [i]: whether
    it has left the loop, and the cache at that point. *)
Fixpoint load_loop (fuel : nat) (w : World) (i : nat) (fp : Gz.gzFile)
    (checksum dataSize : Z) (s : t) : bool * t :=
  match fuel with
  | O => (false, s)
  | S fuel' =>
      let '(fp, checksum, dataSize, s) :=
        load_record w i fp checksum dataSize s in
      if Gz.gzeof fp then (true, s)
      else load_loop fuel' w (S i) fp checksum dataSize s
  end.

(** What [load] finds in [tmpconfig] after its first [gzread] of a file with
    these contents. *)
Definition header_config (w : World) (contents : list byte) : Z :=
  (Gz.read_int (junk_tmpconfig w) (Gz.mk contents 0 false)).1.

(** [bool TxMemoryCache::load(path, filename, config, force)]: [Some b]
    when the call has returned [b] within [fuel] passes of its loop, and the
    cache at that point. *)
Definition load (w : World) (fs : filesystem) (path filename : string)
    (config : Z) (force : bool) (fuel : nat) (s : t) : option bool * t :=
  match Gz.gzopen (fs !! (path, filename)) with
  | None => (Some (negb (empty s)), s)
  | Some gzfp =>
      let '(tmpconfig, gzfp) := Gz.read_int (junk_tmpconfig w) gzfp in
      if bool_decide (tmpconfig = to_int config) || force then
        let '(returned, s') :=
          load_loop fuel w 0 gzfp (junk_checksum w) (junk_dataSize w) s in
        (if returned then Some (negb (empty s')) else None, s')
      else (Some (negb (empty s)), s)
  end.




(** What the passes of [load] over the records [rs] do to the cache, pass
    [i] first: a record whose block is granted goes through [add], one whose
    block is refused is skipped. *)
Fixpoint replay (w : World) (i : nat) (rs : list (Z * GHQTexInfo)) (s : t)
    : t :=
  match rs with
  | [] => s
  | r :: rs' =>
      let n := Z.of_nat (length (default [] (data r.2))) in
      let s' :=
        if malloc (avail_tmp w i) (live_bytes (_cache s)) n
        then (add (avail_add w i) r.1 r.2
                  (if is_gz (format r.2) then n else 0) s).2
        else s in
      replay w (S i) rs' s'
  end.


(** One call of [add]. *)
Record add_call := mkAdd {
  ac_avail : bool;
  ac_checksum : Z;
  ac_info : GHQTexInfo;
  ac_dataSize : Z;
}.

(** A sequence of [add] calls: the cache they leave, and the largest stored
    size among the calls that returned true ([largest] so far). *)
Fixpoint add_all (calls : list add_call) (s : t) (largest : Z) : t * Z :=
  match calls with
  | [] => (s, largest)
  | c :: calls' =>
      let '(added, s') :=
        add (ac_avail c) (ac_checksum c) (ac_info c) (ac_dataSize c) s in
      add_all calls' s'
        (if added
         then Z.max largest (stored_size (ac_info c) (ac_dataSize c))
         else largest)
  end.

(** The calls that change a memory cache, and the cache each one leaves
    ([None]: the call erased through an iterator that names no node). *)
Inductive call :=
  | Add (avail : bool) (checksum : Z) (info : GHQTexInfo) (dataSize : Z)
  | Get (checksum : Z) (info : GHQTexInfo)
  | Del (checksum : Z)
  | Clear
  | Load (w : World) (fs : filesystem) (path filename : string) (config : Z)
         (force : bool) (fuel : nat).

Definition run (c : call) (s : t) : option t :=
  match c with
  | Add avail checksum info dataSize =>
      Some (add avail checksum info dataSize s).2
  | Get checksum info => snd <$> get checksum info s
  | Del checksum => snd <$> del checksum s
  | Clear => Some (clear s)
  | Load w fs path filename config force fuel =>
      Some (load w fs path filename config force fuel s).2
  end.

(** A sequence of calls, each on the cache the one before left. *)
Fixpoint run_all (cs : list call) (s : t) : option t :=
  match cs with
  | [] => Some s
  | c :: cs' => run c s ≫= run_all cs'
  end.

End WithExternals.

End TxMemoryCache.

(** ** TxFileStorage *)

Module TxFileStorage.
Import Mach.

(** [_outfile] is only ever asked whether it is open. *)
Record t := mk {
  _options : Z;
  _cachePath : string;
  _filename : string;
  _totalSize : Z;
  _storage : gmap Z Z;
  _gzdest0 : option (list byte);
  _gzdest1 : option (list byte);
  _gzdestLen : Z;
  _infile : IfStream.t;
  _outfile_is_open : bool;
  _storagePos : Z;
  _dirty : bool;
}.

Definition _fakeConfig : Z := -1.
(** [sizeof(int64) + sizeof(int)] *)
Definition _initialPos : Z := 8 + 4.

Definition set_infile (f : IfStream.t) (s : t) : t :=
  mk (_options s) (_cachePath s) (_filename s) (_totalSize s) (_storage s)
     (_gzdest0 s) (_gzdest1 s) (_gzdestLen s) f (_outfile_is_open s)
     (_storagePos s) (_dirty s).

Definition set_gzdest (d0 d1 : option (list byte)) (s : t) : t :=
  mk (_options s) (_cachePath s) (_filename s) (_totalSize s) (_storage s)
     d0 d1 (_gzdestLen s) (_infile s) (_outfile_is_open s)
     (_storagePos s) (_dirty s).

(** [TxFileStorage::TxFileStorage(uint32 options, const wchar_t *cachePath)] *)
Definition new (options : Z) (cachePath : option string) : t :=
  mk (to_uint32 options) (default EmptyString cachePath) EmptyString 0 ∅
     None None 0 IfStream.closed false 0 false.

Definition empty (s : t) : bool := bool_decide (size (_storage s) = 0%nat).
Definition size (s : t) : Z := Z.of_nat (size (_storage s)).
Definition totalSize (s : t) : Z := _totalSize s.
Definition cacheLimit (s : t) : Z := 0.
Definition getOptions (s : t) : Z := _options s.
Definition setOptions (options : Z) (s : t) : t :=
  mk (to_uint32 options) (_cachePath s) (_filename s) (_totalSize s)
     (_storage s) (_gzdest0 s) (_gzdest1 s) (_gzdestLen s) (_infile s)
     (_outfile_is_open s) (_storagePos s) (_dirty s).

(** [bool TxFileStorage::open(bool forRead)]: the body is [return false]. *)
Definition open (forRead : bool) (s : t) : bool * t := (false, s).

(** [void TxFileStorage::clear()] *)
Definition clear (s : t) : t := s.

Section WithExternals.
Context `{Externals}.

(** [bool TxFileStorage::readData(GHQTexInfo & info)]: the result, [info]
    on return and the storage. *)
Definition readData (info : GHQTexInfo) (s : t) : bool * GHQTexInfo * t :=
  let f := _infile s in
  let '(w_, f) := IfStream.read_int (width info) f in
  let '(h_, f) := IfStream.read_int (height info) f in
  let '(f_, f) := IfStream.read_uint 4 (format info) f in
  let '(tf_, f) := IfStream.read_uint 2 (texture_format info) f in
  let '(pt_, f) := IfStream.read_uint 2 (pixel_type info) f in
  let '(hi_, f) := IfStream.read_uint 1 (is_hires_tex info) f in
  let info := mkInfo (data info) w_ h_ f_ tf_ pt_ hi_ in
  let '(dataSize, f) := IfStream.read_uint 4 0 f in
  let s := set_infile f s in
  if dataSize =? 0 then (false, info, s)
  else
    match _gzdest0 s with
    | None => (false, info, s)
    | Some old0 =>
        let '(got, f) := IfStream.read dataSize f in
        let d0 := overlay got old0 in
        let s := set_gzdest (Some d0) (_gzdest1 s) (set_infile f s) in
        if negb (IfStream.good f) then (false, info, s)
        else if is_gz f_ then
          match uncompress (_gzdestLen s) (memcpy d0 dataSize) with
          | None => (false, info, s)
          | Some out =>
              let d1 := overlay out <$> _gzdest1 s in
              (true, set_format (clear_gz f_) (set_data d1 info),
               set_gzdest (Some d0) d1 s)
          end
        else (true, set_data (Some d0) info, s)
    end.

(** [bool TxFileStorage::add(Checksum, GHQTexInfo *, int)]: the body is
    [return true]. *)
Definition add (checksum : Z) (info : GHQTexInfo) (dataSize : Z) (s : t)
    : bool * t :=
  (true, s).

(** [bool TxFileStorage::get(Checksum checksum, GHQTexInfo *info)] *)
Definition get (checksum : Z) (info : GHQTexInfo) (s : t)
    : bool * GHQTexInfo * t :=
  if bool_decide (checksum = 0) || empty s then (false, info, s)
  else
    match _storage s !! checksum with
    | None => (false, info, s)
    | Some offset =>
        let '(opened, s) :=
          if _outfile_is_open s || negb (IfStream.is_open (_infile s))
          then open true s else (true, s) in
        if negb opened then (false, info, s)
        else readData info (set_infile (IfStream.seekg offset (_infile s)) s)
    end.

(** [bool TxFileStorage::save(path, filename, config)]: [return true]. *)
Definition save (path filename : string) (config : Z) (s : t)
    (fs : filesystem) : bool * t * filesystem :=
  (true, s, fs).

(** [bool TxFileStorage::load(path, filename, config, force)]: the code
    after [return false] is compiled out. *)
Definition load (fs : filesystem) (path filename : string) (config : Z)
    (force : bool) (s : t) : bool * t :=
  (false, s).

(** [bool del(Checksum checksum) override { return false; }] *)
Definition del (checksum : Z) (s : t) : bool * t := (false, s).

Definition isCached (checksum : Z) (s : t) : bool :=
  bool_decide (is_Some (_storage s !! checksum)).

(** The calls a client can make on the backend, and the storage each one
    leaves. *)
Inductive call :=
  | Add (checksum : Z) (info : GHQTexInfo) (dataSize : Z)
  | Get (checksum : Z) (info : GHQTexInfo)
  | Save (fs : filesystem) (path filename : string) (config : Z)
  | Load (fs : filesystem) (path filename : string) (config : Z) (force : bool)
  | Del (checksum : Z)
  | IsCached (checksum : Z)
  | Clear
  | SetOptions (options : Z).

Definition run (c : call) (s : t) : t :=
  match c with
  | Add checksum info dataSize => (add checksum info dataSize s).2
  | Get checksum info => (get checksum info s).2
  | Save fs path filename config => (save path filename config s fs).1.2
  | Load fs path filename config force =>
      (load fs path filename config force s).2
  | Del checksum => (del checksum s).2
  | IsCached _ => s
  | Clear => clear s
  | SetOptions options => setOptions options s
  end.

(** The states of a file backend: those a sequence of calls reaches from a
    freshly constructed one. *)
Inductive reachable : t -> Prop :=
  | reachable_new options cachePath : reachable (new options cachePath)
  | reachable_run c s : reachable s -> reachable (run c s).

End WithExternals.

End TxFileStorage.

(** ** TxCache, the facade *)

Module TxCache.

Inductive impl :=
  | Memory (m : TxMemoryCache.t)
  | File (f : TxFileStorage.t).

(** [TxCache::TxCache(options, cachesize, cachePath, ident)]: the backend
    [_pImpl] is reset to. *)
Definition new `{Externals} (options cachesize : Z)
    (cachePath : option string) : impl :=
  if Z.land options FILE_CACHE_MASK =? 0
  then Memory (TxMemoryCache.new options cachesize)
  else File (TxFileStorage.new options cachePath).

(** [bool TxCache::add(Checksum, GHQTexInfo *, int)]; [avail] is the
    allocator's answer should the backend call [malloc]. *)
Definition add `{Externals} (avail : bool) (checksum : Z) (info : GHQTexInfo)
    (dataSize : Z) (c : impl) : bool * impl :=
  match c with
  | Memory m =>
      let '(r, m') := TxMemoryCache.add avail checksum info dataSize m in
      (r, Memory m')
  | File f =>
      let '(r, f') := TxFileStorage.add checksum info dataSize f in
      (r, File f')
  end.

Definition isCached `{Externals} (checksum : Z) (c : impl) : bool :=
  match c with
  | Memory m => TxMemoryCache.isCached checksum m
  | File f => TxFileStorage.isCached checksum f
  end.

Definition totalSize (c : impl) : Z :=
  match c with
  | Memory m => TxMemoryCache.totalSize m
  | File f => TxFileStorage.totalSize f
  end.

End TxCache.

(** ** Config_mupenplus.cpp *)

(** [std::string] as the list of its characters; [npos] is [None]. *)
Module StdString.

Abbreviation t := (list ascii).

Definition of_literal (s : string) : t := String.list_ascii_of_string s.

Fixpoint find_first (c : ascii) (s : t) : option nat :=
  match s with
  | [] => None
  | x :: s' => if decide (x = c) then Some O else S <$> find_first c s'
  end.

(** [s.find(c, pos)] *)
Definition find (c : ascii) (pos : nat) (s : t) : option nat :=
  (fun i => (pos + i)%nat) <$> find_first c (drop pos s).

(** [s.replace(pos, len, str)], for [pos] within the string. *)
Definition replace (pos len : nat) (str : t) (s : t) : t :=
  take pos s ++ str ++ drop (pos + len) s.

(** [::toupper] in the C locale. *)
Definition toupper (c : ascii) : ascii :=
  let n := N_of_ascii c in
  if (97 <=? n)%N && (n <=? 122)%N then ascii_of_N (n - 32) else c.

Definition is_lower (c : ascii) : bool :=
  let n := N_of_ascii c in (97 <=? n)%N && (n <=? 122)%N.

End StdString.

Module ConfigMupenplus.
Import StdString.

(** One of the two loops of [replaceChars]:
    [for (pos = s.find(c); pos != npos; pos = s.find(c, pos)) s.replace(pos, 1, str);]
    entered with [pos], run for at most [fuel] passes. *)
Fixpoint replace_loop (fuel : nat) (c : ascii) (str : StdString.t)
    (pos : option nat) (myString : StdString.t) : option StdString.t :=
  match pos with
  | None => Some myString
  | Some p =>
      match fuel with
      | O => None
      | S fuel' =>
          let myString := replace p 1 str myString in
          replace_loop fuel' c str (find c p myString) myString
      end
  end.

(** [std::string replaceChars(std::string myString)]; [None] when a loop
    has not finished within [fuel] passes. *)
Definition replaceChars (fuel : nat) (myString : StdString.t)
    : option StdString.t :=
  myString ← replace_loop fuel " "%char (of_literal "%20")
                (find " "%char 0 myString) myString;
  replace_loop fuel "'"%char (of_literal "%27") (find "'"%char 0 myString)
               myString.

(** How often [c] occurs in [s]. *)
Definition count (c : ascii) (s : StdString.t) : nat :=
  length (filter (fun x => x = c) s).

(** Every [c] of [s] written as [str]. *)
Definition each (c : ascii) (str : StdString.t) (s : StdString.t)
    : StdString.t :=
  x ← s; if decide (x = c) then str else [x].

(** The string with every space and every apostrophe written as its
    percent code, character by character. *)
Definition percent_coded (s : StdString.t) : StdString.t :=
  c ← s;
  if decide (c = " "%char) then of_literal "%20"
  else if decide (c = "'"%char) then of_literal "%27"
  else [c].

(** The fields of [config] that Config_mupenplus.cpp names. *)
Inductive field :=
  | video_multisampling | video_fxaa
  | frameBufferEmulation_enable | frameBufferEmulation_aspect
  | frameBufferEmulation_nativeResFactor
  | frameBufferEmulation_bufferSwapMode
  | frameBufferEmulation_N64DepthCompare
  | frameBufferEmulation_copyAuxToRDRAM
  | frameBufferEmulation_copyToRDRAM
  | frameBufferEmulation_copyDepthToRDRAM
  | frameBufferEmulation_copyFromRDRAM
  | texture_bilinearMode | texture_maxAnisotropy
  | generalEmulation_enableHWLighting
  | generalEmulation_enableLegacyBlending
  | generalEmulation_enableNoise | generalEmulation_enableLOD
  | generalEmulation_enableFragmentDepthWrite
  | generalEmulation_enableShadersStorage
  | generalEmulation_hacks
  | textureFilter_txFilterMode | textureFilter_txEnhancementMode
  | textureFilter_txFilterIgnoreBG | textureFilter_txHiresEnable
  | textureFilter_txHiresFullAlphaChannel
  | graphics2D_correctTexrectCoords | graphics2D_enableNativeResTexrects
  | graphics2D_bgMode.

#[global] Instance field_eq_dec : EqDecision field.
Proof. solve_decision. Defined.

(** The global [config], by field. *)
Definition Config : Type := field -> Z.

(** [config.f = v;] *)
Definition assign (f : field) (v : Z) (config : Config) : Config :=
  fun g => if decide (g = f) then v else config g.

(** The fields a line of the ini can assign. *)
Definition ini_fields : list field :=
  [video_multisampling; frameBufferEmulation_aspect;
   frameBufferEmulation_nativeResFactor;
   frameBufferEmulation_copyToRDRAM; frameBufferEmulation_copyFromRDRAM;
   frameBufferEmulation_copyDepthToRDRAM;
   frameBufferEmulation_copyAuxToRDRAM;
   frameBufferEmulation_N64DepthCompare;
   frameBufferEmulation_bufferSwapMode;
   texture_bilinearMode; texture_maxAnisotropy;
   graphics2D_enableNativeResTexrects; graphics2D_correctTexrectCoords;
   generalEmulation_enableLegacyBlending;
   generalEmulation_enableFragmentDepthWrite].

(** What [ini_parse_line] (main/util.h) hands back for a line, as far as
    [LoadCustomSettings] looks at it; [INI_OTHER] is any type but the
    two. *)
Inductive ini_line_type := INI_SECTION | INI_PROPERTY | INI_OTHER.

#[global] Instance ini_line_type_eq_dec : EqDecision ini_line_type.
Proof. solve_decision. Defined.

Record ini_line := mk_line {
  type : ini_line_type;
  name : StdString.t;
  value : StdString.t;
}.

(** The options the front end keeps in globals (GLideN64_libretro.h). *)
Record Frontend := mkFrontend {
  AspectRatio : Z;
  EnableFBEmulation : Z;
  EnableN64DepthCompare : Z;
  bilinearMode : Z;
  EnableHWLighting : Z;
  enableLegacyBlending : Z;
  EnableNoiseEmulation : Z;
  EnableLODEmulation : Z;
  EnableCopyDepthToRDRAM : Z;
  EnableCopyColorToRDRAM : Z;
  EnableFragmentDepthWrite : Z;
  EnableShadersStorage : Z;
  txFilterMode : Z;
  txEnhancementMode : Z;
  txFilterIgnoreBG : Z;
  txHiresEnable : Z;
  txHiresFullAlphaChannel : Z;
  EnableFXAA : Z;
  MultiSampling : Z;
  CorrectTexrectCoords : Z;
  enableNativeResTexrects : Z;
  BackgroundMode : Z;
  EnableNativeResFactor : Z;
}.

(** The preprocessor symbols the file tests. *)
Record Build := mkBuild {
  GLES2 : bool;
  ANDROID : bool;
  HAVE_OPENGLES : bool;
  HAVE_OPENGLES2 : bool;
  VC : bool;
}.

(** What the file takes from elsewhere: [atoi] with the conversion to the
    field it is assigned to, [Config::resetToDefaults] on the fields above,
    and two enumerators of Config.h. *)
Class Environment := {
  atoi : StdString.t -> Z;
  resetToDefaults : Config -> Config;
  ctDisable : Z;
  bsOnColorImageChange : Z;
}.

Section WithEnvironment.
Context `{Environment}.

(** The chain of [strcmp]s under [case INI_PROPERTY:]. *)
Definition set_property (l : ini_line) (config : Config) : Config :=
  let name_is key := bool_decide (name l = of_literal key) in
  let v := atoi (value l) in
  if name_is "video\multisampling" then assign video_multisampling v config
  else if name_is "frameBufferEmulation\aspect" then
    assign frameBufferEmulation_aspect v config
  else if name_is "frameBufferEmulation\nativeResFactor" then
    assign frameBufferEmulation_nativeResFactor v config
  else if name_is "frameBufferEmulation\copyToRDRAM" then
    assign frameBufferEmulation_copyToRDRAM v config
  else if name_is "frameBufferEmulation\copyFromRDRAM" then
    assign frameBufferEmulation_copyFromRDRAM v config
  else if name_is "frameBufferEmulation\copyDepthToRDRAM" then
    assign frameBufferEmulation_copyDepthToRDRAM v config
  else if name_is "frameBufferEmulation\copyAuxToRDRAM" then
    assign frameBufferEmulation_copyAuxToRDRAM v config
  else if name_is "frameBufferEmulation\N64DepthCompare" then
    assign frameBufferEmulation_N64DepthCompare v config
  else if name_is "frameBufferEmulation\bufferSwapMode" then
    assign frameBufferEmulation_bufferSwapMode v config
  else if name_is "texture\bilinearMode" then assign texture_bilinearMode v config
  else if name_is "texture\maxAnisotropy" then
    assign texture_maxAnisotropy v config
  else if name_is "generalEmulation\enableNativeResTexrects" then
    assign graphics2D_enableNativeResTexrects v config
  else if name_is "generalEmulation\correctTexrectCoords" then
    assign graphics2D_correctTexrectCoords v config
  else if name_is "generalEmulation\enableLegacyBlending" then
    assign generalEmulation_enableLegacyBlending v config
  else if name_is "generalEmulation\enableFragmentDepthWrite" then
    assign generalEmulation_enableFragmentDepthWrite v config
  else config.

(** The body of the [while] loop for one line: [found] and [config]
    afterwards.  [case INI_SECTION:] has no [break] and runs on into
    [case INI_PROPERTY:]. *)
Definition line_step (fuel : nat) (myString : StdString.t) (l : ini_line)
    (st : bool * Config) : option (bool * Config) :=
  let '(found, config) := st in
  match type l with
  | INI_SECTION =>
      section ← replaceChars fuel (name l);
      let found := bool_decide (myString = section) in
      Some (found, if found then set_property l config else config)
  | INI_PROPERTY =>
      Some (found, if found then set_property l config else config)
  | INI_OTHER => Some (found, config)
  end.

Fixpoint lines_loop (fuel : nat) (myString : StdString.t)
    (lines : list ini_line) (st : bool * Config) : option (bool * Config) :=
  match lines with
  | [] => Some st
  | l :: lines' =>
      st ← line_step fuel myString l st;
      lines_loop fuel myString lines' st
  end.

(** [void LoadCustomSettings(void)]: [romname] is [RSP.romname], [lines]
    the lines [strtok] cuts out of [customini], each as [ini_parse_line]
    reads it. *)
Definition LoadCustomSettings (fuel : nat) (romname : StdString.t)
    (lines : list ini_line) (config : Config) : option Config :=
  myString ← replaceChars fuel romname;
  let myString := toupper <$> myString in
  snd <$> lines_loop fuel myString lines (false, config).

(** [extern "C" void Config_LoadConfig()] *)
Definition Config_LoadConfig (b : Build) (o : Frontend) (fuel : nat)
    (romname : StdString.t) (lines : list ini_line) (config : Config)
    : option Config :=
  let hacks := config generalEmulation_hacks in
  let config := resetToDefaults config in
  let config := assign frameBufferEmulation_aspect (AspectRatio o) config in
  let config := assign frameBufferEmulation_enable (EnableFBEmulation o) config in
  let config :=
    assign frameBufferEmulation_N64DepthCompare (EnableN64DepthCompare o)
           config in
  let config := assign texture_bilinearMode (bilinearMode o) config in
  let config :=
    assign generalEmulation_enableHWLighting (EnableHWLighting o) config in
  let config :=
    assign generalEmulation_enableLegacyBlending (enableLegacyBlending o)
           config in
  let config :=
    assign generalEmulation_enableNoise (EnableNoiseEmulation o) config in
  let config :=
    assign generalEmulation_enableLOD (EnableLODEmulation o) config in
  let config :=
    assign frameBufferEmulation_copyDepthToRDRAM (EnableCopyDepthToRDRAM o)
           config in
  let config :=
    assign frameBufferEmulation_copyToRDRAM
           (if GLES2 b && negb (ANDROID b) then ctDisable
            else EnableCopyColorToRDRAM o) config in
  let config :=
    if HAVE_OPENGLES b
    then assign frameBufferEmulation_bufferSwapMode bsOnColorImageChange config
    else config in
  let config :=
    assign generalEmulation_enableFragmentDepthWrite
           (if HAVE_OPENGLES2 b then 0 else EnableFragmentDepthWrite o)
           config in
  let config :=
    assign generalEmulation_enableShadersStorage
           (if VC b then 0 else EnableShadersStorage o) config in
  let config := assign textureFilter_txFilterMode (txFilterMode o) config in
  let config :=
    assign textureFilter_txEnhancementMode (txEnhancementMode o) config in
  let config :=
    assign textureFilter_txFilterIgnoreBG (txFilterIgnoreBG o) config in
  let config := assign textureFilter_txHiresEnable (txHiresEnable o) config in
  let config :=
    assign textureFilter_txHiresFullAlphaChannel (txHiresFullAlphaChannel o)
           config in
  let config := assign video_fxaa (EnableFXAA o) config in
  let config := assign video_multisampling (MultiSampling o) config in
  let config :=
    assign graphics2D_correctTexrectCoords (CorrectTexrectCoords o) config in
  let config :=
    assign graphics2D_enableNativeResTexrects (enableNativeResTexrects o)
           config in
  let config := assign graphics2D_bgMode (BackgroundMode o) config in
  let config :=
    assign frameBufferEmulation_nativeResFactor (EnableNativeResFactor o)
           config in
  let config := assign generalEmulation_hacks hacks config in
  LoadCustomSettings fuel romname lines config.

End WithEnvironment.

End ConfigMupenplus.

(** ** Worked examples: one choice of the externals *)

Module Example.

(** Modelled from the spec: TxUtil::sizeofTx, the macros GL_TEXFMT_GZ and
    FILE_CACHE_MASK and zlib's [uncompress] are declared outside
    TxCache.cpp.  The stored size is "computed from (width,height,format)"
    and the computation fails for an "unknown format": this [sizeofTx] knows
    one format, 32-bit RGBA (0x8058), and answers 0 for any other.  "High bit
    flags indicate payload is compressed": the compressed flag is the top
    bit of the format word.  The backend is chosen by "a file-cache option
    bit": two option bits make the mask.  The codec is "a black-box codec
    with a documented success/failure contract": its streams are stored as
    they are, and it fails when the destination is too small. *)
Definition ext : Externals := {|
  sizeofTx := fun w h f => if f =? 0x8058 then (w * h) * 4 else 0;
  GL_TEXFMT_GZ := 0x80000000;
  FILE_CACHE_MASK := 0x00c00000;
  uncompress := fun cap src =>
    if Z.of_nat (length src) <=? cap then Some src else None;
|}.

(** A [w]x[h] RGBA texture whose [n] payload bytes are all [b]. *)
Definition rgba (w h : Z) (n : nat) (b : byte) : GHQTexInfo :=
  mkInfo (Some (replicate n b)) w h 0x8058 0x8058 0x1401 0.

(** The same texture with the compressed flag set. *)
Definition rgba_gz (w h : Z) (n : nat) (b : byte) : GHQTexInfo :=
  set_format (Z.lor 0x8058 0x80000000) (rgba w h n b).

(** A texture in a format [sizeofTx] does not know. *)
Definition unknown (n : nat) : GHQTexInfo :=
  mkInfo (Some (replicate n x00)) 4 4 0x1234 0x1234 0x1401 0.

(** A caller's record before [get] fills it. *)
Definition blank : GHQTexInfo := mkInfo None 0 0 0 0 0 0.

(** A world in which uninitialised memory reads as zero and every
    allocation is granted. *)
Definition world : TxMemoryCache.World :=
  TxMemoryCache.mkWorld 0 0 0 (fun _ => blank) (fun _ => []) (fun _ => true)
                        (fun _ => true).

(** A cache with a budget of 1000 bytes that holds a compressed entry (9)
    and, added after it, a plain one (10); the entry stored for 9. *)
Definition gz_cache : TxMemoryCache.t :=
  (@TxMemoryCache.add ext true 10 (rgba 10 10 400 x02) 0
     (@TxMemoryCache.add ext true 9 (rgba_gz 10 10 400 x01) 400
        (TxMemoryCache.new 0 1000)).2).2.

Definition gz_entry : TxMemoryCache.TXCACHE :=
  TxMemoryCache.mkTXCACHE 400 (rgba_gz 10 10 400 x01) (Some 1%nat).

(** A cache without a budget that holds one entry. *)
Definition one_entry : TxMemoryCache.t :=
  (@TxMemoryCache.add ext true 1 (rgba 10 10 400 x01) 0
     (TxMemoryCache.new 0 0)).2.

(** A cache file: the fingerprint 5, then one record (checksum 1, a 2x2
    RGBA texture, 16 payload bytes). *)
Definition cache_file : list byte :=
  Bytes.le_encode 4 5 ++
  Bytes.le_encode 8 1 ++ Bytes.le_encode 4 2 ++ Bytes.le_encode 4 2 ++
  Bytes.le_encode 4 0x8058 ++ Bytes.le_encode 2 0x8058 ++
  Bytes.le_encode 2 0x1401 ++ Bytes.le_encode 1 0 ++
  Bytes.le_encode 4 16 ++ replicate 16 x07.

Definition disk : filesystem :=
  {[ ("cache"%string, "rom.htc"%string) := cache_file ]}.

(** [cache_file] cut off after the first 8 bytes of its payload. *)
Definition truncated_file : list byte := take (length cache_file - 8) cache_file.

Definition truncated_disk : filesystem :=
  {[ ("cache"%string, "rom.htc"%string) := truncated_file ]}.

(** A cache file whose one record declares a payload of -29 bytes, the
    length of a record header with its sign changed. *)
Definition rewinding_file : list byte :=
  Bytes.le_encode 4 5 ++
  Bytes.le_encode 8 1 ++ Bytes.le_encode 4 2 ++ Bytes.le_encode 4 2 ++
  Bytes.le_encode 4 0x8058 ++ Bytes.le_encode 2 0x8058 ++
  Bytes.le_encode 2 0x1401 ++ Bytes.le_encode 1 0 ++
  Bytes.le_encode 4 (-29).

Definition rewinding_disk : filesystem :=
  {[ ("cache"%string, "rom.htc"%string) := rewinding_file ]}.

(** A cache with a budget of 1000 bytes that holds one entry of 600
    bytes, checksum 1. *)
Definition full_cache : TxMemoryCache.t :=
  (@TxMemoryCache.add ext true 1 (rgba 10 15 600 x01) 0
     (TxMemoryCache.new 0 1000)).2.


(** A storage file: twelve bytes of header, then at offset 12 a record as
    [readData] reads it (a 2x2 RGBA texture, 16 payload bytes). *)
Definition storage_file : list byte :=
  replicate 12 x00 ++
  Bytes.le_encode 4 2 ++ Bytes.le_encode 4 2 ++
  Bytes.le_encode 4 0x8058 ++ Bytes.le_encode 2 0x8058 ++
  Bytes.le_encode 2 0x1401 ++ Bytes.le_encode 1 0 ++
  Bytes.le_encode 4 16 ++ replicate 16 x07.

(** A file backend as no sequence of calls leaves it: the index knows
    checksum 1 at offset 12, the input stream is open on [storage_file] and
    the scratch buffer has 64 bytes. *)
Definition open_storage : TxFileStorage.t :=
  TxFileStorage.mk 0 "cache" "rom.htc" 0 {[ 1 := 12 ]}
    (Some (replicate 64 x00)) None 0
    (IfStream.mk true storage_file 0 true) false 0 false.

(** [atoi] on an unsigned decimal numeral. *)
Definition decimal (s : list ascii) : Z :=
  foldl (fun acc c => 10 * acc + (Z.of_N (N_of_ascii c) - 48)) 0 s.

(** One choice of what Config_mupenplus.cpp takes from elsewhere: every
    default is 0, [ctDisable] is 0 and [bsOnColorImageChange] is 2. *)
Definition env : ConfigMupenplus.Environment := {|
  ConfigMupenplus.atoi := decimal;
  ConfigMupenplus.resetToDefaults := fun _ _ => 0;
  ConfigMupenplus.ctDisable := 0;
  ConfigMupenplus.bsOnColorImageChange := 2;
|}.

Definition romname : list ascii := StdString.of_literal "Conker's BFD".

(** An ini of two sections, the first of them for [romname]. *)
Definition customini : list ConfigMupenplus.ini_line :=
  [ ConfigMupenplus.mk_line ConfigMupenplus.INI_OTHER [] [];
    ConfigMupenplus.mk_line ConfigMupenplus.INI_SECTION
      (StdString.of_literal "CONKER%27S%20BFD") [];
    ConfigMupenplus.mk_line ConfigMupenplus.INI_PROPERTY
      (StdString.of_literal "frameBufferEmulation\copyToRDRAM")
      (StdString.of_literal "1");
    ConfigMupenplus.mk_line ConfigMupenplus.INI_SECTION
      (StdString.of_literal "BODY HARVEST") [];
    ConfigMupenplus.mk_line ConfigMupenplus.INI_PROPERTY
      (StdString.of_literal "frameBufferEmulation\copyToRDRAM")
      (StdString.of_literal "2") ].

(** The front end's options, each set to the number of its line in
    [Config_LoadConfig], and a desktop build. *)
Definition frontend : ConfigMupenplus.Frontend :=
  ConfigMupenplus.mkFrontend 101 102 103 105 106 107 108 109 111 115 123 129
    132 133 134 135 136 137 138 140 141 142 144.

Definition desktop : ConfigMupenplus.Build :=
  ConfigMupenplus.mkBuild false false false false false.

End Example.

(** * Properties *)

Module M := TxMemoryCache.
Module F := TxFileStorage.
Module C := ConfigMupenplus.

(** ** Machine integers *)

Section MachFacts.
Import Mach.

Lemma to_uint64_range z : 0 <= to_uint64 z < 2 ^ 64.
Proof. unfold to_uint64. apply Z.mod_pos_bound. lia. Qed.

Lemma to_uint64_small z : 0 <= z < 2 ^ 64 -> to_uint64 z = z.
Proof. intros. unfold to_uint64. apply Z.mod_small. lia. Qed.

Lemma to_int_range z : - 2 ^ 31 <= to_int z <= INT_MAX.
Proof.
  unfold to_int, INT_MAX.
  pose proof (Z.mod_pos_bound (z + 2 ^ 31) (2 ^ 32)). lia.
Qed.


(** A granted request for an [int] number of bytes was for a non-negative
    number, and the heap stays under PTRDIFF_MAX. *)
Lemma malloc_granted avail live n :
  0 <= live -> - 2 ^ 31 <= n <= INT_MAX ->
  malloc avail live n = true ->
  avail = true /\ 0 <= n /\ live + n <= PTRDIFF_MAX.
Proof.
  unfold malloc, to_size_t, to_uint64, INT_MAX, PTRDIFF_MAX.
  intros Hl Hn H. apply andb_prop in H as [Ha Hb].
  apply Z.leb_le in Hb. split; [done|].
  Z.div_mod_to_equations. lia.
Qed.


Lemma to_uint64_sub_l a b : to_uint64 (to_uint64 a - b) = to_uint64 (a - b).
Proof. unfold to_uint64. apply Zminus_mod_idemp_l. Qed.

End MachFacts.

(** ** std::list *)

Section StdListFacts.
Import StdList.

Lemma fresh_not_in l : fresh l ∉ iterators l.
Proof.
  unfold fresh. intros Hin. apply max_list_elem_of_le in Hin. lia.
Qed.

Lemma erase_defined it l : it ∈ iterators l -> is_Some (erase it l).
Proof.
  unfold iterators. induction l as [|n l IH]; simpl.
  - intros Hin. by apply elem_of_nil in Hin.
  - intros Hin. destruct (decide (n.1 = it)) as [|Hne]; [by eexists|].
    apply elem_of_cons in Hin as [Heq|Hin]; [by subst|].
    destruct (IH Hin) as [l' ->]. by eexists.
Qed.

(** Erasing the node [(it, v)] from a list whose nodes have distinct
    identities removes exactly that node. *)
Lemma erase_spec it l l' :
  erase it l = Some l' ->
  exists l1 v l2, l = l1 ++ (it, v) :: l2 /\ l' = l1 ++ l2 /\
                  it ∉ iterators l1.
Proof.
  revert l'. induction l as [|[i v] l IH]; simpl; intros l' H; [done|].
  destruct (decide (i = it)) as [->|Hne].
  - injection H as <-. exists [], v, l. repeat split; auto.
    unfold iterators; simpl. apply not_elem_of_nil.
  - destruct (erase it l) as [l0|] eqn:He; [|done].
    injection H as <-.
    destruct (IH l0 eq_refl) as (l1 & w & l2 & -> & -> & Hni).
    exists ((i, v) :: l1), w, l2. repeat split; auto.
    unfold iterators in *; simpl. rewrite not_elem_of_cons. split; auto.
Qed.


Lemma values_app l1 l2 : values (l1 ++ l2) = values l1 ++ values l2.
Proof. unfold values. apply fmap_app. Qed.

Lemma iterators_app l1 l2 : iterators (l1 ++ l2) = iterators l1 ++ iterators l2.
Proof. unfold iterators. apply fmap_app. Qed.

Lemma elem_of_values it k (l : list node) : (it, k) ∈ l -> k ∈ values l.
Proof. intros Hin. unfold values. apply list_elem_of_fmap. by exists (it, k). Qed.

Lemma elem_of_iterators it k (l : list node) : (it, k) ∈ l -> it ∈ iterators l.
Proof. intros Hin. unfold iterators. apply list_elem_of_fmap. by exists (it, k). Qed.

End StdListFacts.
(** ** The bytes held *)

Section LiveBytes.
Import Mach.

Lemma live_bytes_empty : M.live_bytes ∅ = 0.
Proof. unfold M.live_bytes. apply map_fold_empty. Qed.

Lemma live_bytes_insert k e (c : gmap Z M.TXCACHE) :
  c !! k = None -> M.live_bytes (<[k:=e]> c) = M.txc_size e + M.live_bytes c.
Proof.
  intros Hk. unfold M.live_bytes.
  apply (map_fold_insert_L (fun _ e acc => M.txc_size e + acc)); [|done].
  intros. lia.
Qed.

Lemma live_bytes_delete k e (c : gmap Z M.TXCACHE) :
  c !! k = Some e -> M.live_bytes (delete k c) = M.live_bytes c - M.txc_size e.
Proof.
  intros Hk. unfold M.live_bytes.
  rewrite (map_fold_delete_L (fun _ e acc => M.txc_size e + acc) 0 k e c);
    [lia| |done].
  intros. lia.
Qed.

Lemma live_bytes_nonneg (c : gmap Z M.TXCACHE) :
  (forall k e, c !! k = Some e -> 0 < M.txc_size e) -> 0 <= M.live_bytes c.
Proof.
  induction c as [|k e c Hk IH] using map_ind; intros Hpos.
  - rewrite live_bytes_empty. lia.
  - rewrite live_bytes_insert by done.
    assert (0 < M.txc_size e) by (apply (Hpos k); apply lookup_insert_eq).
    assert (0 <= M.live_bytes c); [|lia].
    apply IH. intros k' e' Hk'. apply (Hpos k').
    rewrite lookup_insert_ne; [done|]. intros ->. congruence.
Qed.

End LiveBytes.
(** ** The eviction loop *)

Section Evict.
Import Mach StdList.

Lemma values_cons_lookup {V} n (d : list node) k (o : option V) :
  (if decide (k ∈ values d) then None
   else if decide (k = n.2) then None else o) =
  (if decide (k ∈ values (n :: d)) then None else o).
Proof.
  unfold values. simpl.
  destruct (decide (k ∈ d.*2)) as [Hin|Hni].
  - rewrite decide_True; [done|]. by right.
  - destruct (decide (k = n.2)) as [->|Hne].
    + by rewrite decide_True by (by left).
    + rewrite decide_False; [done|]. rewrite not_elem_of_cons. done.
Qed.

(** What the loop of [add] leaves: the nodes [d] it walked over are gone
    from the list and their checksums from the map, the running total went
    down by the bytes released, and the loop stopped within the limit or at
    the end of the list. *)
Lemma evict_spec limit l c total l' c' t' :
  M.evict limit l c total = (l', c', t') ->
  exists d,
    l = d ++ l' /\
    (forall k, c' !! k = if decide (k ∈ values d) then None else c !! k) /\
    to_uint64 t' = to_uint64 (total - (M.live_bytes c - M.live_bytes c')) /\
    (t' <= limit \/ l' = []) /\
    (0 <= total < 2 ^ 64 -> 0 <= t' < 2 ^ 64).
Proof.
  revert c total. induction l as [|n l IH]; intros c total Hev; simpl in Hev.
  { injection Hev as <- <- <-. exists []. split_and!.
    - done.
    - intros k. rewrite decide_False; [done|]. apply not_elem_of_nil.
    - f_equal. lia.
    - by right.
    - done. }
  set (step := match c !! n.2 with
               | Some e => (delete n.2 c, to_uint64 (total - M.txc_size e))
               | None => (c, total)
               end) in Hev.
  assert (Hstep :
    (forall k, step.1 !! k = if decide (k = n.2) then None else c !! k) /\
    to_uint64 step.2 = to_uint64 (total - (M.live_bytes c - M.live_bytes step.1)) /\
    (0 <= total < 2 ^ 64 -> 0 <= step.2 < 2 ^ 64)).
  { subst step. destruct (c !! n.2) as [e|] eqn:Hn; simpl; split_and!.
    - intros k. destruct (decide (k = n.2)) as [->|Hne].
      + apply lookup_delete_eq.
      + by apply lookup_delete_ne.
    - rewrite (live_bytes_delete _ e) by done.
      unfold to_uint64. rewrite Z.mod_mod by lia. f_equal. lia.
    - intros _. apply to_uint64_range.
    - intros k. destruct (decide (k = n.2)) as [->|Hne]; done.
    - f_equal. lia.
    - done. }
  destruct step as [c1 t1]. simpl in Hstep.
  destruct Hstep as (Hlk1 & Hacc1 & Hrng1).
  destruct (Z.leb_spec t1 limit) as [Hle|Hgt].
  - injection Hev as <- <- <-. exists [n]. split_and!.
    + done.
    + intros k. rewrite Hlk1. unfold values. simpl.
      destruct (decide (k = n.2)) as [->|Hne].
      * by rewrite decide_True by (by left).
      * rewrite decide_False; [done|].
        rewrite list_elem_of_singleton. done.
    + done.
    + by left.
    + done.
  - apply IH in Hev as (d & -> & Hlk & Hacc & Hexit & Hrng).
    exists (n :: d). split_and!.
    + done.
    + intros k. rewrite Hlk, Hlk1. by apply values_cons_lookup.
    + rewrite Hacc. rewrite <- to_uint64_sub_l, Hacc1, to_uint64_sub_l.
      f_equal. lia.
    + done.
    + intros Ht. apply Hrng, Hrng1, Ht.
Qed.

End Evict.

(** ** Making room *)

Section MakeRoom.
Import Mach StdList.

Lemma evict_live_le limit l c total l' c' t' :
  M.evict limit l c total = (l', c', t') ->
  (forall k e, c !! k = Some e -> 0 < M.txc_size e) ->
  M.live_bytes c' <= M.live_bytes c.
Proof.
  revert c total. induction l as [|n l IH]; intros c total Hev Hpos;
    simpl in Hev.
  { injection Hev as <- <- <-. lia. }
  destruct (c !! n.2) as [e|] eqn:Hn.
  - assert (Hdel : M.live_bytes (delete n.2 c) <= M.live_bytes c).
    { rewrite (live_bytes_delete _ e) by done. specialize (Hpos _ _ Hn). lia. }
    destruct (to_uint64 (total - M.txc_size e) <=? limit).
    + by injection Hev as <- <- <-.
    + apply IH in Hev; [lia|].
      intros k e' Hk. apply lookup_delete_Some in Hk as [_ Hk]. eauto.
  - destruct (total <=? limit).
    + injection Hev as <- <- <-. lia.
    + by apply IH in Hev.
Qed.

(** Dropping a prefix of the list together with its checksums keeps the
    list and the map in step. *)
Lemma lru_inv_evicted s d l' c' total' :
  M._cachelist s = d ++ l' ->
  (forall k, c' !! k = if decide (k ∈ values d) then None else M._cache s !! k) ->
  M.lru_inv s -> M.lru_inv (M.set_store c' l' total' s).
Proof.
  intros Hl Hlk [[Hnd Hkeys] [Hndi Hits]].
  rewrite Hl in Hnd, Hkeys, Hndi, Hits.
  rewrite values_app in Hnd, Hkeys. rewrite iterators_app in Hndi.
  apply NoDup_app in Hnd as (Hnd1 & Hdisj & Hnd2).
  apply NoDup_app in Hndi as (_ & _ & Hndi2).
  split; split; simpl.
  - done.
  - intros k. rewrite Hlk. destruct (decide (k ∈ values d)) as [Hin|Hni].
    + split; [by intros [? ?]|]. intros Hin'. by apply Hdisj in Hin.
    + rewrite Hkeys, elem_of_app. tauto.
  - done.
  - intros k e. rewrite Hlk. destruct (decide (k ∈ values d)) as [Hin|Hni];
      [done|].
    intros Hk. destruct (Hits _ _ Hk) as (it & Hit & Hin).
    exists it. split; [done|].
    apply elem_of_app in Hin as [Hin|Hin]; [|done].
    exfalso. apply Hni. by apply (elem_of_values it).
Qed.

(** An empty list goes with an empty map. *)
Lemma lru_consistent_nil s :
  M.lru_consistent s -> M._cachelist s = [] -> M._cache s = ∅.
Proof.
  intros [_ Hkeys] Hl. apply map_empty. intros k.
  apply eq_None_not_Some. rewrite Hkeys, Hl. apply not_elem_of_nil.
Qed.

Lemma make_room_spec dataSize s :
  M.lru_inv s -> M.accounted s ->
  - 2 ^ 31 <= dataSize <= INT_MAX ->
  let s' := M.make_room dataSize s in
  M.lru_inv s' /\ M.accounted s' /\
  M._cacheLimit s' = M._cacheLimit s /\
  M._options s' = M._options s /\
  M._gzdest0 s' = M._gzdest0 s /\ M._gzdest1 s' = M._gzdest1 s /\
  M._gzdestLen s' = M._gzdestLen s /\
  M._totalSize s' <= M._totalSize s /\
  (exists d, M._cachelist s = d ++ M._cachelist s' /\
     forall k, M._cache s' !! k =
               if decide (k ∈ values d) then None else M._cache s !! k) /\
  (0 < dataSize ->
   M._totalSize s' + dataSize <= M._cacheLimit s \/ M._cache s' = ∅).
Proof.
  intros Hinv Hacc Hd. unfold M.make_room.
  destruct Hacc as (Htot & Hsz & Hlive & Hlim).
  assert (Hnn : 0 <= M.live_bytes (M._cache s)).
  { apply live_bytes_nonneg. intros k e Hk. apply Hsz in Hk; lia. }
  set (t0 := to_uint64 (M._totalSize s + dataSize)).
  assert (Ht0 : 0 <= t0 < 2 ^ 64) by apply to_uint64_range.
  assert (Hfinal : forall c' t', 
    to_uint64 t' = to_uint64 (t0 - (M.live_bytes (M._cache s) - M.live_bytes c')) ->
    0 <= M.live_bytes c' <= M.live_bytes (M._cache s) ->
    to_uint64 (t' - dataSize) = M.live_bytes c').
  { intros c' t' Ht' Hc'. rewrite <- to_uint64_sub_l, Ht', to_uint64_sub_l.
    replace (t0 - (M.live_bytes (M._cache s) - M.live_bytes c') - dataSize)
      with (t0 - (M.live_bytes (M._cache s) - M.live_bytes c' + dataSize))
      by lia.
    subst t0. rewrite to_uint64_sub_l, Htot.
    replace (M.live_bytes (M._cache s) + dataSize -
             (M.live_bytes (M._cache s) - M.live_bytes c' + dataSize))
      with (M.live_bytes c') by lia.
    apply to_uint64_small. unfold PTRDIFF_MAX in *. lia. }
  assert (Hpos0 : 0 < dataSize -> t0 = M._totalSize s + dataSize).
  { intros Hp. subst t0. apply to_uint64_small.
    unfold PTRDIFF_MAX, INT_MAX in *. lia. }
  destruct ((M._cacheLimit s <? t0) &&
            negb (bool_decide (M._cachelist s = []))) eqn:Hcond.
  - destruct (M.evict (M._cacheLimit s) (M._cachelist s) (M._cache s) t0)
      as [[l' c'] t'] eqn:Hev.
    pose proof (evict_live_le _ _ _ _ _ _ _ Hev) as Hle.
    apply evict_spec in Hev as (d & Hl & Hlk & Hacc' & Hexit & Hrng).
    assert (Hsz' : forall k e, c' !! k = Some e -> 0 < M.txc_size e <= INT_MAX).
    { intros k e. rewrite Hlk. destruct (decide _); [done|]. apply Hsz. }
    assert (Hc' : 0 <= M.live_bytes c' <= M.live_bytes (M._cache s)).
    { split.
      - apply live_bytes_nonneg. intros k e Hk. apply Hsz' in Hk; lia.
      - apply Hle. intros k e Hk. apply Hsz in Hk; lia. }
    specialize (Hfinal c' t' Hacc' Hc').
    simpl. split_and!; [ | | done | done | done | done | done | | | ].
    + by apply (lru_inv_evicted s d).
    + unfold M.accounted; simpl. split_and!; [done|done|lia|lia|lia].
    + lia.
    + exists d. done.
    + intros Hp. rewrite Hfinal.
      destruct Hexit as [Hle'|Hnil].
      * left. specialize (Hrng Ht0).
        rewrite (to_uint64_small t') in Hacc' by done.
        rewrite Hacc', (Hpos0 Hp), Htot in Hle'.
        rewrite to_uint64_small in Hle';
          [lia | unfold PTRDIFF_MAX, INT_MAX in *; lia].
      * right. subst l'. rewrite app_nil_r in Hl. apply map_empty. intros k.
        rewrite Hlk. destruct (decide _) as [|Hni]; [done|].
        apply eq_None_not_Some. destruct Hinv as [[_ Hkeys] _].
        rewrite Hkeys, Hl. done.
  - assert (Hc' : 0 <= M.live_bytes (M._cache s) <= M.live_bytes (M._cache s))
      by lia.
    assert (Hacc' : to_uint64 t0 = to_uint64
      (t0 - (M.live_bytes (M._cache s) - M.live_bytes (M._cache s)))).
    { f_equal. lia. }
    specialize (Hfinal _ _ Hacc' Hc').
    simpl. split_and!; [ | | done | done | done | done | done | | | ].
    + destruct Hinv as [[? ?] [? ?]]. split; split; simpl; done.
    + unfold M.accounted; simpl. split_and!; [done|done|lia|lia|lia].
    + lia.
    + exists []. split; [done|]. intros k. rewrite decide_False; [done|].
      apply not_elem_of_nil.
    + intros Hp. rewrite Hfinal.
      apply andb_false_iff in Hcond as [Hlt|Hnil].
      * left. apply Z.ltb_ge in Hlt. rewrite (Hpos0 Hp) in Hlt. lia.
      * right. apply negb_false_iff, bool_decide_eq_true in Hnil.
        apply lru_consistent_nil; [apply Hinv|done].
Qed.

End MakeRoom.

(** ** Nodes coming and going *)

Section Nodes.
Import Mach StdList.

(** [push_back] of a checksum the map does not hold, and the entry that
    remembers the new node. *)
Lemma lru_inv_push_back s k sz inf total' :
  M.lru_inv s -> M._cache s !! k = None ->
  M.lru_inv
    (M.set_store
       (<[k := M.mkTXCACHE sz inf (Some (fresh (M._cachelist s)))]> (M._cache s))
       (M._cachelist s ++ [(fresh (M._cachelist s), k)]) total' s).
Proof.
  intros [[Hnd Hkeys] [Hndi Hits]] Hk.
  assert (Hni : k ∉ values (M._cachelist s)).
  { rewrite <- Hkeys, Hk. by intros [? ?]. }
  split; split; simpl.
  - rewrite values_app. apply NoDup_app. split_and!; [done| |].
    + intros k' Hin Hin'. apply list_elem_of_singleton in Hin'. by subst.
    + apply NoDup_singleton.
  - intros k'. rewrite values_app, elem_of_app, lookup_insert.
    unfold values at 2. simpl. rewrite list_elem_of_singleton.
    destruct (decide (k = k')) as [->|Hne].
    + split; [by right | by eexists].
    + rewrite Hkeys. split; [by left|]. intros [?|?]; [done|congruence].
  - rewrite iterators_app. apply NoDup_app. split_and!; [done| |].
    + intros it Hin Hin'. apply list_elem_of_singleton in Hin'. subst.
      by apply fresh_not_in in Hin.
    + apply NoDup_singleton.
  - intros k' e. rewrite lookup_insert.
    destruct (decide (k = k')) as [->|Hne].
    + intros [= <-]. eexists. split; [done|].
      apply elem_of_app. right. by apply list_elem_of_singleton.
    + intros Hk'. destruct (Hits _ _ Hk') as (it & Hit & Hin).
      exists it. split; [done|]. apply elem_of_app. by left.
Qed.

(** The node an entry's iterator names holds the entry's checksum; erasing
    it, and the checksum from the map, keeps the two in step. *)
Lemma lru_inv_erase s k e :
  M.lru_inv s -> M._cache s !! k = Some e ->
  exists it l1 l2,
    M.txc_it e = Some it /\
    M._cachelist s = l1 ++ (it, k) :: l2 /\
    erase it (M._cachelist s) = Some (l1 ++ l2) /\
    (k ∉ values (l1 ++ l2)) /\
    forall total',
      M.lru_inv (M.set_store (delete k (M._cache s)) (l1 ++ l2) total' s).
Proof.
  intros [[Hnd Hkeys] [Hndi Hits]] Hk.
  destruct (Hits _ _ Hk) as (it & Hit & Hin).
  destruct (erase_defined it (M._cachelist s)) as [l' Her].
  { by apply (elem_of_iterators it k). }
  destruct (erase_spec _ _ _ Her) as (l1 & v & l2 & Hl & -> & Hni1).
  rewrite Hl in Hnd, Hkeys, Hndi, Hits, Hin.
  rewrite iterators_app in Hndi. unfold iterators at 2 in Hndi.
  simpl in Hndi. apply NoDup_app in Hndi as (Hndi1 & Hdisj & Hndi2).
  apply NoDup_cons in Hndi2 as [Hni2 Hndi2].
  assert (v = k) as ->.
  { apply elem_of_app in Hin as [Hin|Hin].
    - exfalso. apply Hni1. by apply (elem_of_iterators it k).
    - apply elem_of_cons in Hin as [[= ->]|Hin]; [done|].
      exfalso. apply Hni2. by apply (elem_of_iterators it k). }
  rewrite values_app in Hnd. unfold values at 2 in Hnd. simpl in Hnd.
  apply NoDup_app in Hnd as (Hnd1 & Hdisjv & Hnd2).
  apply NoDup_cons in Hnd2 as [Hnv2 Hnd2].
  assert (Hnk : k ∉ values (l1 ++ l2)).
  { rewrite values_app, elem_of_app. intros [Hin1|Hin2]; [|done].
    apply (Hdisjv k Hin1). by left. }
  exists it, l1, l2. split_and!; [done|done|done|done|].
  intros total'. split; split; simpl.
  - rewrite values_app. apply NoDup_app. split_and!; [done| |done].
    intros k' Hin1 Hin2. apply (Hdisjv k' Hin1). by right.
  - intros k'. rewrite lookup_delete.
    destruct (decide (k = k')) as [->|Hne].
    + split; [by intros [? ?] | done].
    + rewrite Hkeys, !values_app, !elem_of_app. unfold values at 2. simpl.
      rewrite elem_of_cons. split; [|tauto].
      intros [?|[?|?]]; [by left | congruence | by right].
  - rewrite iterators_app. apply NoDup_app. split_and!; [done| |done].
    intros it' Hin1 Hin2. apply (Hdisj it' Hin1). by right.
  - intros k' e'. rewrite lookup_delete.
    destruct (decide (k = k')) as [->|Hne]; [done|].
    intros Hk'. destruct (Hits _ _ Hk') as (it' & Hit' & Hin').
    exists it'. split; [done|].
    rewrite elem_of_app in Hin' |- *. rewrite elem_of_cons in Hin'.
    destruct Hin' as [?|[[= -> ->]|?]]; [by left | done | by right].
Qed.

End Nodes.

(** ** add *)

Section Add.
Context `{Externals}.
Import Mach StdList.

Lemma stored_size_range info dataSize :
  - 2 ^ 31 <= M.stored_size info dataSize <= INT_MAX.
Proof. unfold M.stored_size. destruct (_ =? _); apply to_int_range. Qed.

(** A key the map does not hold is inserted. *)
Lemma std_map_insert_new {V} k (v : V) (m : gmap Z V) :
  m !! k = None -> std_map_insert k v m = <[k:=v]> m.
Proof. intros Hk. unfold std_map_insert. by rewrite Hk. Qed.

(** [add] with a budget keeps the list and the map in step and the total
    exact; a call that stores leaves the total within the budget or equal
    to the size it stored, and a call that does not never raises it. *)
Lemma add_spec avail k info dataSize s :
  M._cacheLimit s <> 0 -> M.lru_inv s -> M.accounted s ->
  let r := M.add avail k info dataSize s in
  M.lru_inv r.2 /\ M.accounted r.2 /\
  M._cacheLimit r.2 = M._cacheLimit s /\
  (r.1 = false -> M._totalSize r.2 <= M._totalSize s) /\
  (r.1 = true ->
   0 < M.stored_size info dataSize /\
   (M._totalSize r.2 <= M._cacheLimit s \/
    M._totalSize r.2 = M.stored_size info dataSize)).
Proof.
  intros Hlim Hinv Hacc. unfold M.add.
  destruct (bool_decide (k = 0) || is_null (data info)
            || bool_decide (is_Some (M._cache s !! k))) eqn:Hrej.
  { simpl. split_and!; [done|done|done|lia|done]. }
  apply orb_false_iff in Hrej as [_ Hfresh].
  apply bool_decide_eq_false in Hfresh.
  apply eq_None_not_Some in Hfresh.
  pose proof (stored_size_range info dataSize) as Hrng.
  set (n := M.stored_size info dataSize) in *.
  destruct (Z.eqb_spec n 0) as [Hn0|Hn0].
  { simpl. split_and!; [done|done|done|lia|done]. }
  apply Z.eqb_neq in Hlim as Hlimb. rewrite Hlimb.
  destruct (make_room_spec n s Hinv Hacc Hrng)
    as (Hinv1 & Hacc1 & Hlim1 & _ & _ & _ & _ & Htot1 & (d & Hl & Hlk) & Hroom).
  set (s1 := M.make_room n s) in *.
  rewrite Hlim1, Hlimb.
  assert (Hfresh1 : M._cache s1 !! k = None).
  { rewrite Hlk. by destruct (decide _). }
  destruct (malloc avail (M.live_bytes (M._cache s1)) n) eqn:Hm; simpl.
  2: { split_and!; [done|done|done|lia|done]. }
  destruct Hacc1 as (Htot & Hsz & Hlive & Hlimr).
  apply malloc_granted in Hm as (_ & Hnn & Hcap); [|  |done].
  2: { apply live_bytes_nonneg. intros k' e Hk'. apply Hsz in Hk'. lia. }
  assert (Hpos : 0 < n) by lia.
  rewrite std_map_insert_new by done.
  assert (Hnew : to_uint64 (M._totalSize s1 + n) = M._totalSize s1 + n).
  { apply to_uint64_small. rewrite Htot. unfold PTRDIFF_MAX in *.
    assert (0 <= M.live_bytes (M._cache s1)); [|lia].
    apply live_bytes_nonneg. intros k' e Hk'. apply Hsz in Hk'. lia. }
  split_and!.
  - by apply lru_inv_push_back.
  - unfold M.accounted; simpl. rewrite Hnew, live_bytes_insert by done.
    split_and!; simpl; [lia| |lia|lia|lia].
    intros k' e. rewrite lookup_insert.
    destruct (decide (k = k')) as [->|Hne]; [|by apply Hsz].
    intros [= <-]. simpl. lia.
  - done.
  - done.
  - intros _. split; [done|]. rewrite Hnew.
    destruct (Hroom Hpos) as [Hle|Hemp]; [left; lia|right].
    rewrite Htot, Hemp, live_bytes_empty. lia.
Qed.

End Add.

(** ** The shape of the cache after [add] *)

Section AddShape.
Context `{Externals}.
Import Mach StdList.
#[local] Arguments std_map_insert : simpl never.

(** [make_room] drops a prefix [d] of the list and the checksums of [d]
    from the map, and touches nothing but the map, the list and the
    total. *)
Lemma make_room_shape n s :
  let s' := M.make_room n s in
  (exists d, M._cachelist s = d ++ M._cachelist s' /\
     forall k, M._cache s' !! k =
               if decide (k ∈ values d) then None else M._cache s !! k) /\
  M._cacheLimit s' = M._cacheLimit s /\ M._options s' = M._options s /\
  M._gzdest0 s' = M._gzdest0 s /\ M._gzdest1 s' = M._gzdest1 s /\
  M._gzdestLen s' = M._gzdestLen s.
Proof.
  unfold M.make_room.
  destruct ((M._cacheLimit s <? _) && _).
  - destruct (M.evict _ _ _ _) as [[l' c'] t'] eqn:Hev.
    apply evict_spec in Hev as (d & Hl & Hlk & _). simpl.
    split_and!; [|done..]. by exists d.
  - simpl. split_and!; [|done..]. exists []. split; [done|].
    intros k. rewrite decide_False; [done|]. apply not_elem_of_nil.
Qed.

Lemma make_room_lru n s : M.lru_inv s -> M.lru_inv (M.make_room n s).
Proof.
  intros Hinv.
  destruct (make_room_shape n s) as ((d & Hl & Hlk) & _).
  pose proof (lru_inv_evicted s d _ _ (M._totalSize (M.make_room n s))
                Hl Hlk Hinv) as Hinv'.
  destruct Hinv' as [[? ?] [? ?]]. split; split; done.
Qed.

(** The cache a successful [add] leaves. *)
Lemma add_stored avail k info dataSize s s' :
  M.add avail k info dataSize s = (true, s') ->
  let n := M.stored_size info dataSize in
  let s1 := if M._cacheLimit s =? 0 then s else M.make_room n s in
  let it := if M._cacheLimit s =? 0 then None
            else Some (fresh (M._cachelist s1)) in
  let e := M.mkTXCACHE n
             (set_format (format info)
                (set_data (Some (memcpy (default [] (data info)) n)) info))
             it in
  k <> 0 /\ is_Some (data info) /\ M._cache s !! k = None /\ n <> 0 /\
  malloc avail (M.live_bytes (M._cache s1)) n = true /\
  M._cache s1 !! k = None /\
  M._cache s' = <[k := e]> (M._cache s1) /\
  M._cachelist s' =
    (if M._cacheLimit s =? 0 then M._cachelist s1
     else M._cachelist s1 ++ [(fresh (M._cachelist s1), k)]) /\
  M._totalSize s' = to_uint64 (M._totalSize s1 + n) /\
  M._cacheLimit s' = M._cacheLimit s /\ M._options s' = M._options s /\
  M._gzdest0 s' = M._gzdest0 s /\ M._gzdest1 s' = M._gzdest1 s /\
  M._gzdestLen s' = M._gzdestLen s.
Proof.
  unfold M.add.
  destruct (bool_decide (k = 0)) eqn:Hk0; [done|].
  destruct (is_null (data info)) eqn:Hnull; [done|].
  destruct (bool_decide (is_Some (M._cache s !! k))) eqn:Hfresh; [done|].
  simpl.
  apply bool_decide_eq_false in Hk0, Hfresh.
  apply eq_None_not_Some in Hfresh.
  destruct (Z.eqb_spec (M.stored_size info dataSize) 0) as [|Hn0]; [done|].
  set (n := M.stored_size info dataSize) in *.
  assert (Hs1 : forall s1, s1 = (if M._cacheLimit s =? 0 then s
                                 else M.make_room n s) ->
    M._cache s1 !! k = None /\
    M._cacheLimit s1 = M._cacheLimit s /\ M._options s1 = M._options s /\
    M._gzdest0 s1 = M._gzdest0 s /\ M._gzdest1 s1 = M._gzdest1 s /\
    M._gzdestLen s1 = M._gzdestLen s).
  { intros s1 ->. destruct (M._cacheLimit s =? 0); [done|].
    destruct (make_room_shape n s) as ((d & _ & Hlk) & Hrest).
    split; [|done]. rewrite Hlk. by destruct (decide _). }
  destruct (Hs1 _ eq_refl) as (Hk1 & Hlim1 & Hopt1 & Hg0 & Hg1 & Hgl).
  set (s1 := if M._cacheLimit s =? 0 then s else M.make_room n s) in *.
  destruct (malloc avail (M.live_bytes (M._cache s1)) n) eqn:Hm; [|done].
  simpl. rewrite Hlim1.
  destruct (data info) as [dest|] eqn:Hdata; [|done].
  destruct (M._cacheLimit s =? 0) eqn:Hlim; simpl;
    rewrite std_map_insert_new by done;
    intros [= <-]; simpl; split_and!; done || by eexists.
Qed.

End AddShape.

(** ** The list and the map stay in step *)

Section LruInv.
Context `{Externals}.
Import Mach StdList.

Lemma lru_inv_ext s s' :
  M._cache s' = M._cache s -> M._cachelist s' = M._cachelist s ->
  M.lru_inv s -> M.lru_inv s'.
Proof.
  unfold M.lru_inv, M.lru_consistent, M.iterators_valid.
  by intros -> ->.
Qed.

Lemma lru_inv_new options cacheLimit : M.lru_inv (M.new options cacheLimit).
Proof.
  split; split; simpl.
  - apply NoDup_nil_2.
  - intros k. rewrite lookup_empty. split; [by intros [? ?]|].
    intros Hin. by apply elem_of_nil in Hin.
  - apply NoDup_nil_2.
  - intros k e. by rewrite lookup_empty.
Qed.

Lemma lru_inv_clear s : M.lru_inv (M.clear s).
Proof. apply (lru_inv_ext (M.new 0 0)); [done..|apply lru_inv_new]. Qed.

(** A call of [add] that returns false left the cache alone or stopped after
    making room. *)
Lemma add_rejected avail k info dataSize s s' :
  M.add avail k info dataSize s = (false, s') ->
  s' = s \/
  (M._cacheLimit s <> 0 /\ s' = M.make_room (M.stored_size info dataSize) s).
Proof.
  unfold M.add.
  destruct (_ || _ || _); [intros [= <-]; by left|].
  destruct (M.stored_size info dataSize =? 0); [intros [= <-]; by left|].
  destruct (Z.eqb_spec (M._cacheLimit s) 0) as [Hlim|Hlim].
  - destruct (negb _); [intros [= <-]; by left|].
    rewrite Hlim. simpl. done.
  - destruct (negb _); [intros [= <-]; by right|].
    destruct (_ =? 0); simpl; done.
Qed.

Lemma add_lru_inv avail k info dataSize s :
  M._cacheLimit s <> 0 -> M.lru_inv s ->
  M.lru_inv (M.add avail k info dataSize s).2 /\
  M._cacheLimit (M.add avail k info dataSize s).2 = M._cacheLimit s.
Proof.
  intros Hlim Hinv.
  destruct (M.add avail k info dataSize s) as [[] s'] eqn:Hadd; simpl.
  - apply add_stored in Hadd
      as (_ & _ & _ & _ & _ & Hk1 & Hc & Hl & _ & Hlim' & _).
    apply Z.eqb_neq in Hlim. rewrite Hlim in Hk1, Hc, Hl.
    split; [|done].
    pose proof (lru_inv_push_back _ k (M.stored_size info dataSize)
      (set_format (format info)
         (set_data (Some (memcpy (default [] (data info))
                            (M.stored_size info dataSize))) info))
      (M._totalSize s')
      (make_room_lru (M.stored_size info dataSize) s Hinv) Hk1) as Hpb.
    eapply lru_inv_ext; [| |exact Hpb]; done.
  - apply add_rejected in Hadd as [->|[_ ->]]; [done|].
    split; [by apply make_room_lru|].
    by destruct (make_room_shape (M.stored_size info dataSize) s)
      as (_ & ? & _).
Qed.

Lemma not_empty k e s : M._cache s !! k = Some e -> M.empty s = false.
Proof.
  intros Hk. unfold M.empty. apply bool_decide_eq_false.
  intros Hsz. apply map_size_empty_iff in Hsz. by rewrite Hsz in Hk.
Qed.

(** [get] and [del] on a checksum that is 0 or not cached. *)
Lemma get_miss k info s :
  k = 0 \/ M._cache s !! k = None -> M.get k info s = Some (false, info, s).
Proof.
  unfold M.get. intros [->|Hk]; [done|].
  destruct (_ || _); [done|]. by rewrite Hk.
Qed.

Lemma del_miss k s :
  k = 0 \/ M._cache s !! k = None -> M.del k s = Some (false, s).
Proof.
  unfold M.del. intros [->|Hk]; [done|].
  destruct (_ || _); [done|]. by rewrite Hk.
Qed.

(** What [get] does on a hit once the entry's node has been moved. *)
Lemma get_hit k info s e s1 :
  k <> 0 -> M._cache s !! k = Some e ->
  (if M._cacheLimit s =? 0 then Some s else M.touch k e s) = Some s1 ->
  M.get k info s =
  Some (if is_gz (format (M.txc_info e)) then
          match uncompress (M._gzdestLen s1)
                  (memcpy (default [] (data (M.txc_info e))) (M.txc_size e))
          with
          | None => (false, M.txc_info e, s1)
          | Some out =>
              (true,
               set_format (clear_gz (format (M.txc_info e)))
                 (set_data (overlay out <$> M._gzdest0 s1) (M.txc_info e)),
               M.set_gzdest0 (overlay out <$> M._gzdest0 s1) s1)
          end
        else (true, M.txc_info e, s1)).
Proof.
  intros Hk0 Hk Ht. unfold M.get.
  rewrite bool_decide_eq_false_2 by done.
  rewrite (not_empty k e) by done. simpl. rewrite Hk, Ht. simpl.
  destruct (is_gz _); [|done]. by destruct (uncompress _ _).
Qed.

(** Moving a cached entry's node to the back. *)
Lemma touch_spec k e s :
  M.lru_inv s -> M._cache s !! k = Some e ->
  exists it l1 l2,
    M._cachelist s = l1 ++ (it, k) :: l2 /\
    (k ∉ values (l1 ++ l2)) /\
    let s1 :=
      M.set_store
        (<[k := M.mkTXCACHE (M.txc_size e) (M.txc_info e)
                            (Some (fresh (l1 ++ l2)))]> (M._cache s))
        ((l1 ++ l2) ++ [(fresh (l1 ++ l2), k)]) (M._totalSize s) s in
    M.touch k e s = Some s1 /\ M.lru_inv s1.
Proof.
  intros Hinv Hk.
  destruct (lru_inv_erase s k e Hinv Hk)
    as (it & l1 & l2 & Hit & Hl & Her & Hnk & Hinv').
  exists it, l1, l2. split; [done|]. split; [done|]. simpl. split.
  - unfold M.touch. rewrite Hit. simpl. rewrite Her. done.
  - specialize (Hinv' (M._totalSize s)).
    eapply lru_inv_ext;
      [| |apply (lru_inv_push_back _ k (M.txc_size e) (M.txc_info e)
                   (M._totalSize s) Hinv')].
    + simpl. by rewrite insert_delete_eq.
    + done.
    + simpl. apply lookup_delete_eq.
Qed.

Lemma get_lru_inv k info s :
  M._cacheLimit s <> 0 -> M.lru_inv s ->
  exists r, M.get k info s = Some r /\ M.lru_inv r.2 /\
            M._cacheLimit r.2 = M._cacheLimit s.
Proof.
  intros Hlim Hinv.
  destruct (decide (k = 0)) as [Hk0|Hk0].
  { eexists. split; [apply get_miss; by left|done]. }
  destruct (M._cache s !! k) as [e|] eqn:Hk.
  2: { eexists. split; [apply get_miss; by right|done]. }
  destruct (touch_spec k e s Hinv Hk) as (it & l1 & l2 & _ & _ & Ht & Hinv1).
  eexists. split.
  { apply (get_hit k info s e); [done|done|].
    apply Z.eqb_neq in Hlim. rewrite Hlim. exact Ht. }
  destruct (is_gz _); [|done].
  destruct (uncompress _ _); [|done].
  split; [|done]. eapply lru_inv_ext; [| |exact Hinv1]; done.
Qed.

Lemma del_lru_inv k s :
  M.lru_inv s ->
  exists r, M.del k s = Some r /\ M.lru_inv r.2 /\
            M._cacheLimit r.2 = M._cacheLimit s.
Proof.
  intros Hinv.
  destruct (decide (k = 0)) as [Hk0|Hk0].
  { eexists. split; [apply del_miss; by left|done]. }
  destruct (M._cache s !! k) as [e|] eqn:Hk.
  2: { eexists. split; [apply del_miss; by right|done]. }
  destruct (lru_inv_erase s k e Hinv Hk)
    as (it & l1 & l2 & Hit & Hl & Her & Hnk & Hinv').
  unfold M.del. rewrite bool_decide_eq_false_2 by done.
  rewrite (not_empty k e) by done. simpl. rewrite Hk.
  rewrite bool_decide_eq_false_2.
  2: { rewrite Hl. by destruct l1. }
  rewrite Hit. simpl. rewrite Her. simpl.
  eexists. split; [done|]. split; [apply Hinv'|done].
Qed.

Lemma load_record_state w i fp checksum dataSize s :
  (M.load_record w i fp checksum dataSize s).2 = s \/
  exists avail k info n,
    (M.load_record w i fp checksum dataSize s).2 = (M.add avail k info n s).2.
Proof.
  unfold M.load_record.
  destruct (M.read_header _ _ _ _) as [[[checksum1 tmpInfo] dataSize1] fp1].
  destruct (malloc _ _ _); [|by left].
  destruct (Gz.gzread _ _) as [got fp2]. right.
  by eexists _, _, _, _.
Qed.

Lemma load_loop_lru_inv fuel w i fp checksum dataSize s :
  M._cacheLimit s <> 0 -> M.lru_inv s ->
  M.lru_inv (M.load_loop fuel w i fp checksum dataSize s).2 /\
  M._cacheLimit (M.load_loop fuel w i fp checksum dataSize s).2 =
  M._cacheLimit s.
Proof.
  revert i fp checksum dataSize s.
  induction fuel as [|fuel IH]; intros i fp checksum dataSize s Hlim Hinv.
  { split; [exact Hinv|reflexivity]. }
  cbn [M.load_loop].
  pose proof (load_record_state w i fp checksum dataSize s) as Hst.
  destruct (M.load_record w i fp checksum dataSize s)
    as [[[fp' checksum'] dataSize'] s'].
  cbn [snd] in Hst.
  assert (Hs' : M.lru_inv s' /\ M._cacheLimit s' = M._cacheLimit s).
  { destruct Hst as [->|(avail & k & info & n & ->)].
    - split; [exact Hinv|reflexivity].
    - apply add_lru_inv; assumption. }
  destruct Hs' as [Hinv' Hlim'].
  destruct (Gz.gzeof fp').
  { split; [exact Hinv'|exact Hlim']. }
  destruct (IH (S i) fp' checksum' dataSize' s') as [Hinv2 Hlim2];
    [congruence|exact Hinv'|].
  split; [exact Hinv2|congruence].
Qed.

Lemma load_lru_inv w fs path filename config force fuel s :
  M._cacheLimit s <> 0 -> M.lru_inv s ->
  M.lru_inv (M.load w fs path filename config force fuel s).2 /\
  M._cacheLimit (M.load w fs path filename config force fuel s).2 =
  M._cacheLimit s.
Proof.
  intros Hlim Hinv. unfold M.load.
  destruct (Gz.gzopen _); [|done].
  destruct (Gz.read_int _ _) as [tmpconfig gzfp].
  destruct (_ || _); [|done].
  pose proof (load_loop_lru_inv fuel w 0%nat gzfp (M.junk_checksum w)
                (M.junk_dataSize w) s Hlim Hinv) as Hloop.
  by destruct (M.load_loop _ _ _ _ _ _ _).
Qed.

End LruInv.

(** ** Claims about the memory backend *)

Section MemoryClaims.
Context `{Externals}.
Import Mach StdList.

Lemma accounted_new options B :
  0 < B < 2 ^ 64 -> M.accounted (M.new options B).
Proof.
  intros HB. unfold M.accounted. simpl.
  rewrite live_bytes_empty, (to_uint64_small B) by lia.
  unfold PTRDIFF_MAX. split_and!; [done| |lia|lia|lia].
  intros k e. by rewrite lookup_empty.
Qed.

Lemma add_all_bound calls s largest :
  M._cacheLimit s <> 0 -> M.lru_inv s -> M.accounted s ->
  M._totalSize s <= Z.max largest (M._cacheLimit s) ->
  M._totalSize (M.add_all calls s largest).1 <=
  Z.max (M.add_all calls s largest).2 (M._cacheLimit s).
Proof.
  revert s largest.
  induction calls as [|c calls IH]; intros s largest Hlim Hinv Hacc Hle;
    cbn [M.add_all]; [done|].
  pose proof (add_spec (M.ac_avail c) (M.ac_checksum c) (M.ac_info c)
                (M.ac_dataSize c) s Hlim Hinv Hacc) as Hspec.
  destruct (M.add _ _ _ _ s) as [added s'].
  cbn [fst snd] in Hspec.
  destruct Hspec as (Hinv' & Hacc' & Hlim' & Hno & Hyes).
  rewrite <- Hlim'. apply IH; [congruence|done|done|].
  rewrite Hlim'. destruct added.
  - destruct Hyes as [_ [Hb|Hb]]; [done|lia|lia].
  - specialize (Hno eq_refl). lia.
Qed.

(** C2. With a nonzero byte budget [B], after every sequence of [add] calls
    on a freshly constructed memory cache, [totalSize()] is at most the
    larger of [B] and the largest stored size of a call that returned
    true. *)
Theorem add_all_total_within_budget (calls : list M.add_call) (options B : Z) :
  0 < B < 2 ^ 64 ->
  M.totalSize (M.add_all calls (M.new options B) 0).1 <=
  Z.max (M.add_all calls (M.new options B) 0).2 B.
Proof.
  intros HB.
  assert (HlimB : M._cacheLimit (M.new options B) = B).
  { simpl. apply to_uint64_small. lia. }
  pose proof (add_all_bound calls (M.new options B) 0) as Hb.
  rewrite HlimB in Hb. apply Hb.
  - lia.
  - apply lru_inv_new.
  - by apply accounted_new.
  - simpl. lia.
Qed.

(** C7. With a nonzero byte budget, [add] (its eviction pass included),
    [get], [del], [clear] and [load] are defined on a cache whose list and
    map are in step, and leave them in step: each checksum of the map at
    exactly one position of the list, each element of the list a key of the
    map. *)
Theorem lru_bijection_preserved (c : M.call) (s : M.t) :
  M._cacheLimit s <> 0 -> M.lru_inv s ->
  exists s', M.run c s = Some s' /\ M.lru_inv s' /\
             M._cacheLimit s' = M._cacheLimit s.
Proof.
  intros Hlim Hinv. destruct c as [avail k info n|k info|k| |w fs p f cfg force fuel];
    cbn [M.run].
  - eexists. split; [done|]. by apply add_lru_inv.
  - destruct (get_lru_inv k info s Hlim Hinv) as (r & -> & Hr).
    eexists. split; [done|]. exact Hr.
  - destruct (del_lru_inv k s Hinv) as (r & -> & Hr).
    eexists. split; [done|]. exact Hr.
  - eexists. split; [done|]. split; [apply lru_inv_clear|done].
  - eexists. split; [done|]. by apply load_lru_inv.
Qed.

(** One call keeps the list and the map in step. *)
Lemma run_lru_inv (c : M.call) (s : M.t) :
  M._cacheLimit s <> 0 -> M.lru_inv s ->
  exists s', M.run c s = Some s' /\ M.lru_inv s' /\
             M._cacheLimit s' = M._cacheLimit s.
Proof.
  intros Hlim Hinv.
  destruct c as [avail k info n|k info|k| |w fs p f cfg force fuel];
    cbn [M.run].
  - eexists. split; [done|]. by apply add_lru_inv.
  - destruct (get_lru_inv k info s Hlim Hinv) as (r & -> & Hr).
    eexists. split; [done|]. exact Hr.
  - destruct (del_lru_inv k s Hinv) as (r & -> & Hr).
    eexists. split; [done|]. exact Hr.
  - eexists. split; [done|]. split; [apply lru_inv_clear|done].
  - eexists. split; [done|]. by apply load_lru_inv.
Qed.

(** From construction on: with a nonzero budget every sequence of calls is
    defined, no call erases through a stale iterator, and the list and the
    map are in step afterwards. *)
Lemma lru_bijection_always (cs : list M.call) (options budget : Z) :
  M._cacheLimit (M.new options budget) <> 0 ->
  exists s, M.run_all cs (M.new options budget) = Some s /\ M.lru_inv s.
Proof.
  intros Hlim.
  pose proof (lru_inv_new options budget) as Hinv.
  revert Hlim Hinv. generalize (M.new options budget).
  induction cs as [|c cs IH]; intros s Hlim Hinv; cbn [M.run_all].
  - by exists s.
  - destruct (run_lru_inv c s Hlim Hinv) as (s' & -> & Hinv' & Hlim').
    cbn [mbind option_bind]. apply IH; [congruence|done].
Qed.

(** C4. [add] returns false and leaves the cache as it was when the
    checksum is 0, the payload pointer is null, the checksum is already
    cached, or the stored size is 0 and [sizeofTx] cannot supply it. *)
Theorem add_rejects_unchanged avail (k : Z) (info : GHQTexInfo) (dataSize : Z)
    (s : M.t) :
  k = 0 \/ data info = None \/ is_Some (M._cache s !! k) \/
  (dataSize = 0 /\ sizeofTx (width info) (height info) (format info) = 0) ->
  M.add avail k info dataSize s = (false, s).
Proof.
  unfold M.add. intros [->|[Hnull|[Hdup|[-> Hsz]]]].
  - done.
  - rewrite Hnull. simpl. by rewrite orb_true_r.
  - rewrite (bool_decide_eq_true_2 _ Hdup). by rewrite !orb_true_r.
  - destruct (_ || _ || _); [done|].
    unfold M.stored_size. rewrite Hsz. done.
Qed.

End MemoryClaims.

(** ** The order of the list *)

Section Order.
Context `{Externals}.
Import Mach StdList.

Lemma isCached_order k s :
  M.lru_inv s -> (M.isCached k s = true <-> k ∈ values (M._cachelist s)).
Proof.
  intros [[_ Hkeys] _]. unfold M.isCached.
  rewrite bool_decide_eq_true. apply Hkeys.
Qed.

(** A successful [add] drops a prefix of the order and appends its
    checksum. *)
Lemma add_order avail k info dataSize s s' :
  M._cacheLimit s <> 0 ->
  M.add avail k info dataSize s = (true, s') ->
  exists d r, values (M._cachelist s) = d ++ r /\
              values (M._cachelist s') = r ++ [k].
Proof.
  intros Hlim Hadd.
  apply add_stored in Hadd as (_ & _ & _ & _ & _ & _ & _ & Hl & _).
  apply Z.eqb_neq in Hlim. rewrite Hlim in Hl.
  destruct (make_room_shape (M.stored_size info dataSize) s)
    as ((d & Hd & _) & _).
  exists (values d), (values (M._cachelist (M.make_room (M.stored_size info dataSize) s))).
  split.
  - by rewrite Hd, values_app at 1.
  - by rewrite Hl, values_app.
Qed.

(** A hit of [get] moves the checksum to the back of the order and changes
    nothing else but the iterator the entry remembers. *)
Lemma get_order k info s e r :
  M._cacheLimit s <> 0 -> M.lru_inv s -> k <> 0 ->
  M._cache s !! k = Some e ->
  M.get k info s = Some r ->
  exists l1 l2 e',
    values (M._cachelist s) = l1 ++ k :: l2 /\
    values (M._cachelist r.2) = l1 ++ l2 ++ [k] /\
    M._cache r.2 = <[k := e']> (M._cache s) /\
    M.txc_info e' = M.txc_info e /\ M.txc_size e' = M.txc_size e /\
    M._totalSize r.2 = M._totalSize s /\
    M._cacheLimit r.2 = M._cacheLimit s /\
    M.lru_inv r.2.
Proof.
  intros Hlim Hinv Hk0 Hk Hget.
  destruct (touch_spec k e s Hinv Hk) as (it & l1 & l2 & Hl & _ & Ht & Hinv1).
  apply Z.eqb_neq in Hlim.
  set (s1 := M.set_store _ _ _ s) in Ht, Hinv1.
  assert (Ht' : (if M._cacheLimit s =? 0 then Some s else M.touch k e s) =
                Some s1) by (by rewrite Hlim).
  rewrite (get_hit k info s e _ Hk0 Hk Ht') in Hget.
  exists (values l1), (values l2),
    (M.mkTXCACHE (M.txc_size e) (M.txc_info e) (Some (fresh (l1 ++ l2)))).
  assert (Hvs : values (M._cachelist s) = values l1 ++ k :: values l2).
  { by rewrite Hl, values_app. }
  assert (Hvs' : values ((l1 ++ l2) ++ [(fresh (l1 ++ l2), k)]) =
                 values l1 ++ values l2 ++ [k]).
  { by rewrite !values_app, <- app_assoc. }
  injection Hget as <-.
  destruct (is_gz _); [destruct (uncompress _ _)|]; simpl;
    (split_and!; [done|done|done|done|done|done|done|]);
    (eapply lru_inv_ext; [| |exact Hinv1]; done).
Qed.

End Order.

(** ** Claims about [get] *)

Section GetClaims.
Context `{Externals}.
Import Mach StdList.

Lemma erase_fresh it v (l : list node) :
  it ∉ iterators l -> erase it (l ++ [(it, v)]) = Some l.
Proof.
  unfold iterators. induction l as [|n l IH]; simpl; intros Hni.
  - by rewrite decide_True.
  - apply not_elem_of_cons in Hni as [Hne Hni].
    rewrite decide_False by done. by rewrite IH.
Qed.

(** C10. With a nonzero byte budget, a [get] of a cached entry whose format
    carries the compressed flag and whose decompression fails returns
    false; the entry's record, its stored size and [totalSize()] are as
    before, and the checksum has moved to the most-recently-used end of the
    list, so the order changes unless it was there already. *)
Theorem get_failed_decompress_promotes (k : Z) (info : GHQTexInfo) (s : M.t)
    (e : M.TXCACHE) :
  M._cacheLimit s <> 0 -> M.lru_inv s -> k <> 0 ->
  M._cache s !! k = Some e ->
  is_gz (format (M.txc_info e)) = true ->
  uncompress (M._gzdestLen s)
    (memcpy (default [] (data (M.txc_info e))) (M.txc_size e)) = None ->
  exists s' e',
    M.get k info s = Some (false, M.txc_info e, s') /\
    M._cache s' = <[k := e']> (M._cache s) /\
    M.txc_info e' = M.txc_info e /\ M.txc_size e' = M.txc_size e /\
    M._totalSize s' = M._totalSize s /\
    (exists l1 l2, values (M._cachelist s) = l1 ++ k :: l2 /\
                   values (M._cachelist s') = l1 ++ l2 ++ [k]) /\
    last (values (M._cachelist s')) = Some k /\
    (last (values (M._cachelist s)) <> Some k ->
     values (M._cachelist s') <> values (M._cachelist s)).
Proof.
  intros Hlim Hinv Hk0 Hk Hgz Hunc.
  destruct (touch_spec k e s Hinv Hk) as (it & l1 & l2 & _ & _ & Ht & _).
  set (s1 := M.set_store _ _ _ s) in Ht.
  assert (Ht' : (if M._cacheLimit s =? 0 then Some s else M.touch k e s) =
                Some s1).
  { apply Z.eqb_neq in Hlim. by rewrite Hlim. }
  pose proof (get_hit k info s e s1 Hk0 Hk Ht') as Hget.
  rewrite Hgz in Hget.
  change (M._gzdestLen s1) with (M._gzdestLen s) in Hget.
  rewrite Hunc in Hget.
  destruct (get_order k info s e _ Hlim Hinv Hk0 Hk Hget)
    as (v1 & v2 & e' & Hv & Hv' & Hc & Hinfo & Hsz & Htot & _ & _).
  cbn [snd] in Hv', Hc, Htot.
  assert (Hlast : last (values (M._cachelist s1)) = Some k).
  { rewrite Hv', app_assoc. apply last_snoc. }
  exists s1, e'. split_and!; [done|done|done|done|done| |done|].
  - by exists v1, v2.
  - intros Hne Heq. apply Hne. by rewrite <- Heq.
Qed.

(** The [get] that follows a successful [add] of a record whose format does
    not carry the compressed flag. *)
Lemma get_after_add avail (k : Z) (info : GHQTexInfo) (dataSize : Z)
    (s s1 : M.t) (out0 : GHQTexInfo) :
  M.add avail k info dataSize s = (true, s1) ->
  is_gz (format info) = false ->
  exists payload out s2,
    k <> 0 /\ data info = Some payload /\
    M.stored_size info dataSize <> 0 /\
    M.get k out0 s1 = Some (true, out, s2) /\
    same_metadata out info /\
    data out = Some (memcpy payload (M.stored_size info dataSize)) /\
    (Z.of_nat (length payload) = M.stored_size info dataSize ->
     data out = Some payload).
Proof.
  intros Hadd Hgz.
  apply add_stored in Hadd
    as (Hk0 & [payload Hdata] & _ & Hn0 & _ & _ & Hc & Hl & _ & Hlim & _).
  set (n := M.stored_size info dataSize) in *.
  set (s' := if M._cacheLimit s =? 0 then s else M.make_room n s) in *.
  set (e := M.mkTXCACHE n _ _) in Hc.
  assert (Hk : M._cache s1 !! k = Some e).
  { rewrite Hc. apply lookup_insert_eq. }
  assert (Hmoved : exists s2,
    (if M._cacheLimit s1 =? 0 then Some s1 else M.touch k e s1) = Some s2).
  { rewrite Hlim. destruct (M._cacheLimit s =? 0); [by eexists|].
    unfold M.touch. subst e. simpl. rewrite Hl.
    rewrite erase_fresh by apply fresh_not_in. simpl. by eexists. }
  destruct Hmoved as [s2 Hmoved].
  pose proof (get_hit k out0 s1 e s2 Hk0 Hk Hmoved) as Hget.
  assert (Hfmt : format (M.txc_info e) = format info) by done.
  rewrite Hfmt, Hgz in Hget.
  exists payload, (M.txc_info e), s2.
  assert (Hout : data (M.txc_info e) = Some (memcpy payload n)).
  { subst e. simpl. by rewrite Hdata. }
  split_and!; [done|done|done|done|by repeat split|done|].
  intros Hlen. rewrite Hout. f_equal. unfold memcpy, to_size_t.
  rewrite to_uint64_small.
  - rewrite <- Hlen, Nat2Z.id. apply firstn_all.
  - pose proof (stored_size_range info dataSize) as Hr. fold n in Hr.
    unfold INT_MAX in Hr. lia.
Qed.

End GetClaims.

(** ** Eviction order *)

Section EvictionOrder.
Context `{Externals}.
Import Mach StdList.

Lemma isCached_in k s :
  M.lru_inv s -> k ∈ values (M._cachelist s) -> M.isCached k s = true.
Proof. intros Hinv Hin. by apply isCached_order. Qed.

Lemma isCached_not_in k s :
  M.lru_inv s -> k ∉ values (M._cachelist s) -> M.isCached k s = false.
Proof.
  intros Hinv Hni. apply not_true_is_false. intros Hc. apply Hni.
  by apply isCached_order.
Qed.

(** What one successful [add] with a budget tells about the order before
    and after. *)
Lemma add_step avail k info dataSize s s' :
  M._cacheLimit s <> 0 -> M.lru_inv s ->
  M.add avail k info dataSize s = (true, s') ->
  M._cacheLimit s' <> 0 /\ M.lru_inv s' /\
  (k ∉ values (M._cachelist s)) /\
  exists d r, values (M._cachelist s) = d ++ r /\
              values (M._cachelist s') = r ++ [k].
Proof.
  intros Hlim Hinv Hadd.
  pose proof (add_lru_inv avail k info dataSize s Hlim Hinv) as [Hinv' Hlim'].
  rewrite Hadd in Hinv', Hlim'. cbn [snd] in Hinv', Hlim'.
  split_and!; [congruence|done| |by eapply add_order].
  apply add_stored in Hadd as (_ & _ & Hfresh & _).
  destruct Hinv as [[_ Hkeys] _]. rewrite <- Hkeys, Hfresh. by intros [? ?].
Qed.

(** What a [get] of a cached checksum tells about the order. *)
Lemma get_step k info s r :
  M._cacheLimit s <> 0 -> M.lru_inv s -> k <> 0 ->
  k ∈ values (M._cachelist s) ->
  M.get k info s = Some r ->
  M._cacheLimit r.2 <> 0 /\ M.lru_inv r.2 /\
  exists l1 l2, values (M._cachelist s) = l1 ++ k :: l2 /\
                values (M._cachelist r.2) = l1 ++ l2 ++ [k].
Proof.
  intros Hlim Hinv Hk0 Hin Hget.
  assert (is_Some (M._cache s !! k)) as [e Hk].
  { destruct Hinv as [[_ Hkeys] _]. by apply Hkeys. }
  destruct (get_order k info s e r Hlim Hinv Hk0 Hk Hget)
    as (l1 & l2 & e' & Hv & Hv' & _ & _ & _ & _ & Hlim' & Hinv').
  split_and!; [congruence|done|]. by exists l1, l2.
Qed.

(** C3 (as amended). With a nonzero budget, starting from an empty cache:
    if A is added, fetched once with [get], then B is added, and a third
    [add] evicts exactly one of the two, it is A that is evicted and B that
    survives, B being the more recently used; when instead A and B are
    added and A is fetched after that, the single eviction removes B and A
    survives.  So [get] promotes its entry to most-recently-used and
    eviction removes entries least-recently-used first. *)
Theorem eviction_is_lru (options budget : Z) (a1 a2 a3 : bool) (A B C : Z)
    (iA iB iC out : GHQTexInfo) (dA dB dC : Z) :
  M._cacheLimit (M.new options budget) <> 0 ->
  (forall s1 r2 s3 s4,
     M.add a1 A iA dA (M.new options budget) = (true, s1) ->
     M.get A out s1 = Some r2 ->
     M.add a2 B iB dB r2.2 = (true, s3) ->
     M.isCached A s3 = true ->
     M.add a3 C iC dC s3 = (true, s4) ->
     M.isCached A s4 <> M.isCached B s4 ->
     M.isCached A s4 = false /\ M.isCached B s4 = true) /\
  (forall s1 s2 r3 s4,
     M.add a1 A iA dA (M.new options budget) = (true, s1) ->
     M.add a2 B iB dB s1 = (true, s2) ->
     M.isCached A s2 = true ->
     M.get A out s2 = Some r3 ->
     M.add a3 C iC dC r3.2 = (true, s4) ->
     M.isCached A s4 <> M.isCached B s4 ->
     M.isCached A s4 = true /\ M.isCached B s4 = false).
Proof.
  intros Hlim0.
  pose proof (lru_inv_new options budget) as Hinv0.
  assert (Hfirst : forall s1,
    M.add a1 A iA dA (M.new options budget) = (true, s1) ->
    A <> 0 /\ M._cacheLimit s1 <> 0 /\ M.lru_inv s1 /\
    values (M._cachelist s1) = [A]).
  { intros s1 H1.
    destruct (add_step _ _ _ _ _ _ Hlim0 Hinv0 H1)
      as (Hlim1 & Hinv1 & _ & d & r & Hv0 & Hv1).
    apply add_stored in H1 as (HA0 & _).
    simpl in Hv0. symmetry in Hv0. apply app_eq_nil in Hv0 as [-> ->].
    done. }
  split.
  - intros s1 r2 s3 s4 H1 H2 H3 HA3 H4 Hone.
    destruct (Hfirst s1 H1) as (HA0 & Hlim1 & Hinv1 & Hv1).
    destruct (get_step A out s1 r2 Hlim1 Hinv1 HA0) as
      (Hlim2 & Hinv2 & l1 & l2 & Hv1' & Hv2); [rewrite Hv1; by left|done|].
    rewrite Hv1 in Hv1'.
    destruct l1 as [|x l1]; [|destruct l1; done].
    injection Hv1' as <-. simpl in Hv2.
    destruct (add_step _ _ _ _ _ _ Hlim2 Hinv2 H3)
      as (Hlim3 & Hinv3 & HnB & d & r & Hv2' & Hv3).
    rewrite Hv2 in HnB, Hv2'.
    assert (HAB : A <> B).
    { intros ->. apply HnB. by left. }
    apply (isCached_order A s3 Hinv3) in HA3. rewrite Hv3 in HA3.
    apply elem_of_app in HA3 as [HAr|HAB'].
    2: { apply list_elem_of_singleton in HAB'. done. }
    destruct d as [|x d].
    2: { injection Hv2' as <- Hnil. symmetry in Hnil.
         apply app_eq_nil in Hnil as [-> ->]. by apply elem_of_nil in HAr. }
    simpl in Hv2'. subst r. simpl in Hv3.
    destruct (add_step _ _ _ _ _ _ Hlim3 Hinv3 H4)
      as (Hlim4 & Hinv4 & HnC & d & r & Hv3' & Hv4).
    rewrite Hv3 in HnC, Hv3'.
    assert (HAC : A <> C).
    { intros ->. apply HnC. by left. }
    assert (HBC : B <> C).
    { intros ->. apply HnC. right. by left. }
    destruct d as [|x [|y d]].
    + simpl in Hv3'. subst r. exfalso. apply Hone.
      rewrite !(isCached_in _ s4 Hinv4); [done|rewrite Hv4; simpl..].
      * right. by left.
      * by left.
    + injection Hv3' as <- <-. split.
      * apply (isCached_not_in _ _ Hinv4). rewrite Hv4. simpl.
        rewrite !not_elem_of_cons. split_and!; [done|done|].
        apply not_elem_of_nil.
      * apply (isCached_in _ _ Hinv4). rewrite Hv4. by left.
    + injection Hv3' as <- <- Hnil. symmetry in Hnil.
      apply app_eq_nil in Hnil as [-> ->]. exfalso. apply Hone.
      rewrite !(isCached_not_in _ s4 Hinv4); [done|rewrite Hv4; simpl..].
      * rewrite not_elem_of_cons. split; [done|apply not_elem_of_nil].
      * rewrite not_elem_of_cons. split; [done|apply not_elem_of_nil].
  - intros s1 s2 r3 s4 H1 H2 HA2 H3 H4 Hone.
    destruct (Hfirst s1 H1) as (HA0 & Hlim1 & Hinv1 & Hv1).
    destruct (add_step _ _ _ _ _ _ Hlim1 Hinv1 H2)
      as (Hlim2 & Hinv2 & HnB & d & r & Hv1' & Hv2).
    rewrite Hv1 in HnB, Hv1'.
    assert (HAB : A <> B).
    { intros ->. apply HnB. by left. }
    apply (isCached_order A s2 Hinv2) in HA2. rewrite Hv2 in HA2.
    apply elem_of_app in HA2 as [HAr|HAB'].
    2: { apply list_elem_of_singleton in HAB'. done. }
    destruct d as [|x d].
    2: { injection Hv1' as <- Hnil. symmetry in Hnil.
         apply app_eq_nil in Hnil as [-> ->]. by apply elem_of_nil in HAr. }
    simpl in Hv1'. subst r. simpl in Hv2.
    destruct (get_step A out s2 r3 Hlim2 Hinv2 HA0) as
      (Hlim3 & Hinv3 & l1 & l2 & Hv2' & Hv3); [rewrite Hv2; by left|done|].
    rewrite Hv2 in Hv2'.
    destruct l1 as [|x l1].
    2: { injection Hv2' as <- Hrest. destruct l1 as [|y l1].
         - injection Hrest as ->. done.
         - injection Hrest as <- Hrest. by destruct l1. }
    injection Hv2' as <-. simpl in Hv3.
    destruct (add_step _ _ _ _ _ _ Hlim3 Hinv3 H4)
      as (Hlim4 & Hinv4 & HnC & d & r & Hv3' & Hv4).
    rewrite Hv3 in HnC, Hv3'.
    assert (HBC : B <> C).
    { intros ->. apply HnC. by left. }
    assert (HAC : A <> C).
    { intros ->. apply HnC. right. by left. }
    destruct d as [|x [|y d]].
    + simpl in Hv3'. subst r. exfalso. apply Hone.
      rewrite !(isCached_in _ s4 Hinv4); [done|rewrite Hv4; simpl..].
      * by left.
      * right. by left.
    + injection Hv3' as <- <-. split.
      * apply (isCached_in _ _ Hinv4). rewrite Hv4. by left.
      * apply (isCached_not_in _ _ Hinv4). rewrite Hv4. simpl.
        rewrite !not_elem_of_cons. split_and!; [done|done|].
        apply not_elem_of_nil.
    + injection Hv3' as <- <- Hnil. symmetry in Hnil.
      apply app_eq_nil in Hnil as [-> ->]. exfalso. apply Hone.
      rewrite !(isCached_not_in _ s4 Hinv4); [done|rewrite Hv4; simpl..].
      * rewrite not_elem_of_cons. split; [done|apply not_elem_of_nil].
      * rewrite not_elem_of_cons. split; [done|apply not_elem_of_nil].
Qed.

End EvictionOrder.

(** ** Claims about files *)

Section FileClaims.
Context `{Externals}.
Import Mach.

(** C5 (as amended). [save] of the memory backend writes nothing and returns
    false, so no later [load] gets back what the cache held; and [load] into
    a freshly constructed cache from a file whose fingerprint differs from
    [config], with [force] false, leaves the cache empty and returns
    false. *)
Theorem save_writes_nothing_load_checks_config (w : M.World) (fs : filesystem)
    (path filename : string) (config : Z) (fuel : nat) (options cacheLimit : Z)
    (s : M.t) (contents : list byte) :
  M.save path filename config s fs = (false, fs) /\
  (fs !! (path, filename) = Some contents ->
   M.header_config w contents <> to_int config ->
   M.load w fs path filename config false fuel (M.new options cacheLimit) =
     (Some false, M.new options cacheLimit) /\
   M.empty (M.new options cacheLimit) = true).
Proof.
  split; [done|]. intros Hfile Hcfg. split; [|done].
  unfold M.load. rewrite Hfile. cbn [Gz.gzopen fmap option_fmap option_map].
  unfold M.header_config in Hcfg.
  destruct (Gz.read_int _ _) as [tmpconfig gzfp]. cbn [fst] in Hcfg.
  rewrite bool_decide_eq_false_2 by done. done.
Qed.

(** C8 (as amended). When the cache file cannot be opened, [load] of the
    memory backend leaves the cache as it was and returns whether the cache
    holds an entry (false exactly when it is empty); [save] of the memory
    backend returns false whatever the file system; in the file backend
    [load] returns false, [get] returns false whenever the cache file would
    have to be opened, and [save] returns true without touching a file; none
    of them changes the store. *)
Theorem io_failure_results (w : M.World) (fs : filesystem)
    (path filename : string) (config : Z) (force : bool) (fuel : nat)
    (s : M.t) (f : F.t) (k : Z) (info : GHQTexInfo) :
  (fs !! (path, filename) = None ->
   M.load w fs path filename config force fuel s =
     (Some (negb (M.empty s)), s)) /\
  M.save path filename config s fs = (false, fs) /\
  F.load fs path filename config force f = (false, f) /\
  (F._outfile_is_open f = true \/ IfStream.is_open (F._infile f) = false ->
   F.get k info f = (false, info, f)) /\
  F.save path filename config f fs = (true, f, fs).
Proof.
  split_and!; [|done|done| |done].
  - intros Hfile. unfold M.load. by rewrite Hfile.
  - intros Hopen. unfold F.get.
    destruct (_ || _); [done|].
    destruct (F._storage f !! k); [|done].
    assert (F._outfile_is_open f || negb (IfStream.is_open (F._infile f))
            = true) as ->.
    { destruct Hopen as [->| ->]; [done|]. apply orb_true_r. }
    done.
Qed.

(** C6 (as amended). [add] of the file backend returns true for every
    checksum and record, the zero checksum, a null payload and a repeated
    checksum included, so the two backends do not share one contract for
    [add]; [add], [save], [del] and [clear] leave the storage and the files
    as they were. *)
Theorem file_backend_writes_inert (k : Z) (info : GHQTexInfo) (dataSize : Z)
    (path filename : string) (config : Z) (fs : filesystem) (f : F.t) :
  F.add k info dataSize f = (true, f) /\
  F.save path filename config f fs = (true, f, fs) /\
  F.del k f = (false, f) /\
  F.clear f = f.
Proof. done. Qed.

Lemma file_run_storage c f :
  F._storage f = ∅ ->
  F._storage (F.run c f) = F._storage f /\
  F._totalSize (F.run c f) = F._totalSize f.
Proof.
  intros Hempty. destruct c; try done.
  cbn [F.run]. unfold F.get, F.empty. rewrite Hempty.
  by rewrite orb_true_r.
Qed.

Lemma file_reachable_empty f :
  F.reachable f -> F._storage f = ∅ /\ F._totalSize f = 0.
Proof.
  induction 1 as [options cachePath|c f _ [IH1 IH2]]; [done|].
  destruct (file_run_storage c f IH1) as [-> ->]. done.
Qed.

(** C9. [load] of the file backend returns false and inserts nothing, so in
    every state the backend can reach [empty()] is true, [size()] and
    [totalSize()] are 0, and [get] and [isCached] return false for every
    checksum. *)
Theorem file_backend_never_populated (f : F.t) :
  (forall fs path filename config force,
     F.load fs path filename config force f = (false, f)) /\
  (F.reachable f ->
   F.empty f = true /\ F.size f = 0 /\ F.totalSize f = 0 /\
   forall k info, F.get k info f = (false, info, f) /\
                  F.isCached k f = false).
Proof.
  split; [done|]. intros [Hst Htot]%file_reachable_empty.
  unfold F.empty, F.size, F.totalSize, F.get, F.isCached, F.empty.
  rewrite Hst, Htot. split_and!; [done|done|done|].
  intros k info. rewrite orb_true_r. split; [done|].
  apply bool_decide_eq_false. rewrite lookup_empty. by intros [? ?].
Qed.

End FileClaims.

(** ** What [add] accepts and what [get] returns *)

Section StoreAndFetch.
Context `{Externals}.
Import Mach StdList.

(** When [add] stores: the checksum and the payload pointer are non-zero,
    the checksum is new, the stored size is known, and the allocator grants
    the private copy once room has been made. *)
Lemma add_accepts_iff avail k info dataSize s :
  let n := M.stored_size info dataSize in
  let s1 := if M._cacheLimit s =? 0 then s else M.make_room n s in
  (M.add avail k info dataSize s).1 = true <->
  k <> 0 /\ is_Some (data info) /\ M._cache s !! k = None /\ n <> 0 /\
  malloc avail (M.live_bytes (M._cache s1)) n = true.
Proof.
  intros n s1. split.
  - destruct (M.add avail k info dataSize s) as [[] s'] eqn:Hadd; [|done].
    intros _. apply add_stored in Hadd as (? & ? & ? & ? & ? & _). done.
  - intros (Hk0 & [payload Hdata] & Hfresh & Hn0 & Hm). unfold M.add.
    rewrite bool_decide_eq_false_2 by done. rewrite Hdata.
    rewrite bool_decide_eq_false_2 by (rewrite Hfresh; by intros [? ?]).
    cbn [orb is_null]. fold n. apply Z.eqb_neq in Hn0. rewrite Hn0.
    fold s1. rewrite Hm. cbn [negb].
    destruct (M._cacheLimit s1 =? 0); done.
Qed.

(** In a cache whose total is exact, a granted request of the allocator is
    all [add] needs beyond a valid, new record of known size. *)
Lemma add_accepts k info dataSize s :
  M.lru_inv s \/ M._cacheLimit s = 0 -> M.accounted s ->
  k <> 0 -> is_Some (data info) -> M._cache s !! k = None ->
  0 < M.stored_size info dataSize ->
  M.live_bytes (M._cache s) + M.stored_size info dataSize <= PTRDIFF_MAX ->
  (M.add true k info dataSize s).1 = true.
Proof.
  intros Hinv Hacc Hk0 Hdata Hfresh Hpos Hcap.
  apply add_accepts_iff. split_and!; [done|done|done|lia|].
  pose proof (stored_size_range info dataSize) as Hrng.
  set (n := M.stored_size info dataSize) in *.
  assert (Hlive : 0 <= M.live_bytes
            (M._cache (if M._cacheLimit s =? 0 then s else M.make_room n s))
          <= M.live_bytes (M._cache s)).
  { destruct (Z.eqb_spec (M._cacheLimit s) 0) as [Hlim|Hlim].
    - split; [|lia]. apply live_bytes_nonneg. intros k' e Hk'.
      destruct Hacc as (_ & Hsz & _). apply Hsz in Hk'. lia.
    - destruct Hinv as [Hinv|]; [|done].
      destruct (make_room_spec n s Hinv Hacc Hrng)
        as (_ & (Htot' & Hsz' & _) & _ & _ & _ & _ & _ & Hle & _).
      destruct Hacc as (Htot & _). rewrite Htot', Htot in Hle.
      split; [|done]. apply live_bytes_nonneg. intros k' e Hk'.
      apply Hsz' in Hk'. lia. }
  unfold malloc, to_size_t. rewrite to_uint64_small.
  - apply Z.leb_le. lia.
  - unfold INT_MAX in Hrng. lia.
Qed.

(** The [get] that follows a successful [add] of a record whose format
    carries the compressed flag: false when [uncompress] fails; otherwise
    true, with the flag cleared in the returned format, the other fields as
    passed to [add], and the scratch buffer [_gzdest0] as payload. *)
Lemma add_then_get_compressed avail k info dataSize s s1 out0 :
  M.add avail k info dataSize s = (true, s1) ->
  is_gz (format info) = true ->
  exists payload b out s2,
    data info = Some payload /\
    M.get k out0 s1 = Some (b, out, s2) /\
    width out = width info /\ height out = height info /\
    texture_format out = texture_format info /\
    pixel_type out = pixel_type info /\
    is_hires_tex out = is_hires_tex info /\
    match uncompress (M._gzdestLen s)
            (memcpy (memcpy payload (M.stored_size info dataSize))
                    (M.stored_size info dataSize)) with
    | None => b = false
    | Some inflated =>
        b = true /\ format out = clear_gz (format info) /\
        data out = overlay inflated <$> M._gzdest0 s
    end.
Proof.
  intros Hadd Hgz.
  apply add_stored in Hadd
    as (Hk0 & [payload Hdata] & _ & Hn0 & _ & _ & Hc & Hl & _ & Hlim & _ &
        Hg0 & _ & Hgl).
  set (n := M.stored_size info dataSize) in *.
  set (s' := if M._cacheLimit s =? 0 then s else M.make_room n s) in *.
  set (e := M.mkTXCACHE n _ _) in Hc.
  assert (Hk : M._cache s1 !! k = Some e).
  { rewrite Hc. apply lookup_insert_eq. }
  assert (Hmoved : exists s2,
    (if M._cacheLimit s1 =? 0 then Some s1 else M.touch k e s1) = Some s2 /\
    M._gzdest0 s2 = M._gzdest0 s1 /\ M._gzdestLen s2 = M._gzdestLen s1).
  { rewrite Hlim. destruct (M._cacheLimit s =? 0); [by eexists|].
    unfold M.touch. subst e. simpl. rewrite Hl.
    rewrite erase_fresh by apply fresh_not_in. simpl. by eexists. }
  destruct Hmoved as (s2 & Hmoved & Hg0' & Hgl').
  pose proof (get_hit k out0 s1 e s2 Hk0 Hk Hmoved) as Hget.
  assert (Hfmt : format (M.txc_info e) = format info) by done.
  assert (Hsrc : default [] (data (M.txc_info e)) = memcpy payload n).
  { subst e. simpl. by rewrite Hdata. }
  rewrite Hfmt, Hgz, Hsrc, Hgl', Hgl, Hg0', Hg0 in Hget.
  change (M.txc_size e) with n in Hget.
  exists payload.
  destruct (uncompress (M._gzdestLen s) (memcpy (memcpy payload n) n))
    as [inflated|]; do 3 eexists; (split; [done|]); (split; [exact Hget|]);
    by split_and!.
Qed.

(** Nothing allocates the scratch buffers of the memory backend: they are
    null with capacity 0 after construction and after every call. *)
Lemma scratch_new options cacheLimit :
  M._gzdest0 (M.new options cacheLimit) = None /\
  M._gzdestLen (M.new options cacheLimit) = 0.
Proof. done. Qed.




(** Each cached checksum occurs once in the order, one that is not cached
    not at all. *)
Lemma lru_inv_exactly_once s k :
  M.lru_inv s ->
  length (filter (fun x => x = k) (values (M._cachelist s))) =
  if M.isCached k s then 1%nat else 0%nat.
Proof.
  intros Hinv. pose proof (isCached_order k s Hinv) as Hc.
  destruct Hinv as [[Hnd _] _].
  assert (Hcount : forall l : list Z, NoDup l ->
    length (filter (fun x => x = k) l) =
    if decide (k ∈ l) then 1%nat else 0%nat).
  { induction l as [|x l IH]; intros Hl; [done|].
    apply NoDup_cons in Hl as [Hx Hl]. rewrite filter_cons.
    specialize (IH Hl).
    destruct (decide (x = k)) as [->|Hne]; simpl; rewrite IH.
    - rewrite (decide_False (P := k ∈ l)) by done.
      by rewrite decide_True by (by left).
    - destruct (decide (k ∈ l)) as [Hin|Hni].
      + rewrite decide_True by (by right). done.
      + rewrite decide_False; [done|]. rewrite not_elem_of_cons. done. }
  rewrite (Hcount _ Hnd).
  destruct (M.isCached k s).
  - rewrite decide_True; [done|]. by apply Hc.
  - rewrite decide_False; [done|]. intros Hin. by apply Hc in Hin.
Qed.

(** C1 (as amended). [add] returns true exactly when the checksum is not 0,
    the payload pointer is not null, the checksum is not cached, the stored
    size (given, or computed by [sizeofTx]) is not 0 and the allocator
    grants the private copy.  Whenever [add] returns true for a record whose
    format does not carry the compressed flag, the [get] that follows
    returns true and fills the caller's record with the width, height,
    format, texel format, pixel type and hi-res flag passed to [add] and
    with the first [storedSize] bytes of the payload: the whole payload when
    it is [storedSize] bytes long. *)
Theorem add_then_get avail (k : Z) (info : GHQTexInfo) (dataSize : Z)
    (s : M.t) (out0 : GHQTexInfo) :
  let n := M.stored_size info dataSize in
  let room := if M._cacheLimit s =? 0 then s else M.make_room n s in
  ((M.add avail k info dataSize s).1 = true <->
   k <> 0 /\ is_Some (data info) /\ M._cache s !! k = None /\ n <> 0 /\
   malloc avail (M.live_bytes (M._cache room)) n = true) /\
  ((M.add avail k info dataSize s).1 = true ->
   is_gz (format info) = false ->
   exists payload out s2,
     data info = Some payload /\
     M.get k out0 (M.add avail k info dataSize s).2 = Some (true, out, s2) /\
     same_metadata out info /\
     data out = Some (memcpy payload n) /\
     (Z.of_nat (length payload) = n -> data out = Some payload)).
Proof.
  intros n room. split; [apply add_accepts_iff|].
  intros Hadd Hgz.
  destruct (M.add avail k info dataSize s) as [added s1] eqn:Heq.
  cbn [fst snd] in *. subst added.
  destruct (get_after_add avail k info dataSize s s1 out0 Heq Hgz)
    as (payload & out & s2 & _ & Hdata & _ & Hget & Hmeta & Hout & Hall).
  by exists payload, out, s2.
Qed.

End StoreAndFetch.

(** ** Worked runs *)

(** ** The total is exact *)

Section WellFormed.
Context `{Externals}.
Import Mach StdList.

Lemma live_bytes_replace k e e' (c : gmap Z M.TXCACHE) :
  c !! k = Some e -> M.txc_size e' = M.txc_size e ->
  M.live_bytes (<[k:=e']> c) = M.live_bytes c.
Proof.
  intros Hk Hsz. rewrite <- insert_delete_eq.
  rewrite live_bytes_insert by apply lookup_delete_eq.
  rewrite (live_bytes_delete k e) by done. lia.
Qed.

Lemma accounted_live_nonneg s : M.accounted s -> 0 <= M.live_bytes (M._cache s).
Proof.
  intros (_ & Hsz & _). apply live_bytes_nonneg.
  intros k e Hk. apply Hsz in Hk. lia.
Qed.

Lemma well_formed_new options budget : M.well_formed (M.new options budget).
Proof.
  split.
  - unfold M.accounted. simpl. rewrite live_bytes_empty.
    pose proof (to_uint64_range budget). unfold PTRDIFF_MAX.
    split_and!; [done| |lia|lia|lia].
    intros k e. by rewrite lookup_empty.
  - destruct (_ =? 0); [done|apply lru_inv_new].
Qed.

(** [add] without a budget: the entry goes in, nothing comes out. *)
Lemma add_accounted_unbounded avail k info dataSize s :
  M._cacheLimit s = 0 -> M.accounted s ->
  M.accounted (M.add avail k info dataSize s).2 /\
  M._cachelist (M.add avail k info dataSize s).2 = M._cachelist s /\
  M._cacheLimit (M.add avail k info dataSize s).2 = 0.
Proof.
  intros Hlim Hacc.
  destruct (M.add avail k info dataSize s) as [[] s'] eqn:Hadd; cbn [snd].
  2: { apply add_rejected in Hadd as [->|[Hne _]]; done. }
  apply add_stored in Hadd
    as (_ & _ & Hfresh & Hn0 & Hm & _ & Hc & Hl & Htot & Hlim' & _).
  rewrite Hlim in Hm, Hc, Hl, Htot. cbn [Z.eqb] in Hm, Hc, Hl, Htot.
  pose proof (accounted_live_nonneg s Hacc) as Hnn.
  pose proof (stored_size_range info dataSize) as Hrng.
  apply malloc_granted in Hm as (_ & Hpos & Hcap); [|done|done].
  destruct Hacc as (Hts & Hsz & Hlive & Hlimr).
  split_and!; [|done|congruence].
  unfold M.accounted. rewrite Hc, Htot, Hlim', Hts.
  rewrite live_bytes_insert by done. cbn [M.txc_size].
  rewrite to_uint64_small by (unfold PTRDIFF_MAX in *; lia).
  split_and!; [lia| |lia|lia|lia].
  intros k' e. rewrite lookup_insert.
  destruct (decide (k = k')) as [->|Hne]; [|by apply Hsz].
  intros [= <-]. cbn [M.txc_size]. lia.
Qed.

Lemma add_well_formed avail k info dataSize s :
  M.well_formed s ->
  M.well_formed (M.add avail k info dataSize s).2 /\
  M._cacheLimit (M.add avail k info dataSize s).2 = M._cacheLimit s.
Proof.
  intros [Hacc Hlist].
  destruct (Z.eqb_spec (M._cacheLimit s) 0) as [Hlim|Hlim].
  - destruct (add_accounted_unbounded avail k info dataSize s Hlim Hacc)
      as (Hacc' & Hl' & Hlim').
    split; [|congruence]. split; [done|]. rewrite Hlim'. cbn [Z.eqb].
    congruence.
  - destruct (add_spec avail k info dataSize s Hlim Hlist Hacc)
      as (Hinv' & Hacc' & Hlim' & _).
    split; [|done]. split; [done|]. rewrite Hlim'.
    apply Z.eqb_neq in Hlim. by rewrite Hlim.
Qed.

(** [get] changes no total and no record: it only moves its checksum to the
    back of the list, and may fill the scratch buffer. *)
Lemma get_frame k info s :
  M.well_formed s ->
  exists b out s',
    M.get k info s = Some (b, out, s') /\
    M.well_formed s' /\
    M._totalSize s' = M._totalSize s /\
    M._cacheLimit s' = M._cacheLimit s /\
    (forall k', (fun e => (M.txc_size e, M.txc_info e)) <$> (M._cache s' !! k')
              = (fun e => (M.txc_size e, M.txc_info e)) <$> (M._cache s !! k')) /\
    (b = true -> k <> 0 /\ is_Some (M._cache s !! k)) /\
    (k = 0 \/ M._cache s !! k = None -> b = false /\ out = info /\ s' = s).
Proof.
  intros Hwf.
  destruct (decide (k = 0)) as [Hk0|Hk0].
  { exists false, info, s. rewrite get_miss by (by left). done. }
  destruct (M._cache s !! k) as [e|] eqn:Hk.
  2: { exists false, info, s. rewrite get_miss by (by right).
       split_and!; try done; by rewrite Hk. }
  destruct Hwf as [Hacc Hlist].
  destruct (Z.eqb_spec (M._cacheLimit s) 0) as [Hlim|Hlim].
  - assert (Hmoved : (if M._cacheLimit s =? 0 then Some s
                      else M.touch k e s) = Some s) by (by rewrite Hlim).
    rewrite (get_hit k info s e s Hk0 Hk Hmoved).
    assert (Hwf : M.well_formed s).
    { split; [done|]. by rewrite Hlim. }
    destruct (is_gz _); [destruct (uncompress _ _)|];
      do 3 eexists; (split; [done|]);
      (split_and!; [|done|done|done|by eauto|by intros [?|?]]);
      try done.
  - destruct (M.get k info s) as [r|] eqn:Hget.
    2: { destruct (get_lru_inv k info s Hlim Hlist) as (r & Hr & _).
         congruence. }
    destruct (get_order k info s e r Hlim Hlist Hk0 Hk Hget)
      as (l1 & l2 & e' & _ & _ & Hc & Hinfo & Hsz & Htot & Hlim' & Hinv').
    destruct r as [[b out] s']. cbn [snd] in *.
    exists b, out, s'. split; [done|].
    destruct Hacc as (Hts & Hszs & Hlive & Hlimr).
    assert (Hlive' : M.live_bytes (M._cache s') = M.live_bytes (M._cache s)).
    { rewrite Hc. by apply (live_bytes_replace k e). }
    split_and!; [|done|done| |by eauto|by intros [?|?]].
    + split.
      * unfold M.accounted. rewrite Hlive', Htot, Hlim'.
        split_and!; [done| |done|lia|lia].
        intros k' e0. rewrite Hc, lookup_insert.
        destruct (decide (k = k')) as [->|Hne]; [|by apply Hszs].
        intros [= <-]. rewrite Hsz. by apply (Hszs k').
      * rewrite Hlim'. apply Z.eqb_neq in Hlim. by rewrite Hlim.
    + intros k'. rewrite Hc, lookup_insert.
      destruct (decide (k = k')) as [->|Hne]; [|done].
      rewrite Hk. simpl. by rewrite Hinfo, Hsz.
Qed.

Lemma filter_ne_id (k : Z) (l : list Z) :
  k ∉ l -> filter (fun x => x <> k) l = l.
Proof.
  induction l as [|x l IH]; [done|]. intros Hni.
  apply not_elem_of_cons in Hni as [Hne Hni].
  rewrite filter_cons, decide_True by done. by rewrite IH.
Qed.

(** [del] of a cached checksum. *)
Lemma del_hit k e s :
  M.well_formed s -> k <> 0 -> M._cache s !! k = Some e ->
  exists s',
    M.del k s = Some (true, s') /\
    M.well_formed s' /\
    M._cache s' = delete k (M._cache s) /\
    M._totalSize s' = M._totalSize s - M.txc_size e /\
    M._cacheLimit s' = M._cacheLimit s /\
    values (M._cachelist s') =
      filter (fun x => x <> k) (values (M._cachelist s)).
Proof.
  intros [Hacc Hlist] Hk0 Hk.
  pose proof (accounted_live_nonneg s Hacc) as Hnn.
  destruct Hacc as (Hts & Hszs & Hlive & Hlimr).
  pose proof (live_bytes_delete k e _ Hk) as Hd.
  assert (Hnn' : 0 <= M.live_bytes (delete k (M._cache s))).
  { apply live_bytes_nonneg. intros k' e' Hk'.
    apply lookup_delete_Some in Hk' as [_ Hk']. apply Hszs in Hk'. lia. }
  pose proof (Hszs k e Hk) as Hse.
  assert (Hwrap : to_uint64 (M._totalSize s - M.txc_size e) =
                  M._totalSize s - M.txc_size e).
  { apply to_uint64_small. unfold PTRDIFF_MAX in *. lia. }
  assert (Hlive' : M._totalSize s - M.txc_size e =
                   M.live_bytes (delete k (M._cache s))) by lia.
  assert (Hacc' : forall l,
    M.accounted (M.set_store (delete k (M._cache s)) l
                   (to_uint64 (M._totalSize s - M.txc_size e)) s)).
  { intros l. unfold M.accounted. simpl. rewrite Hwrap.
    split_and!; [done| |lia|lia|lia].
    intros k' e' Hk'. apply lookup_delete_Some in Hk' as [_ Hk'].
    by apply (Hszs k'). }
  unfold M.del. rewrite bool_decide_eq_false_2 by done.
  rewrite (not_empty k e) by done. cbn [orb]. rewrite Hk.
  destruct (Z.eqb_spec (M._cacheLimit s) 0) as [Hlim|Hlim].
  - rewrite Hlist. rewrite bool_decide_eq_true_2 by done. simpl.
    eexists. split; [done|]. split_and!; try done.
    split; [apply Hacc'|]. simpl. by rewrite Hlim.
  - destruct (lru_inv_erase s k e Hlist Hk)
      as (it & l1 & l2 & Hit & Hl & Her & Hnk & Hinv').
    rewrite bool_decide_eq_false_2 by (rewrite Hl; by destruct l1).
    rewrite Hit. simpl. rewrite Her. simpl.
    eexists. split; [done|]. split_and!; try done.
    + split; [apply Hacc'|]. simpl. apply Z.eqb_neq in Hlim. rewrite Hlim.
      apply Hinv'.
    + simpl. rewrite Hl, !values_app. unfold values at 3. simpl.
      rewrite values_app in Hnk. apply not_elem_of_app in Hnk as [Hn1 Hn2].
      rewrite filter_app, filter_cons, decide_False by (intros Hne; done).
      by rewrite !filter_ne_id.
Qed.

End WellFormed.

Section WellFormedRuns.
Context `{Externals}.
Import Mach StdList.

Lemma load_loop_well_formed fuel w i fp checksum dataSize s :
  M.well_formed s ->
  M.well_formed (M.load_loop fuel w i fp checksum dataSize s).2 /\
  M._cacheLimit (M.load_loop fuel w i fp checksum dataSize s).2 =
  M._cacheLimit s.
Proof.
  revert i fp checksum dataSize s.
  induction fuel as [|fuel IH]; intros i fp checksum dataSize s Hwf; [done|].
  cbn [M.load_loop].
  pose proof (load_record_state w i fp checksum dataSize s) as Hst.
  destruct (M.load_record w i fp checksum dataSize s)
    as [[[fp' checksum'] dataSize'] s'].
  cbn [snd] in Hst.
  assert (Hs' : M.well_formed s' /\ M._cacheLimit s' = M._cacheLimit s).
  { destruct Hst as [->|(avail & k & info & n & ->)]; [done|].
    by apply add_well_formed. }
  destruct Hs' as [Hwf' Hlim'].
  destruct (Gz.gzeof fp'); [done|].
  destruct (IH (S i) fp' checksum' dataSize' s' Hwf') as [Hwf2 Hlim2].
  split; [done|congruence].
Qed.

Lemma load_well_formed w fs path filename config force fuel s :
  M.well_formed s ->
  M.well_formed (M.load w fs path filename config force fuel s).2.
Proof.
  intros Hwf. unfold M.load.
  destruct (Gz.gzopen _); [|done].
  destruct (Gz.read_int _ _) as [tmpconfig gzfp].
  destruct (_ || _); [|done].
  pose proof (load_loop_well_formed fuel w 0%nat gzfp (M.junk_checksum w)
                (M.junk_dataSize w) s Hwf) as [Hloop _].
  by destruct (M.load_loop _ _ _ _ _ _ _).
Qed.

Lemma well_formed_clear s : M.well_formed s -> M.well_formed (M.clear s).
Proof.
  intros [(_ & _ & _ & Hlimr) _]. split.
  - unfold M.accounted. simpl. rewrite live_bytes_empty. unfold PTRDIFF_MAX.
    split_and!; [done| |lia|lia|lia]. intros k e. by rewrite lookup_empty.
  - simpl. destruct (_ =? 0); [done|].
    apply (lru_inv_ext (M.new 0 0)); [done..|apply lru_inv_new].
Qed.

(** Every call is defined on a well-formed cache and leaves one. *)
Lemma run_well_formed (c : M.call) (s : M.t) :
  M.well_formed s -> exists s', M.run c s = Some s' /\ M.well_formed s'.
Proof.
  intros Hwf.
  destruct c as [avail k info n|k info|k| |w fs p f cfg force fuel];
    cbn [M.run].
  - eexists. split; [done|]. by apply add_well_formed.
  - destruct (get_frame k info s Hwf) as (b & out & s' & -> & Hwf' & _).
    by exists s'.
  - destruct (decide (k = 0)) as [Hk0|Hk0].
    { rewrite del_miss by (by left). by exists s. }
    destruct (M._cache s !! k) as [e|] eqn:Hk.
    2: { rewrite del_miss by (by right). by exists s. }
    destruct (del_hit k e s Hwf Hk0 Hk) as (s' & -> & Hwf' & _).
    by exists s'.
  - eexists. split; [done|]. by apply well_formed_clear.
  - eexists. split; [done|]. by apply load_well_formed.
Qed.


(** With a budget, the map has as many entries as the list has nodes. *)
Lemma lru_inv_size s :
  M.lru_inv s -> M.size s = Z.of_nat (length (M._cachelist s)).
Proof.
  intros [[Hnd Hkeys] _]. unfold M.size. f_equal.
  rewrite <- size_dom.
  assert (Hdom : dom (M._cache s) = list_to_set (values (M._cachelist s))).
  { apply set_eq. intros k.
    rewrite elem_of_dom, elem_of_list_to_set. apply Hkeys. }
  rewrite Hdom, size_list_to_set by done.
  unfold values. by rewrite length_fmap.
Qed.

(** What no call touches: the options, the budget and the second scratch
    buffer. *)
Lemma add_fields avail k info dataSize s :
  M._options (M.add avail k info dataSize s).2 = M._options s /\
  M._cacheLimit (M.add avail k info dataSize s).2 = M._cacheLimit s /\
  M._gzdest1 (M.add avail k info dataSize s).2 = M._gzdest1 s.
Proof.
  destruct (M.add avail k info dataSize s) as [[] s'] eqn:Hadd; cbn [snd].
  - by apply add_stored in Hadd as (_ & _ & _ & _ & _ & _ & _ & _ & _ & ? & ?
                                    & _ & ? & _).
  - apply add_rejected in Hadd as [->|[Hlim ->]]; [done|].
    by destruct (make_room_shape (M.stored_size info dataSize) s)
      as (_ & ? & ? & _ & ? & _).
Qed.

Lemma load_loop_fields fuel w i fp checksum dataSize s :
  M._options (M.load_loop fuel w i fp checksum dataSize s).2 = M._options s /\
  M._cacheLimit (M.load_loop fuel w i fp checksum dataSize s).2 =
    M._cacheLimit s /\
  M._gzdest1 (M.load_loop fuel w i fp checksum dataSize s).2 = M._gzdest1 s.
Proof.
  revert i fp checksum dataSize s.
  induction fuel as [|fuel IH]; intros i fp checksum dataSize s; [done|].
  cbn [M.load_loop].
  pose proof (load_record_state w i fp checksum dataSize s) as Hst.
  destruct (M.load_record w i fp checksum dataSize s)
    as [[[fp' checksum'] dataSize'] s'].
  cbn [snd] in Hst.
  assert (Hs' : M._options s' = M._options s /\
                M._cacheLimit s' = M._cacheLimit s /\
                M._gzdest1 s' = M._gzdest1 s).
  { destruct Hst as [->|(avail & k & info & n & ->)]; [done|].
    apply add_fields. }
  destruct Hs' as (Ho & Hl & Hg).
  destruct (Gz.gzeof fp'); [done|].
  destruct (IH (S i) fp' checksum' dataSize' s') as (Ho' & Hl' & Hg').
  split_and!; congruence.
Qed.

Lemma run_fields (c : M.call) (s s' : M.t) :
  M.run c s = Some s' ->
  M._options s' = M._options s /\ M._cacheLimit s' = M._cacheLimit s /\
  M._gzdest1 s' = M._gzdest1 s.
Proof.
  destruct c as [avail k info n|k info|k| |w fs p f cfg force fuel];
    cbn [M.run].
  - intros [= <-]. apply add_fields.
  - unfold M.get. destruct (_ || _); [by intros [= <-]|].
    destruct (M._cache s !! k) as [e|]; [|by intros [= <-]].
    assert (Ht : forall s1,
      (if M._cacheLimit s =? 0 then Some s else M.touch k e s) = Some s1 ->
      M._options s1 = M._options s /\ M._cacheLimit s1 = M._cacheLimit s /\
      M._gzdest1 s1 = M._gzdest1 s).
    { intros s1. destruct (_ =? 0); [by intros [= <-]|].
      unfold M.touch. destruct (M.txc_it e); [|done]. simpl.
      destruct (erase _ _); [|done]. simpl. by intros [= <-]. }
    destruct (if M._cacheLimit s =? 0 then Some s else M.touch k e s)
      as [s1|]; [|done].
    specialize (Ht s1 eq_refl). simpl.
    destruct (is_gz _); [|by intros [= <-]].
    by destruct (uncompress _ _); intros [= <-].
  - unfold M.del. destruct (_ || _); [by intros [= <-]|].
    destruct (M._cache s !! k) as [e|]; [|by intros [= <-]].
    destruct (if bool_decide _ then _ else _); [|done].
    by intros [= <-].
  - by intros [= <-].
  - intros [= <-]. unfold M.load.
    destruct (Gz.gzopen _); [|done].
    destruct (Gz.read_int _ _) as [tmpconfig gzfp].
    destruct (_ || _); [|done].
    pose proof (load_loop_fields fuel w 0%nat gzfp (M.junk_checksum w)
                  (M.junk_dataSize w) s) as Hf.
    by destruct (M.load_loop _ _ _ _ _ _ _) as [returned s1].
Qed.

End WellFormedRuns.

(** ** What the calls of the memory backend guarantee *)

Section MemoryContracts.
Context `{Externals}.
Import Mach StdList.


(** X20. The invariant behind these contracts, which the constructor
    establishes: each call ([add], [get], [del], [clear], [load]) is defined
    on a cache that satisfies it and leaves one that does, with the budget
    and the options it had.  The invariant: [_totalSize] is the sum of the
    stored sizes, each a positive [int]; with a budget, the map and the
    list hold the same checksums, the list holds none twice, and the
    iterator of every entry names the node of its checksum; without one,
    the list is empty. *)
Theorem calls_keep_well_formed (c : M.call) (s : M.t) :
  M.well_formed s ->
  exists s',
    M.run c s = Some s' /\ M.well_formed s' /\
    M._cacheLimit s' = M._cacheLimit s /\ M._options s' = M._options s.
Proof.
  intros Hwf. destruct (run_well_formed c s Hwf) as (s' & Hrun & Hwf').
  destruct (run_fields c s s' Hrun) as (Ho & Hl & _).
  by exists s'.
Qed.

Lemma cache_empty_iff (s : M.t) :
  M.empty s = true <-> M._cache s = ∅.
Proof.
  unfold M.empty. rewrite bool_decide_eq_true. apply map_size_empty_iff.
Qed.

(** X21. On a cache as the calls leave it, [empty()] says the same as
    [totalSize() == 0] and as "[isCached] is false for every checksum";
    with a budget it also says that the list is empty. *)
Theorem empty_iff_total_zero (s : M.t) :
  M.well_formed s ->
  (M.empty s = true <-> M.totalSize s = 0) /\
  (M.empty s = true <-> forall k, M.isCached k s = false) /\
  (M._cacheLimit s <> 0 -> (M.empty s = true <-> M._cachelist s = [])).
Proof.
  intros [Hacc Hlist]. rewrite !cache_empty_iff. split_and!.
  - destruct Hacc as (Htot & Hsz & _). unfold M.totalSize. rewrite Htot.
    split; [intros ->; apply live_bytes_empty|].
    intros Hzero. apply map_empty. intros k.
    destruct (M._cache s !! k) as [e|] eqn:Hk; [exfalso|done].
    pose proof (live_bytes_delete k e _ Hk) as Hdel.
    assert (0 <= M.live_bytes (delete k (M._cache s))).
    { apply live_bytes_nonneg. intros k' e' Hk'.
      apply lookup_delete_Some in Hk' as [_ Hk']. apply Hsz in Hk'. lia. }
    apply Hsz in Hk. lia.
  - unfold M.isCached. split.
    + intros -> k. apply bool_decide_eq_false. rewrite lookup_empty.
      by intros [? ?].
    + intros Hno. apply map_empty. intros k. specialize (Hno k).
      apply bool_decide_eq_false in Hno. by apply eq_None_not_Some.
  - intros Hlim. apply Z.eqb_neq in Hlim. rewrite Hlim in Hlist.
    destruct Hlist as [[_ Hkeys] _]. split.
    + intros Hc. destruct (M._cachelist s) as [|[it k] l] eqn:Hl; [done|].
      exfalso. specialize (Hkeys k). rewrite Hc, lookup_empty in Hkeys.
      destruct Hkeys as [_ Hin]. destruct Hin as [? ?]; [|done].
      unfold values. cbn. apply elem_of_cons. by left.
    + intros Hl. apply map_empty. intros k. apply eq_None_not_Some.
      rewrite Hkeys, Hl. unfold values. cbn. apply not_elem_of_nil.
Qed.


(** X2. With a budget, after any sequence of calls on a freshly constructed
    cache the map holds as many entries as the list has nodes: the mismatch
    that the DEBUG block of [add] reports does not occur. *)
Theorem cache_and_list_sizes_agree (cs : list M.call) (options budget : Z) :
  M._cacheLimit (M.new options budget) <> 0 ->
  exists s,
    M.run_all cs (M.new options budget) = Some s /\
    M.size s = Z.of_nat (length (M._cachelist s)).
Proof.
  intros Hlim.
  destruct (lru_bijection_always cs options budget Hlim) as (s & Hrun & Hinv).
  exists s. split; [done|]. by apply lru_inv_size.
Qed.


(** X4. [del] of a checksum that is 0 or not cached returns false and changes
    nothing; [del] of a cached checksum returns true, after which the
    checksum is no longer cached, [totalSize()] is smaller by exactly the
    stored size of the entry, every other entry is as it was and the others
    keep their order in the list. *)
Theorem del_removes_exactly (k : Z) (s : M.t) :
  M.well_formed s ->
  (k = 0 \/ M._cache s !! k = None -> M.del k s = Some (false, s)) /\
  (forall e, k <> 0 -> M._cache s !! k = Some e ->
     exists s',
       M.del k s = Some (true, s') /\
       M.isCached k s' = false /\
       M.totalSize s' = M.totalSize s - M.txc_size e /\
       (forall k', k' <> k -> M._cache s' !! k' = M._cache s !! k') /\
       values (M._cachelist s') =
         filter (fun x => x <> k) (values (M._cachelist s)) /\
       M.well_formed s').
Proof.
  intros Hwf. split; [apply del_miss|].
  intros e Hk0 Hk.
  destruct (del_hit k e s Hwf Hk0 Hk)
    as (s' & Hdel & Hwf' & Hc & Htot & _ & Hl).
  exists s'. split_and!; [done| |done| |done|done].
  - unfold M.isCached. apply bool_decide_eq_false.
    rewrite Hc, lookup_delete_eq. by intros [? ?].
  - intros k' Hne. rewrite Hc. by apply lookup_delete_ne.
Qed.

(** X5. [get] is defined on every cache the calls leave, and whatever it
    returns it adds no entry, removes none, and changes no stored record,
    no stored size and not [totalSize()]; it returns true only for a cached,
    non-zero checksum, and a miss leaves the cache and the caller's record
    exactly as they were. *)
Theorem get_changes_no_entry (k : Z) (info : GHQTexInfo) (s : M.t) :
  M.well_formed s ->
  exists b out s',
    M.get k info s = Some (b, out, s') /\
    M.totalSize s' = M.totalSize s /\
    (forall k', M.isCached k' s' = M.isCached k' s) /\
    (forall k', (fun e => (M.txc_size e, M.txc_info e)) <$> (M._cache s' !! k')
              = (fun e => (M.txc_size e, M.txc_info e)) <$> (M._cache s !! k')) /\
    (b = true -> k <> 0 /\ M.isCached k s = true) /\
    (k = 0 \/ M.isCached k s = false -> b = false /\ out = info /\ s' = s) /\
    M.well_formed s'.
Proof.
  intros Hwf.
  destruct (get_frame k info s Hwf)
    as (b & out & s' & Hget & Hwf' & Htot & _ & Hsame & Hhit & Hmiss).
  exists b, out, s'. split_and!; [done|done| |done| | |done].
  - intros k'. unfold M.isCached. specialize (Hsame k').
    destruct (M._cache s' !! k'), (M._cache s !! k'); try done.
  - intros Hb. destruct (Hhit Hb) as [Hk0 Hk]. split; [done|].
    by apply bool_decide_eq_true.
  - intros [Hk0|Hk]; apply Hmiss; [by left|right].
    apply bool_decide_eq_false in Hk. by apply eq_None_not_Some.
Qed.

Lemma land_lnot_cancel (f g : Z) : Z.land (Z.land f (Z.lnot g)) g = 0.
Proof.
  apply Z.bits_inj'. intros n Hn.
  rewrite !Z.land_spec, Z.lnot_spec, Z.bits_0 by done.
  by destruct (Z.testbit f n), (Z.testbit g n).
Qed.

(** X6. A record that [get] returns with true never carries the compressed
    flag: the flag is cleared in the returned format when the stored entry
    had it. *)
Theorem get_clears_compressed_flag (k : Z) (info out : GHQTexInfo)
    (s s' : M.t) :
  M.get k info s = Some (true, out, s') ->
  is_gz (format out) = false.
Proof.
  unfold M.get. destruct (_ || _); [done|].
  destruct (M._cache s !! k) as [e|]; [|done].
  destruct (if M._cacheLimit s =? 0 then Some s else M.touch k e s)
    as [s1|]; [|done].
  simpl. destruct (is_gz (format (M.txc_info e))) eqn:Hgz.
  - destruct (uncompress _ _); [|done]. intros [= <- _]. simpl.
    unfold is_gz, clear_gz. by rewrite land_lnot_cancel.
  - by intros [= <- _].
Qed.

End MemoryContracts.

(** ** How much [add] evicts *)

Section Eviction.
Context `{Externals}.
Import Mach StdList.

Lemma bytes_of_app c ks1 ks2 :
  M.bytes_of c (ks1 ++ ks2) = M.bytes_of c ks1 + M.bytes_of c ks2.
Proof.
  unfold M.bytes_of. induction ks1 as [|k ks1 IH]; simpl; [lia|].
  rewrite IH. lia.
Qed.

Lemma bytes_of_nonneg c ks :
  (forall k e, c !! k = Some e -> 0 < M.txc_size e) -> 0 <= M.bytes_of c ks.
Proof.
  intros Hpos. unfold M.bytes_of.
  induction ks as [|k ks IH]; simpl; [lia|].
  destruct (c !! k) as [e|] eqn:Hk; simpl; [|lia].
  apply Hpos in Hk. lia.
Qed.

Lemma bytes_of_delete c k ks :
  k ∉ ks -> M.bytes_of (delete k c) ks = M.bytes_of c ks.
Proof.
  unfold M.bytes_of. induction ks as [|k' ks IH]; simpl; [done|].
  intros Hni. apply not_elem_of_cons in Hni as [Hne Hni].
  rewrite lookup_delete_ne by done. by rewrite IH.
Qed.

(** Distinct cached checksums hold no more bytes than the whole cache. *)
Lemma bytes_of_le_live c ks :
  NoDup ks -> (forall k, k ∈ ks -> is_Some (c !! k)) ->
  (forall k e, c !! k = Some e -> 0 < M.txc_size e) ->
  M.bytes_of c ks <= M.live_bytes c.
Proof.
  revert c. induction ks as [|k ks IH]; intros c Hnd Hin Hpos.
  - simpl. by apply live_bytes_nonneg.
  - apply NoDup_cons in Hnd as [Hni Hnd].
    destruct (Hin k) as [e Hk]; [by left|].
    change (M.bytes_of c (k :: ks))
      with (from_option M.txc_size 0 (c !! k) + M.bytes_of c ks).
    rewrite Hk. simpl. rewrite <- (bytes_of_delete c k ks) by done.
    assert (M.bytes_of (delete k c) ks <= M.live_bytes (delete k c)).
    { apply IH; [done| |].
      - intros k' Hk'. rewrite lookup_delete_ne; [apply Hin; by right|].
        intros ->. done.
      - intros k' e' Hk'. apply lookup_delete_Some in Hk' as [_ Hk']. eauto. }
    rewrite (live_bytes_delete k e) in * by done. lia.
Qed.

(** The loop without wrap-around: the total goes down by the bytes of the
    nodes walked over, and the loop went on past a node only while the total
    was still above the limit. *)
Lemma evict_exact limit l c t l' c' t' :
  NoDup (values l) -> (forall k, k ∈ values l -> is_Some (c !! k)) ->
  (forall k e, c !! k = Some e -> 0 < M.txc_size e) ->
  M.bytes_of c (values l) <= t < 2 ^ 64 ->
  M.evict limit l c t = (l', c', t') ->
  exists d,
    l = d ++ l' /\ t' = t - M.bytes_of c (values d) /\
    forall d1 d2, d = d1 ++ d2 -> d1 <> [] -> d2 <> [] ->
                  limit < t - M.bytes_of c (values d1).
Proof.
  revert c t. induction l as [|n l IH]; intros c t Hnd Hin Hpos Ht Hev;
    simpl in Hev.
  { injection Hev as <- <- <-. exists []. split_and!; [done|simpl; lia|].
    intros d1 d2 Hd. symmetry in Hd. apply app_eq_nil in Hd as [-> _]. done. }
  unfold values in Hnd, Hin, Ht. rewrite fmap_cons in Hnd, Hin, Ht.
  apply NoDup_cons in Hnd as [Hni Hnd].
  destruct (Hin n.2) as [e Hk]; [by left|]. rewrite Hk in Hev.
  change (M.bytes_of c (n.2 :: l.*2))
    with (from_option M.txc_size 0 (c !! n.2) + M.bytes_of c (values l)) in Ht.
  rewrite Hk in Ht. simpl in Ht.
  pose proof (Hpos _ _ Hk) as Hse.
  assert (Hrest : 0 <= M.bytes_of c (values l)) by (by apply bytes_of_nonneg).
  rewrite to_uint64_small in Hev by lia.
  assert (Hone : M.bytes_of c (values [n]) = M.txc_size e).
  { unfold values, M.bytes_of. simpl. rewrite Hk. simpl. lia. }
  destruct (Z.leb_spec (t - M.txc_size e) limit) as [Hle|Hgt].
  - injection Hev as <- <- <-. exists [n]. split_and!; [done|lia|].
    intros d1 d2 Hd Hd1 Hd2. destruct d1 as [|x d1]; [done|].
    injection Hd as _ Hd. symmetry in Hd. apply app_eq_nil in Hd as [_ ->].
    done.
  - apply IH in Hev as (d & -> & Ht' & Hmin); [|done| | |].
    + exists (n :: d). 
      assert (Hsplit : forall d0, M.bytes_of c (values (n :: d0)) =
                         M.txc_size e + M.bytes_of c (values d0)).
      { intros d0. unfold values, M.bytes_of. simpl. by rewrite Hk. }
      assert (Hdel : forall d0 l0, d = d0 ++ l0 ->
                M.bytes_of (delete n.2 c) (values d0) = M.bytes_of c (values d0)).
      { intros d0 l0 Hd. apply bytes_of_delete. intros Hin'. apply Hni.
        fold (values (d ++ l')). rewrite Hd, !values_app, !elem_of_app. tauto. }
      split_and!; [done| |].
      * rewrite Hsplit, Ht', (Hdel d []) by (by rewrite app_nil_r). lia.
      * intros d1 d2 Hd Hd1 Hd2. destruct d1 as [|x d1]; [done|].
        injection Hd as <- Hd. rewrite Hsplit.
        destruct d1 as [|y d1].
        -- simpl. unfold M.bytes_of. simpl. lia.
        -- specialize (Hmin (y :: d1) d2 Hd ltac:(done) Hd2).
           rewrite (Hdel (y :: d1) d2 Hd) in Hmin. lia.
    + intros k Hk'. rewrite lookup_delete_ne; [apply Hin; by right|].
      intros <-. done.
    + intros k e' Hk'. apply lookup_delete_Some in Hk' as [_ Hk']. eauto.
    + rewrite bytes_of_delete by done. lia.
Qed.

End Eviction.

Section AddContracts.
Context `{Externals}.
Import Mach StdList.

(** Taking distinct cached checksums out of the map takes their bytes out
    of the total. *)
Lemma live_bytes_remove (c c' : gmap Z M.TXCACHE) (ks : list Z) :
  NoDup ks -> (forall k, k ∈ ks -> is_Some (c !! k)) ->
  (forall k, c' !! k = if decide (k ∈ ks) then None else c !! k) ->
  M.live_bytes c' = M.live_bytes c - M.bytes_of c ks.
Proof.
  revert c. induction ks as [|k ks IH]; intros c Hnd Hin Hlk.
  - assert (c' = c) as ->.
    { apply map_eq. intros k. rewrite Hlk, decide_False; [done|].
      apply not_elem_of_nil. }
    simpl. lia.
  - apply NoDup_cons in Hnd as [Hni Hnd].
    destruct (Hin k) as [e Hk]; [by left|].
    change (M.bytes_of c (k :: ks))
      with (from_option M.txc_size 0 (c !! k) + M.bytes_of c ks).
    rewrite Hk. simpl.
    rewrite (IH (delete k c)); [| done | |].
    + rewrite (live_bytes_delete k e), bytes_of_delete by done. lia.
    + intros k' Hk'. rewrite lookup_delete_ne; [apply Hin; by right|].
      intros <-. done.
    + intros k'. rewrite Hlk, lookup_delete.
      destruct (decide (k' ∈ ks)) as [Hin'|Hni'].
      * rewrite decide_True; [done|]. by right.
      * destruct (decide (k = k')) as [->|Hne].
        -- rewrite decide_True; [done|]. by left.
        -- rewrite decide_False; [done|]. rewrite not_elem_of_cons. done.
Qed.

(** [make_room] stops evicting as early as the budget allows. *)
Lemma make_room_minimal n s :
  M.lru_inv s -> M.accounted s -> 0 < n <= INT_MAX ->
  exists d,
    M._cachelist s = d ++ M._cachelist (M.make_room n s) /\
    forall d1 d2, d = d1 ++ d2 -> d2 <> [] ->
      M._cacheLimit s <
      M._totalSize s - M.bytes_of (M._cache s) (values d1) + n.
Proof.
  intros [[Hnd Hkeys] _] Hacc Hn.
  pose proof (accounted_live_nonneg s Hacc) as Hnn.
  destruct Hacc as (Htot & Hsz & Hlive & Hlimr).
  assert (Hpos : forall k e, M._cache s !! k = Some e -> 0 < M.txc_size e).
  { intros k e Hk. apply Hsz in Hk. lia. }
  unfold M.make_room.
  assert (Ht0 : to_uint64 (M._totalSize s + n) = M._totalSize s + n).
  { apply to_uint64_small. unfold PTRDIFF_MAX, INT_MAX in *. lia. }
  rewrite Ht0.
  destruct ((M._cacheLimit s <? M._totalSize s + n) &&
            negb (bool_decide (M._cachelist s = []))) eqn:Hcond.
  - apply andb_prop in Hcond as [Hgt _]. apply Z.ltb_lt in Hgt.
    destruct (M.evict _ _ _ _) as [[l' c'] t'] eqn:Hev.
    apply evict_exact in Hev as (d & Hl & _ & Hmin); [|done| |done|].
    + exists d. split; [done|].
      intros d1 d2 Hd Hd2. destruct d1 as [|x d1].
      * simpl. lia.
      * specialize (Hmin (x :: d1) d2 Hd ltac:(done) Hd2). lia.
    + intros k Hk. by apply Hkeys.
    + pose proof (bytes_of_le_live (M._cache s) (values (M._cachelist s))
                    Hnd ltac:(intros k Hk; by apply Hkeys) Hpos).
      unfold PTRDIFF_MAX, INT_MAX in *. lia.
  - exists []. split; [done|].
    intros d1 d2 Hd. symmetry in Hd. apply app_eq_nil in Hd as [_ ->]. done.
Qed.

(** All a successful [add] under a budget does, in one place. *)
Lemma add_under_budget avail k info dataSize s s' :
  M.well_formed s -> M._cacheLimit s <> 0 ->
  M.add avail k info dataSize s = (true, s') ->
  let n := M.stored_size info dataSize in
  exists d r e,
    0 < n <= INT_MAX /\
    M._cachelist s = d ++ r /\
    M._cachelist s' = r ++ [(fresh r, k)] /\
    (forall k', M._cache s' !! k' =
       if decide (k' = k) then Some e
       else if decide (k' ∈ values d) then None else M._cache s !! k') /\
    M.txc_size e = n /\
    (k ∉ values (M._cachelist s)) /\
    M.bytes_of (M._cache s) (values d) <= M._totalSize s /\
    M._totalSize s' = M._totalSize s - M.bytes_of (M._cache s) (values d) + n /\
    (forall d1 d2, d = d1 ++ d2 -> d2 <> [] ->
       M._cacheLimit s <
       M._totalSize s - M.bytes_of (M._cache s) (values d1) + n) /\
    (M._totalSize s' <= M._cacheLimit s \/ r = []).
Proof.
  intros [Hacc Hlist] Hlim Hadd n.
  apply Z.eqb_neq in Hlim as Hlimb. rewrite Hlimb in Hlist.
  pose proof (stored_size_range info dataSize) as Hrng. fold n in Hrng.
  apply add_stored in Hadd
    as (_ & _ & Hfresh & Hn0 & Hm & Hk1 & Hc & Hl & Htot' & _).
  fold n in Hn0, Hm, Hk1, Hc, Hl, Htot'.
  rewrite Hlimb in Hm, Hk1, Hc, Hl, Htot'.
  destruct (make_room_spec n s Hlist Hacc Hrng)
    as (Hinv1 & Hacc1 & Hlim1 & _ & _ & _ & _ & _ & (d & Hd & Hlk) & Hroom).
  set (s1 := M.make_room n s) in *.
  pose proof (accounted_live_nonneg s1 Hacc1) as Hnn1.
  apply malloc_granted in Hm as (_ & Hnn & Hcap); [|done|done].
  assert (Hpos : 0 < n <= INT_MAX) by lia.
  destruct (make_room_minimal n s Hlist Hacc Hpos) as (d' & Hd' & Hmin).
  fold s1 in Hd'.
  assert (d' = d) as ->.
  { apply (app_inv_tail (M._cachelist s1)). congruence. }
  destruct Hlist as [[Hnd Hkeys] _].
  assert (Hnk : k ∉ values (M._cachelist s)).
  { rewrite <- Hkeys, Hfresh. by intros [? ?]. }
  assert (Hndd : NoDup (values d) /\
                 forall k', k' ∈ values d -> is_Some (M._cache s !! k')).
  { rewrite Hd, values_app in Hnd. apply NoDup_app in Hnd as (? & _ & _).
    split; [done|]. intros k' Hk'. apply Hkeys.
    rewrite Hd, values_app, elem_of_app. by left. }
  destruct Hndd as [Hndd Hind].
  pose proof (live_bytes_remove _ _ _ Hndd Hind Hlk) as Hlive1.
  destruct Hacc as (Hts & _). destruct Hacc1 as (Hts1 & _ & Hlive1' & _).
  assert (Htot1 : M._totalSize s1 =
                  M._totalSize s - M.bytes_of (M._cache s) (values d)).
  { rewrite Hts1, Hts. done. }
  assert (Hnew : M._totalSize s' = M._totalSize s1 + n).
  { rewrite Htot'. apply to_uint64_small. unfold PTRDIFF_MAX in *. lia. }
  exists d, (M._cachelist s1), (M.mkTXCACHE n
    (set_format (format info)
       (set_data (Some (memcpy (default [] (data info)) n)) info))
    (Some (fresh (M._cachelist s1)))).
  split_and!; [lia|lia|done|done| |done|done|lia|lia|done|].
  - intros k'. rewrite Hc, lookup_insert.
    destruct (decide (k = k')) as [->|Hne].
    + by rewrite decide_True.
    + rewrite decide_False by done. apply Hlk.
  - destruct (Hroom ltac:(lia)) as [Hle|Hemp]; [left; lia|right].
    destruct Hinv1 as [[_ Hkeys1] _].
    destruct (M._cachelist s1) as [|x l] eqn:Hl1; [done|]. exfalso.
    assert (is_Some (M._cache s1 !! x.2)) as [? Hx].
    { apply Hkeys1. unfold values. simpl. by left. }
    by rewrite Hemp in Hx.
Qed.


(** X7. A successful [add] under a budget evicts a prefix of the list, the
    least recently used entries, and nothing else: the checksums of the
    prefix are no longer cached, every entry behind it is exactly as it was
    and keeps its place, and the new checksum is cached at the
    most-recently-used end. *)
Theorem add_evicts_lru_prefix avail (k : Z) (info : GHQTexInfo) (dataSize : Z)
    (s s' : M.t) :
  M.well_formed s -> M._cacheLimit s <> 0 ->
  M.add avail k info dataSize s = (true, s') ->
  exists d r,
    values (M._cachelist s) = d ++ r /\
    values (M._cachelist s') = r ++ [k] /\
    (forall k', k' ∈ d -> M.isCached k' s' = false) /\
    (forall k', k' ∈ r -> M._cache s' !! k' = M._cache s !! k') /\
    M.isCached k s' = true.
Proof.
  intros Hwf Hlim Hadd.
  destruct (add_under_budget avail k info dataSize s s' Hwf Hlim Hadd)
    as (d & r & e & _ & Hl & Hl' & Hlk & _ & Hnk & _).
  destruct Hwf as [_ Hlist]. apply Z.eqb_neq in Hlim. rewrite Hlim in Hlist.
  destruct Hlist as [[Hnd _] _].
  rewrite Hl, values_app in Hnd, Hnk.
  apply NoDup_app in Hnd as (_ & Hdisj & _).
  apply not_elem_of_app in Hnk as [Hnd' Hnr].
  exists (values d), (values r). split_and!.
  - by rewrite Hl, values_app.
  - by rewrite Hl', values_app.
  - intros k' Hk'. unfold M.isCached. apply bool_decide_eq_false.
    rewrite Hlk, decide_False by (intros ->; done).
    rewrite decide_True by done. by intros [? ?].
  - intros k' Hk'. rewrite Hlk, decide_False by (intros ->; done).
    rewrite decide_False; [done|]. intros Hin. by apply (Hdisj k').
  - unfold M.isCached. apply bool_decide_eq_true.
    rewrite Hlk, decide_True by done. by eexists.
Qed.

(** X8. The eviction pass of a successful [add] is minimal: with [d] the entries
    it evicted, [totalSize()] afterwards is the old total less the bytes of
    [d] plus the new stored size; the budget would have been exceeded had
    the pass stopped at any shorter prefix of [d]; and it stopped within the
    budget unless it ran out of entries. *)
Theorem eviction_is_minimal avail (k : Z) (info : GHQTexInfo) (dataSize : Z)
    (s s' : M.t) :
  M.well_formed s -> M._cacheLimit s <> 0 ->
  M.add avail k info dataSize s = (true, s') ->
  exists d r,
    values (M._cachelist s) = d ++ r /\
    values (M._cachelist s') = r ++ [k] /\
    M.totalSize s' =
      M.totalSize s - M.bytes_of (M._cache s) d
      + M.stored_size info dataSize /\
    (forall d1 d2, d = d1 ++ d2 -> d2 <> [] ->
       M._cacheLimit s <
       M.totalSize s - M.bytes_of (M._cache s) d1
       + M.stored_size info dataSize) /\
    (M.totalSize s' <= M._cacheLimit s \/ r = []).
Proof.
  intros Hwf Hlim Hadd.
  destruct (add_under_budget avail k info dataSize s s' Hwf Hlim Hadd)
    as (d & r & e & _ & Hl & Hl' & _ & _ & _ & _ & Htot & Hmin & Hexit).
  exists (values d), (values r). split_and!.
  - by rewrite Hl, values_app.
  - by rewrite Hl', values_app.
  - done.
  - intros d1 d2 Hd Hd2. unfold values in Hd.
    apply fmap_app_inv in Hd as (n1 & n2 & -> & -> & ->).
    apply (Hmin n1 n2 eq_refl). by destruct n2.
  - destruct Hexit as [?|Hr]; [by left|right; by rewrite Hr].
Qed.

(** X9. No eviction without need: a successful [add] on a cache without a
    budget, or one whose total with the new stored size stays within the
    budget, keeps every entry as it was, caches the new checksum, raises
    [totalSize()] by the stored size and [size()] by one. *)
Theorem add_within_budget_keeps_all avail (k : Z) (info : GHQTexInfo)
    (dataSize : Z) (s s' : M.t) :
  M.well_formed s ->
  M.add avail k info dataSize s = (true, s') ->
  M._cacheLimit s = 0 \/
  M.totalSize s + M.stored_size info dataSize <= M._cacheLimit s ->
  (forall k', k' <> k -> M._cache s' !! k' = M._cache s !! k') /\
  M.isCached k s' = true /\
  M.totalSize s' = M.totalSize s + M.stored_size info dataSize /\
  M.size s' = M.size s + 1.
Proof.
  intros Hwf Hadd Hroom.
  assert (Hshape : exists e,
    M._cache s !! k = None /\ M._cache s' = <[k:=e]> (M._cache s) /\
    M._totalSize s' = M._totalSize s + M.stored_size info dataSize).
  { destruct (Z.eqb_spec (M._cacheLimit s) 0) as [Hlim|Hlim].
    - destruct Hwf as [Hacc _].
      pose proof (accounted_live_nonneg s Hacc) as Hnn.
      pose proof (stored_size_range info dataSize) as Hrng.
      apply add_stored in Hadd
        as (_ & _ & Hfresh & _ & Hm & _ & Hc & _ & Htot & _).
      rewrite Hlim in Hm, Hc, Htot. cbn [Z.eqb] in Hm, Hc, Htot.
      apply malloc_granted in Hm as (_ & Hpos & Hcap); [|done|done].
      destruct Hacc as (Hts & _ & Hlive & _).
      eexists. split_and!; [done|exact Hc|].
      rewrite Htot. apply to_uint64_small. unfold PTRDIFF_MAX in *. lia.
    - destruct Hroom as [?|Hroom]; [done|].
      destruct (add_under_budget avail k info dataSize s s' Hwf Hlim Hadd)
        as (d & r & e & _ & Hl & _ & Hlk & _ & Hnk & _ & Htot & Hmin & _).
      assert (d = []) as ->.
      { destruct d as [|x d]; [done|].
        specialize (Hmin [] (x :: d) eq_refl ltac:(done)).
        unfold M.totalSize in Hroom. simpl in Hmin. lia. }
      apply add_stored in Hadd as (_ & _ & Hfresh & _).
      exists e. split_and!; [done| |simpl in Htot; lia].
      apply map_eq. intros k'. rewrite Hlk, lookup_insert.
      destruct (decide (k = k')) as [->|Hne].
      + by rewrite decide_True.
      + rewrite decide_False by done. rewrite decide_False; [done|].
        apply not_elem_of_nil. }
  destruct Hshape as (e & Hfresh & Hc & Htot).
  split_and!.
  - intros k' Hne. rewrite Hc. by apply lookup_insert_ne.
  - unfold M.isCached. apply bool_decide_eq_true.
    rewrite Hc, lookup_insert_eq. by eexists.
  - done.
  - unfold M.size. rewrite Hc, map_size_insert_None by done. lia.
Qed.

(** X10. An entry larger than the budget, once stored, is alone in the cache:
    everything else has been evicted, [totalSize()] is its stored size and
    the list holds just its checksum. *)
Theorem oversize_entry_is_alone avail (k : Z) (info : GHQTexInfo)
    (dataSize : Z) (s s' : M.t) :
  M.well_formed s -> M._cacheLimit s <> 0 ->
  M.add avail k info dataSize s = (true, s') ->
  M._cacheLimit s < M.stored_size info dataSize ->
  (forall k', M.isCached k' s' = true <-> k' = k) /\
  M.totalSize s' = M.stored_size info dataSize /\
  values (M._cachelist s') = [k].
Proof.
  intros Hwf Hlim Hadd Hbig.
  destruct (add_under_budget avail k info dataSize s s' Hwf Hlim Hadd)
    as (d & r & e & Hn & Hl & Hl' & Hlk & Hsz & Hnk & Hle & Htot & _ & Hexit).
  destruct Hexit as [Hfit|Hr]; [lia|]. subst r.
  rewrite app_nil_r in Hl. subst d.
  destruct (add_well_formed avail k info dataSize s Hwf) as [[Hacc' _] _].
  rewrite Hadd in Hacc'. cbn [snd] in Hacc'.
  destruct Hwf as [_ Hlist]. apply Z.eqb_neq in Hlim. rewrite Hlim in Hlist.
  destruct Hlist as [[_ Hkeys] _].
  assert (Hc : M._cache s' = <[k:=e]> ∅).
  { apply map_eq. intros k'. rewrite Hlk, lookup_insert.
    destruct (decide (k = k')) as [->|Hne].
    - by rewrite decide_True.
    - rewrite decide_False by done. rewrite lookup_empty.
      destruct (decide _) as [|Hni]; [done|].
      apply eq_None_not_Some. by rewrite Hkeys. }
  split_and!.
  - intros k'. unfold M.isCached. rewrite bool_decide_eq_true, Hc.
    rewrite lookup_insert. destruct (decide (k = k')) as [->|Hne].
    + split; [done|by eexists].
    + rewrite lookup_empty. split; [by intros [? ?]|done].
  - destruct Hacc' as (Hts' & _). unfold M.totalSize.
    rewrite Hts', Hc, live_bytes_insert, live_bytes_empty by done. lia.
  - by rewrite Hl'.
Qed.

(** X11. A call of [add] that returns false stores nothing and never raises
    [totalSize()]; without a budget it changes nothing at all, with one it
    may have run its eviction pass before the allocation failed. *)
Theorem failed_add_never_grows avail (k : Z) (info : GHQTexInfo)
    (dataSize : Z) (s s' : M.t) :
  M.well_formed s ->
  M.add avail k info dataSize s = (false, s') ->
  (forall k' e, M._cache s' !! k' = Some e -> M._cache s !! k' = Some e) /\
  M.totalSize s' <= M.totalSize s /\
  (M._cacheLimit s = 0 -> s' = s) /\
  M.well_formed s'.
Proof.
  intros Hwf Hadd.
  destruct (add_well_formed avail k info dataSize s Hwf) as [Hwf' _].
  rewrite Hadd in Hwf'. cbn [snd] in Hwf'.
  apply add_rejected in Hadd as [->|[Hlim ->]].
  { split_and!; [done|lia|done|done]. }
  destruct Hwf as [Hacc Hlist]. apply Z.eqb_neq in Hlim as Hlimb.
  rewrite Hlimb in Hlist.
  destruct (make_room_spec (M.stored_size info dataSize) s Hlist Hacc
              (stored_size_range info dataSize))
    as (_ & _ & _ & _ & _ & _ & _ & Htot & (d & _ & Hlk) & _).
  split_and!; [|done|done|done].
  intros k' e. rewrite Hlk. by destruct (decide _).
Qed.

End AddContracts.

(** ** The record format [load] reads *)

Section ByteCodec.
Import Mach.














End ByteCodec.

(** ** [load] on a file of records *)

Section LoadReplay.
Context `{Externals}.
Import Mach.




Lemma replay_app (w : M.World) (i : nat) (rs1 rs2 : list (Z * GHQTexInfo))
    (s : M.t) :
  M.replay w i (rs1 ++ rs2) s =
  M.replay w (i + length rs1) rs2 (M.replay w i rs1 s).
Proof.
  revert i s. induction rs1 as [|r rs1 IH]; intros i s.
  - simpl. by rewrite Nat.add_0_r.
  - cbn [app M.replay length]. cbn zeta. rewrite IH.
    by replace (S i + length rs1)%nat with (i + S (length rs1))%nat by lia.
Qed.




End LoadReplay.

(** ** The read path of the file backend *)

Section FileReads.
Context `{Externals}.
Import Mach.

Lemma is_gz_clear_gz (f : Z) : is_gz (clear_gz f) = false.
Proof.
  unfold is_gz, clear_gz.
  replace (Z.land (Z.land f (Z.lnot GL_TEXFMT_GZ)) GL_TEXFMT_GZ) with 0; [done|].
  symmetry. apply Z.bits_inj'. intros n Hn.
  rewrite !Z.land_spec, Z.lnot_spec, Z.bits_0 by done.
  by destruct (Z.testbit f n), (Z.testbit GL_TEXFMT_GZ n).
Qed.

Lemma readData_contract_aux (info : GHQTexInfo) (s : F.t) :
  let r := F.readData info s in
  F._storage r.2 = F._storage s /\ F._totalSize r.2 = F._totalSize s /\
  F._options r.2 = F._options s /\
  (r.1.1 = true ->
     is_Some (F._gzdest0 s) /\ IfStream.good (F._infile r.2) = true /\
     is_gz (format r.1.2) = false) /\
  (F._gzdest0 s = None ->
     r.1.1 = false /\ data r.1.2 = data info /\ F._gzdest0 r.2 = None).
Proof.
  unfold F.readData.
  destruct (IfStream.read_int (width info) _) as [w_ f1].
  destruct (IfStream.read_int (height info) _) as [h_ f2].
  destruct (IfStream.read_uint 4 (format info) _) as [f_ f3].
  destruct (IfStream.read_uint 2 (texture_format info) _) as [tf_ f4].
  destruct (IfStream.read_uint 2 (pixel_type info) _) as [pt_ f5].
  destruct (IfStream.read_uint 1 (is_hires_tex info) _) as [hi_ f6].
  destruct (IfStream.read_uint 4 0 _) as [dataSize f7].
  destruct (dataSize =? 0); [by cbn|].
  cbn [F._gzdest0 F.set_infile].
  destruct (F._gzdest0 s) as [old0|] eqn:Hg0; [|by cbn].
  destruct (IfStream.read dataSize f7) as [got f8].
  destruct (IfStream.good f8) eqn:Hgood; cbn [negb]; [|by cbn].
  destruct (is_gz f_) eqn:Hgz.
  - destruct (uncompress _ _); [|by cbn].
    cbn. split_and!; try done. intros _.
    split_and!; [by eexists|done|apply is_gz_clear_gz].
  - cbn. split_and!; done.
Qed.

(** X13. [readData] never touches the index, the total or the options.  It
    returns true only when the scratch buffer [_gzdest0] exists and the
    stream is still good after the payload has been read, and the record it
    then hands back does not carry the compressed flag.  Without the scratch
    buffer it returns false and leaves the caller's payload pointer alone
    (the seven scalars of the caller's record have been overwritten by
    then). *)
Theorem readData_contract (info : GHQTexInfo) (s : F.t) :
  let r := F.readData info s in
  F._storage r.2 = F._storage s /\ F._totalSize r.2 = F._totalSize s /\
  F._options r.2 = F._options s /\
  (r.1.1 = true ->
     is_Some (F._gzdest0 s) /\ IfStream.good (F._infile r.2) = true /\
     is_gz (format r.1.2) = false) /\
  (F._gzdest0 s = None ->
     r.1.1 = false /\ data r.1.2 = data info /\ F._gzdest0 r.2 = None).
Proof. apply readData_contract_aux. Qed.

(** X14. [get] on the file backend returns true only when the input stream is
    already open, the output stream is not, the scratch buffer exists and
    the checksum, non-zero, is in the index: it cannot open the file
    itself.  The index is the same afterwards and the returned record does
    not carry the compressed flag. *)
Theorem file_get_success_requires (k : Z) (info out : GHQTexInfo)
    (s s' : F.t) :
  F.get k info s = (true, out, s') ->
  k <> 0 /\ F.isCached k s = true /\
  IfStream.is_open (F._infile s) = true /\ F._outfile_is_open s = false /\
  is_Some (F._gzdest0 s) /\
  IfStream.good (F._infile s') = true /\
  F._storage s' = F._storage s /\
  is_gz (format out) = false.
Proof.
  unfold F.get. destruct (bool_decide (k = 0)) eqn:Hk0; [done|].
  apply bool_decide_eq_false in Hk0. cbn [orb].
  destruct (F.empty s); [done|].
  destruct (F._storage s !! k) as [offset|] eqn:Hk; [|done].
  destruct (F._outfile_is_open s) eqn:Hout; [done|]. cbn [orb].
  destruct (IfStream.is_open (F._infile s)) eqn:Hin; [|done].
  cbn [negb]. intros Hread.
  pose proof (readData_contract_aux info
    (F.set_infile (IfStream.seekg offset (F._infile s)) s)) as Hc.
  rewrite Hread in Hc. cbn in Hc.
  destruct Hc as (Hst & _ & _ & Hok & _).
  destruct (Hok eq_refl) as (Hg0 & Hgood & Hfmt).
  split_and!; try done.
  unfold F.isCached. apply bool_decide_eq_true. by eexists.
Qed.

End FileReads.

(** ** [replaceChars] *)

Section ReplaceChars.
Import StdString.

Lemma find_first_None (c : ascii) (s : StdString.t) :
  c ∉ s -> find_first c s = None.
Proof.
  induction s as [|x s IH]; [done|]. intros Hn.
  apply not_elem_of_cons in Hn as [Hne Hn]. cbn.
  rewrite decide_False by done. by rewrite IH.
Qed.

Lemma find_first_Some (c : ascii) (a b : StdString.t) :
  c ∉ a -> find_first c (a ++ c :: b) = Some (length a).
Proof.
  induction a as [|x a IH]; intros Hn; cbn.
  - by rewrite decide_True.
  - apply not_elem_of_cons in Hn as [Hne Hn].
    rewrite decide_False by done. by rewrite IH.
Qed.

Lemma find_None (c : ascii) (p : nat) (s : StdString.t) :
  c ∉ s -> find c p s = None.
Proof.
  intros Hn. unfold find. rewrite find_first_None; [done|].
  intros Hin. apply Hn. by eapply subseteq_drop.
Qed.

Lemma find_Some (c : ascii) (p : nat) (pre a b : StdString.t) :
  c ∉ pre -> c ∉ a -> (p <= length pre)%nat ->
  find c p (pre ++ a ++ c :: b) = Some (length pre + length a)%nat.
Proof.
  intros Hpre Ha Hp. unfold find.
  rewrite drop_app_le by done.
  rewrite (assoc_L (++)), find_first_Some.
  - cbn. f_equal. rewrite length_app, length_drop. lia.
  - apply not_elem_of_app. split; [|done].
    intros Hin. apply Hpre. by eapply subseteq_drop.
Qed.

Lemma each_notin (c : ascii) (str s : StdString.t) :
  c ∉ s -> C.each c str s = s.
Proof.
  induction s as [|x s IH]; [done|]. intros Hn.
  apply not_elem_of_cons in Hn as [Hne Hn]. unfold C.each in *. cbn.
  rewrite decide_False by done. cbn. by rewrite IH.
Qed.

Lemma each_app (c : ascii) (str s1 s2 : StdString.t) :
  C.each c str (s1 ++ s2) = C.each c str s1 ++ C.each c str s2.
Proof. unfold C.each. apply bind_app. Qed.

Lemma each_cons_eq (c : ascii) (str s : StdString.t) :
  C.each c str (c :: s) = str ++ C.each c str s.
Proof. unfold C.each. cbn. by rewrite decide_True. Qed.

Lemma count_app (c : ascii) (s1 s2 : StdString.t) :
  C.count c (s1 ++ s2) = (C.count c s1 + C.count c s2)%nat.
Proof. unfold C.count. by rewrite filter_app, length_app. Qed.

Lemma count_cons_eq (c : ascii) (s : StdString.t) :
  C.count c (c :: s) = S (C.count c s).
Proof. unfold C.count. by rewrite filter_cons_True. Qed.

Lemma count_notin (c : ascii) (s : StdString.t) :
  c ∉ s -> C.count c s = 0%nat.
Proof.
  induction s as [|x s IH]; [done|]. intros Hn.
  apply not_elem_of_cons in Hn as [Hne Hn]. unfold C.count in *.
  rewrite filter_cons_False by done. by apply IH.
Qed.

Lemma count_le_length (c : ascii) (s : StdString.t) :
  (C.count c s <= length s)%nat.
Proof. apply length_filter. Qed.

Lemma each_cons (c x : ascii) (str s : StdString.t) :
  C.each c str (x :: s) =
  (if decide (x = c) then str else [x]) ++ C.each c str s.
Proof. done. Qed.

Lemma count_cons_ne (c x : ascii) (s : StdString.t) :
  x <> c -> C.count c (x :: s) = C.count c s.
Proof. intros Hne. unfold C.count. by rewrite filter_cons_False. Qed.

Lemma count_each (c c' : ascii) (str s : StdString.t) :
  c <> c' -> c ∉ str -> C.count c (C.each c' str s) = C.count c s.
Proof.
  intros Hne Hstr. induction s as [|x s IH]; [done|].
  rewrite each_cons, count_app, IH.
  destruct (decide (x = c')) as [->|Hx].
  - rewrite count_notin, count_cons_ne by done. done.
  - destruct (decide (x = c)) as [->|Hxc].
    + by rewrite !count_cons_eq.
    + by rewrite !count_cons_ne.
Qed.

Lemma elem_of_each (c x : ascii) (str s : StdString.t) :
  x ∈ C.each c str s <-> (x ∈ s /\ x <> c) \/ (c ∈ s /\ x ∈ str).
Proof.
  unfold C.each. rewrite list_elem_of_bind. split.
  - intros (y & Hx & Hy). destruct (decide (y = c)) as [->|Hne].
    + right. done.
    + left. apply list_elem_of_singleton in Hx as ->. done.
  - intros [[Hx Hne]|[Hc Hx]].
    + exists x. rewrite decide_False by done. split; [|done].
      by apply list_elem_of_singleton.
    + exists c. by rewrite decide_True.
Qed.

(** A loop entered at or before the end of a part [pre] that holds no [c]:
    it returns within as many passes as [c] occurs in the rest, with every
    [c] of the rest replaced. *)
Lemma replace_loop_spec (c : ascii) (str : StdString.t) (fuel : nat) :
  c ∉ str ->
  forall (pre post : StdString.t) (p : nat),
  c ∉ pre -> (p <= length pre)%nat -> (C.count c post <= fuel)%nat ->
  C.replace_loop fuel c str (find c p (pre ++ post)) (pre ++ post) =
    Some (pre ++ C.each c str post).
Proof.
  intros Hstr. induction fuel as [|fuel IH]; intros pre post p Hpre Hp Hfuel.
  - destruct (decide (c ∈ post)) as [Hin|Hnin].
    + apply list_elem_of_split_l in Hin as (a & b & -> & Ha).
      rewrite count_app, count_cons_eq in Hfuel. lia.
    + rewrite find_None, each_notin; [done|done|].
      by apply not_elem_of_app.
  - destruct (decide (c ∈ post)) as [Hin|Hnin].
    + apply list_elem_of_split_l in Hin as (a & b & -> & Ha).
      rewrite find_Some by done. cbn [C.replace_loop].
      rewrite count_app, count_cons_eq, (count_notin c a) in Hfuel by done.
      assert (Hrep : replace (length pre + length a) 1 str
                       (pre ++ a ++ c :: b) = (pre ++ a ++ str) ++ b).
      { unfold replace. rewrite (assoc_L (++) pre a).
        rewrite <- length_app, take_app_length.
        rewrite <- drop_drop, drop_app_length.
        cbn. by rewrite <- !(assoc_L (++)). }
      rewrite Hrep, IH.
      * rewrite each_app, each_cons_eq, (each_notin c str a) by done.
        by rewrite <- !(assoc_L (++)).
      * rewrite !not_elem_of_app. done.
      * rewrite !length_app. lia.
      * cbn in Hfuel. lia.
    + rewrite find_None, each_notin; [done|done|].
      by apply not_elem_of_app.
Qed.

(** Whatever the bound on the passes, a loop that returns has replaced
    every [c] of the rest. *)
Lemma replace_loop_sound (c : ascii) (str : StdString.t) (fuel : nat) :
  c ∉ str ->
  forall (pre post r : StdString.t) (p : nat),
  c ∉ pre -> (p <= length pre)%nat ->
  C.replace_loop fuel c str (find c p (pre ++ post)) (pre ++ post) = Some r ->
  r = pre ++ C.each c str post.
Proof.
  intros Hstr pre post r p Hpre Hp Hr.
  destruct (decide (C.count c post <= fuel)%nat) as [Hle|Hgt].
  { rewrite replace_loop_spec in Hr by done. by injection Hr as <-. }
  exfalso. revert pre post p Hpre Hp Hr Hgt.
  induction fuel as [|fuel IH]; intros pre post p Hpre Hp Hr Hgt.
  - destruct (decide (c ∈ post)) as [Hin|Hnin].
    + apply list_elem_of_split_l in Hin as (a & b & -> & Ha).
      by rewrite find_Some in Hr.
    + rewrite count_notin in Hgt by done. lia.
  - destruct (decide (c ∈ post)) as [Hin|Hnin].
    + apply list_elem_of_split_l in Hin as (a & b & -> & Ha).
      rewrite find_Some in Hr by done. cbn [C.replace_loop] in Hr.
      rewrite count_app, count_cons_eq, (count_notin c a) in Hgt by done.
      assert (Hrep : replace (length pre + length a) 1 str
                       (pre ++ a ++ c :: b) = (pre ++ a ++ str) ++ b).
      { unfold replace. rewrite (assoc_L (++) pre a).
        rewrite <- length_app, take_app_length.
        rewrite <- drop_drop, drop_app_length.
        cbn. by rewrite <- !(assoc_L (++)). }
      rewrite Hrep in Hr. apply IH in Hr; [done| | |cbn in Hgt; lia].
      * rewrite !not_elem_of_app. done.
      * rewrite !length_app. lia.
    + rewrite count_notin in Hgt by done. lia.
Qed.

Lemma percent_coded_each (s : StdString.t) :
  C.percent_coded s =
  C.each "'"%char (of_literal "%27") (C.each " "%char (of_literal "%20") s).
Proof.
  induction s as [|x s IH]; [done|].
  change (x :: s) with ([x] ++ s). rewrite !each_app, <- IH.
  unfold C.percent_coded at 1. cbn [mbind list_bind app]. f_equal.
  unfold C.each. cbn.
  destruct (decide (x = " "%char)) as [->|Hsp]; [done|].
  destruct (decide (x = "'"%char)) as [->|Hap]; cbn.
  - by rewrite decide_True.
  - by rewrite decide_False.
Qed.

Lemma codes_clean :
  (" "%char ∉ of_literal "%20") /\ (" "%char ∉ of_literal "%27") /\
  ("'"%char ∉ of_literal "%20") /\ ("'"%char ∉ of_literal "%27").
Proof.
  unfold of_literal. cbn [String.list_ascii_of_string].
  rewrite !not_elem_of_cons. split_and!; (done || apply not_elem_of_nil).
Qed.

Lemma replaceChars_spec (fuel : nat) (s : StdString.t) :
  (C.count " "%char s <= fuel)%nat -> (C.count "'"%char s <= fuel)%nat ->
  C.replaceChars fuel s = Some (C.percent_coded s).
Proof.
  intros Hsp Hap. unfold C.replaceChars.
  destruct codes_clean as (Hs20 & Hs27 & Ha20 & Ha27).
  pose proof (replace_loop_spec " "%char (of_literal "%20") fuel Hs20 [] s
                0%nat ltac:(apply not_elem_of_nil) ltac:(done) Hsp) as H1.
  cbn [app] in H1. rewrite H1. cbn [mbind option_bind].
  pose proof (replace_loop_spec "'"%char (of_literal "%27") fuel Ha27 []
                (C.each " "%char (of_literal "%20") s) 0%nat
                ltac:(apply not_elem_of_nil) ltac:(done)) as H2.
  cbn [app] in H2. rewrite H2.
  - by rewrite percent_coded_each.
  - by rewrite count_each.
Qed.

Lemma replaceChars_returns (fuel : nat) (s : StdString.t) :
  (length s <= fuel)%nat ->
  C.replaceChars fuel s = Some (C.percent_coded s).
Proof.
  intros Hfuel. apply replaceChars_spec.
  - pose proof (count_le_length " "%char s). lia.
  - pose proof (count_le_length "'"%char s). lia.
Qed.

(** X15. [replaceChars] returns: neither of its two loops makes more passes
    than the argument has characters, and the result is the argument with
    every space written "%20" and every apostrophe "%27". *)
Theorem replaceChars_percent_codes (fuel : nat) (s : StdString.t) :
  (length s <= fuel)%nat ->
  C.replaceChars fuel s = Some (C.percent_coded s).
Proof. apply replaceChars_returns. Qed.

Lemma percent_coded_clean (s : StdString.t) :
  (" "%char ∉ C.percent_coded s) /\ ("'"%char ∉ C.percent_coded s).
Proof.
  destruct codes_clean as (Hs20 & Hs27 & Ha20 & Ha27).
  rewrite percent_coded_each. split.
  - rewrite !elem_of_each. intros [[[[_ ?]|[_ ?]] _]|[_ ?]]; done.
  - rewrite elem_of_each. intros [[_ ?]|[_ ?]]; done.
Qed.

Lemma percent_coded_fixed (s : StdString.t) :
  " "%char ∉ s -> "'"%char ∉ s -> C.percent_coded s = s.
Proof.
  intros Hsp Hap. rewrite percent_coded_each.
  by rewrite (each_notin " "%char), each_notin.
Qed.

Lemma length_each (c : ascii) (str s : StdString.t) :
  length (C.each c str s) =
  (length s - C.count c s + length str * C.count c s)%nat.
Proof.
  induction s as [|x s IH]; [cbn; lia|].
  rewrite each_cons, length_app, IH.
  pose proof (count_le_length c s).
  destruct (decide (x = c)) as [->|Hne].
  - rewrite count_cons_eq. cbn [length]. lia.
  - rewrite count_cons_ne by done. cbn [length]. lia.
Qed.

Lemma replaceChars_sound (fuel : nat) (s s' : StdString.t) :
  C.replaceChars fuel s = Some s' -> s' = C.percent_coded s.
Proof.
  unfold C.replaceChars. intros Hs.
  destruct codes_clean as (Hs20 & Hs27 & Ha20 & Ha27).
  destruct (C.replace_loop fuel " "%char _ _ s) as [s1|] eqn:H1; [|done].
  cbn [mbind option_bind] in Hs.
  apply (replace_loop_sound _ _ _ Hs20 [] s s1 0%nat) in H1;
    [|apply not_elem_of_nil|done].
  apply (replace_loop_sound _ _ _ Ha27 [] s1 s' 0%nat) in Hs;
    [|apply not_elem_of_nil|done].
  cbn [app] in H1, Hs. subst. by rewrite percent_coded_each.
Qed.

(** X16. What [replaceChars] returns holds neither a space nor an apostrophe, is
    longer than the argument by two characters for each of them, and goes
    through a second call unchanged, whatever the bound on the passes. *)
Theorem replaceChars_result_is_clean (fuel fuel' : nat) (s s' : StdString.t) :
  C.replaceChars fuel s = Some s' ->
  (" "%char ∉ s') /\ ("'"%char ∉ s') /\
  length s' = (length s + 2 * (C.count " "%char s + C.count "'"%char s))%nat /\
  C.replaceChars fuel' s' = Some s'.
Proof.
  intros Hs. apply replaceChars_sound in Hs as ->.
  destruct (percent_coded_clean s) as [Hsp Hap].
  destruct codes_clean as (Hs20 & Hs27 & Ha20 & Ha27).
  split_and!; [done|done| |].
  - rewrite percent_coded_each, !length_each.
    rewrite count_each by done.
    pose proof (count_le_length " "%char s).
    pose proof (count_le_length "'"%char s).
    change (length (of_literal "%20")) with 3%nat.
    change (length (of_literal "%27")) with 3%nat. lia.
  - rewrite replaceChars_spec.
    + by rewrite percent_coded_fixed.
    + rewrite count_notin by done. lia.
    + rewrite count_notin by done. lia.
Qed.

End ReplaceChars.

(** ** [LoadCustomSettings] and [Config_LoadConfig] *)

Section CustomSettings.
Context `{C.Environment}.
Import StdString.

Lemma toupper_not_lower (c : ascii) : is_lower (toupper c) = false.
Proof. by destruct c as [[] [] [] [] [] [] [] []]. Qed.

(** A name that holds no lower-case letter is none of the fifteen keys:
    each key has one. *)
Lemma set_property_no_lower (l : C.ini_line) (config : C.Config) :
  forallb (fun c => negb (is_lower c)) (C.name l) = true ->
  C.set_property l config = config.
Proof.
  intros Hlow. unfold C.set_property. cbn zeta.
  repeat (case_bool_decide as Hk;
          [rewrite Hk in Hlow; by vm_compute in Hlow|clear Hk]).
  done.
Qed.

Lemma upper_section_no_lower (r : StdString.t) (n : StdString.t) :
  toupper <$> r = C.percent_coded n ->
  forallb (fun c => negb (is_lower c)) n = true.
Proof.
  intros Heq.
  assert (Hall : forall c, c ∈ n -> is_lower c = false).
  2:{ clear Heq. induction n as [|c n IH]; [done|]. cbn.
      rewrite (Hall c) by (apply elem_of_cons; by left). cbn.
      apply IH. intros c' Hc'. apply Hall. apply elem_of_cons. by right. }
  intros c Hc. destruct (is_lower c) eqn:Hlow; [|done]. exfalso.
  assert (Hin : c ∈ C.percent_coded n).
  { rewrite percent_coded_each, !elem_of_each. left. split.
    - left. split; [done|]. by intros ->.
    - by intros ->. }
  rewrite <- Heq in Hin. apply list_elem_of_fmap in Hin as (y & -> & _).
  by rewrite toupper_not_lower in Hlow.
Qed.

(** X17. The missing [break] after [case INI_SECTION:] does no harm: a section
    line sets [found] and assigns nothing, whether or not it is the ROM's
    section. *)
Theorem section_line_assigns_nothing (fuel : nat) (r : StdString.t)
    (l : C.ini_line) (found found' : bool) (config config' : C.Config) :
  C.type l = C.INI_SECTION ->
  C.line_step fuel (toupper <$> r) l (found, config) = Some (found', config') ->
  config' = config /\
  found' = bool_decide (toupper <$> r = C.percent_coded (C.name l)).
Proof.
  intros Hty. unfold C.line_step. rewrite Hty.
  destruct (C.replaceChars fuel (C.name l)) as [section|] eqn:Hs; [|done].
  apply replaceChars_sound in Hs as ->. cbn [mbind option_bind].
  intros [= <- <-]. split; [|done].
  case_bool_decide as Heq; [|done].
  apply set_property_no_lower. by eapply upper_section_no_lower.
Qed.

Lemma set_property_frame (l : C.ini_line) (config : C.Config) (f : C.field) :
  f ∉ C.ini_fields -> C.set_property l config f = config f.
Proof.
  intros Hf. unfold C.set_property. cbn zeta.
  repeat (case_bool_decide as Hk;
          [unfold C.assign; destruct (decide _) as [->|]; [|done];
           exfalso; apply Hf; unfold C.ini_fields;
           rewrite !elem_of_cons; tauto|clear Hk]).
  done.
Qed.

Lemma line_step_returns (fuel : nat) (myString : StdString.t)
    (l : C.ini_line) (st : bool * C.Config) :
  (length (C.name l) <= fuel)%nat ->
  exists st',
    C.line_step fuel myString l st = Some st' /\
    (forall f, f ∉ C.ini_fields -> st'.2 f = st.2 f) /\
    (st'.1 = false -> st'.2 = st.2) /\
    (C.type l <> C.INI_SECTION -> st'.1 = st.1) /\
    (C.type l = C.INI_SECTION ->
     st'.1 = bool_decide (myString = C.percent_coded (C.name l))).
Proof.
  intros Hfuel. destruct st as [found config]. unfold C.line_step.
  destruct (C.type l).
  - rewrite replaceChars_returns by done. cbn [mbind option_bind].
    eexists. split; [done|]. cbn [fst snd]. split_and!; [|by intros -> |done|done].
    intros f Hf. destruct (bool_decide _); [|done].
    by apply set_property_frame.
  - eexists. split; [done|]. cbn [fst snd]. split_and!; [|by intros -> |done|done].
    intros f Hf. destruct found; [|done]. by apply set_property_frame.
  - eexists. split; [done|]. cbn [fst snd]. done.
Qed.

Lemma lines_loop_returns (fuel : nat) (myString : StdString.t)
    (lines : list C.ini_line) :
  Forall (fun l => (length (C.name l) <= fuel)%nat) lines ->
  forall st, exists st',
    C.lines_loop fuel myString lines st = Some st' /\
    (forall f, f ∉ C.ini_fields -> st'.2 f = st.2 f) /\
    (st.1 = false ->
     Forall (fun l => C.type l = C.INI_SECTION ->
                      myString <> C.percent_coded (C.name l)) lines ->
     st'.1 = false /\ st'.2 = st.2).
Proof.
  induction lines as [|l lines IH]; intros Hfuel st.
  - exists st. done.
  - apply Forall_cons in Hfuel as [Hl Hfuel].
    destruct (line_step_returns fuel myString l st Hl)
      as (st1 & Hstep & Hframe1 & Hoff1 & Hkeep1 & Hsec1).
    destruct (IH Hfuel st1) as (st' & Hloop & Hframe & Hoff).
    exists st'. cbn [C.lines_loop]. rewrite Hstep. cbn [mbind option_bind].
    split; [done|]. split.
    + intros f Hf. rewrite Hframe, Hframe1; done.
    + intros Hst Hno. apply Forall_cons in Hno as [Hnol Hno].
      assert (Hf1 : st1.1 = false).
      { destruct (decide (C.type l = C.INI_SECTION)) as [Hty|Hty].
        - rewrite Hsec1 by done. apply bool_decide_eq_false. by apply Hnol.
        - by rewrite Hkeep1. }
      destruct (Hoff Hf1 Hno) as [-> ->]. split; [done|]. by apply Hoff1.
Qed.

Lemma LoadCustomSettings_contract_aux (fuel : nat) (romname : StdString.t)
    (lines : list C.ini_line) (config : C.Config) :
  (length romname <= fuel)%nat ->
  Forall (fun l => (length (C.name l) <= fuel)%nat) lines ->
  exists config',
    C.LoadCustomSettings fuel romname lines config = Some config' /\
    (forall f, f ∉ C.ini_fields -> config' f = config f) /\
    (Forall (fun l => C.type l = C.INI_SECTION ->
                      toupper <$> C.percent_coded romname <>
                      C.percent_coded (C.name l)) lines ->
     config' = config).
Proof.
  intros Hrom Hlines. unfold C.LoadCustomSettings.
  rewrite replaceChars_returns by done. cbn [mbind option_bind].
  destruct (lines_loop_returns fuel (toupper <$> C.percent_coded romname)
              lines Hlines (false, config)) as (st' & -> & Hframe & Hoff).
  exists st'.2. split; [done|]. split; [done|].
  intros Hno. by apply Hoff.
Qed.

(** X18. [LoadCustomSettings] returns.  It leaves every field alone that is not
    behind one of its fifteen keys, and it leaves [config] as it is when no
    section line carries the ROM's name, percent-coded and in upper case:
    lines before the first section and lines of other sections count for
    nothing. *)
Theorem LoadCustomSettings_contract (fuel : nat) (romname : StdString.t)
    (lines : list C.ini_line) (config : C.Config) :
  (length romname <= fuel)%nat ->
  Forall (fun l => (length (C.name l) <= fuel)%nat) lines ->
  exists config',
    C.LoadCustomSettings fuel romname lines config = Some config' /\
    (forall f, f ∉ C.ini_fields -> config' f = config f) /\
    (Forall (fun l => C.type l = C.INI_SECTION ->
                      toupper <$> C.percent_coded romname <>
                      C.percent_coded (C.name l)) lines ->
     config' = config).
Proof. apply LoadCustomSettings_contract_aux. Qed.

(** X19. [Config_LoadConfig] returns with [generalEmulation.hacks] as it found
    it, whatever [resetToDefaults] and the ini do, and with the options the
    ini has no key for as the front end and the build set them. *)
Theorem Config_LoadConfig_keeps_hacks (b : C.Build) (o : C.Frontend)
    (fuel : nat) (romname : StdString.t) (lines : list C.ini_line)
    (config : C.Config) :
  (length romname <= fuel)%nat ->
  Forall (fun l => (length (C.name l) <= fuel)%nat) lines ->
  exists config',
    C.Config_LoadConfig b o fuel romname lines config = Some config' /\
    config' C.generalEmulation_hacks = config C.generalEmulation_hacks /\
    config' C.frameBufferEmulation_enable = C.EnableFBEmulation o /\
    config' C.generalEmulation_enableHWLighting = C.EnableHWLighting o /\
    config' C.generalEmulation_enableNoise = C.EnableNoiseEmulation o /\
    config' C.generalEmulation_enableLOD = C.EnableLODEmulation o /\
    config' C.generalEmulation_enableShadersStorage =
      (if C.VC b then 0 else C.EnableShadersStorage o) /\
    config' C.textureFilter_txFilterMode = C.txFilterMode o /\
    config' C.textureFilter_txEnhancementMode = C.txEnhancementMode o /\
    config' C.textureFilter_txFilterIgnoreBG = C.txFilterIgnoreBG o /\
    config' C.textureFilter_txHiresEnable = C.txHiresEnable o /\
    config' C.textureFilter_txHiresFullAlphaChannel =
      C.txHiresFullAlphaChannel o /\
    config' C.video_fxaa = C.EnableFXAA o /\
    config' C.graphics2D_bgMode = C.BackgroundMode o.
Proof.
  intros Hrom Hlines. unfold C.Config_LoadConfig. cbn zeta.
  match goal with
  | |- context [C.LoadCustomSettings fuel romname lines ?c] =>
      destruct (LoadCustomSettings_contract_aux fuel romname lines c Hrom Hlines)
        as (config' & -> & Hframe & _)
  end.
  exists config'. split; [done|].
  assert (Hnot : forall f, bool_decide (f ∈ C.ini_fields) = false ->
                           f ∉ C.ini_fields).
  { intros f Hf. by apply bool_decide_eq_false in Hf. }
  destruct (C.HAVE_OPENGLES b);
    split_and!; (rewrite Hframe by (by apply Hnot)); reflexivity.
Qed.

End CustomSettings.

Section Concrete.
Import Example.
#[local] Existing Instance ext.

(** C1 as stated fails: a texture in a format [sizeofTx] does not know, with
    a non-zero checksum never added and a non-null payload, is rejected by
    [add], and the [get] that follows misses; and a compressed entry that
    [add] accepts is not returned by [get], which finds no room to inflate
    it. *)
Lemma add_then_get_counterexample :
  (M.add true 7 (unknown 64) 0 (M.new 0 0)).1 = false /\
  M.get 7 blank (M.add true 7 (unknown 64) 0 (M.new 0 0)).2 =
    Some (false, blank, M.new 0 0) /\
  (M.add true 9 (rgba_gz 10 10 400 x01) 400 (M.new 0 0)).1 = true /\
  (fun r => r.1.1) <$>
    M.get 9 blank (M.add true 9 (rgba_gz 10 10 400 x01) 400 (M.new 0 0)).2 =
    Some false.
Proof. by vm_compute. Qed.

Lemma add_then_get_witness :
  (M.add true 1 (rgba 10 10 400 x01) 0 (M.new 0 1000)).1 = true /\
  is_gz (format (rgba 10 10 400 x01)) = false /\
  exists payload out s2,
    data (rgba 10 10 400 x01) = Some payload /\
    M.get 1 blank (M.add true 1 (rgba 10 10 400 x01) 0 (M.new 0 1000)).2 =
      Some (true, out, s2) /\
    same_metadata out (rgba 10 10 400 x01) /\
    data out =
      Some (Mach.memcpy payload (M.stored_size (rgba 10 10 400 x01) 0)) /\
    (Z.of_nat (length payload) = M.stored_size (rgba 10 10 400 x01) 0 ->
     data out = Some payload).
Proof.
  assert (Hadd : (M.add true 1 (rgba 10 10 400 x01) 0 (M.new 0 1000)).1 = true)
    by (by vm_compute).
  assert (Hgz : is_gz (format (rgba 10 10 400 x01)) = false)
    by reflexivity.
  split; [exact Hadd|]. split; [exact Hgz|].
  exact (proj2 (add_then_get true 1 (rgba 10 10 400 x01) 0 (M.new 0 1000)
                  blank) Hadd Hgz).
Defined.

(** C3 as stated fails: with a budget of 1000 bytes, add 1 (400 bytes),
    [get] 1, add 2 (400 bytes); adding 3 (400 bytes) evicts exactly one
    entry, and it is 1, the one that was fetched, while 2 survives. *)
Lemma eviction_counterexample :
  let s1 := (M.add true 1 (rgba 10 10 400 x01) 0 (M.new 0 1000)).2 in
  let s2 := default s1 (snd <$> M.get 1 blank s1) in
  let s3 := (M.add true 2 (rgba 10 10 400 x02) 0 s2).2 in
  let s4 := (M.add true 3 (rgba 10 10 400 x03) 0 s3).2 in
  M.isCached 1 s3 = true /\ M.isCached 2 s3 = true /\ M.size s4 = 2 /\
  M.isCached 1 s4 = false /\ M.isCached 2 s4 = true.
Proof. by vm_compute. Qed.

Lemma eviction_is_lru_witness :
  let s1 := (M.add true 1 (rgba 10 10 400 x01) 0 (M.new 0 1000)).2 in
  let s2 := default s1 (snd <$> M.get 1 blank s1) in
  let s3 := (M.add true 2 (rgba 10 10 400 x02) 0 s2).2 in
  let s4 := (M.add true 3 (rgba 10 10 400 x03) 0 s3).2 in
  M._cacheLimit (M.new 0 1000) <> 0 /\
  M.isCached 1 s4 = false /\ M.isCached 2 s4 = true.
Proof.
  intros s1 s2 s3 s4.
  assert (Hlim : M._cacheLimit (M.new 0 1000) <> 0) by (by vm_compute).
  split; [exact Hlim|].
  apply (proj1 (eviction_is_lru 0 1000 true true true 1 2 3
                  (rgba 10 10 400 x01) (rgba 10 10 400 x02)
                  (rgba 10 10 400 x03) blank 0 0 0 Hlim)
               s1 (true, rgba 10 10 400 x01, s2) s3 s4);
    by vm_compute.
Defined.

Lemma add_all_total_within_budget_witness :
  0 < 1000 < 2 ^ 64 /\
  M.totalSize
    (M.add_all
       [M.mkAdd true 1 (rgba 10 15 600 x01) 0;
        M.mkAdd true 2 (rgba 10 15 600 x02) 0]
       (M.new 0 1000) 0).1 <=
  Z.max
    (M.add_all
       [M.mkAdd true 1 (rgba 10 15 600 x01) 0;
        M.mkAdd true 2 (rgba 10 15 600 x02) 0]
       (M.new 0 1000) 0).2 1000.
Proof.
  split; [lia|]. apply add_all_total_within_budget. lia.
Defined.

(** The scenario of the specification: budget 1000, two entries of 600
    bytes; the second evicts the first. *)
Example budget_scenario :
  let s1 := (M.add true 1 (rgba 10 15 600 x01) 0 (M.new 0 1000)).2 in
  let s2 := (M.add true 2 (rgba 10 15 600 x02) 0 s1).2 in
  M.totalSize s1 = 600 /\ M.totalSize s2 = 600 /\
  M.isCached 1 s2 = false /\ M.isCached 2 s2 = true.
Proof. by vm_compute. Qed.

Lemma lru_bijection_preserved_witness :
  M._cacheLimit gz_cache <> 0 /\
  exists s',
    M.run (M.Get 9 blank) gz_cache = Some s' /\
    M.lru_inv s' /\ M._cacheLimit s' = M._cacheLimit gz_cache.
Proof.
  split; [by vm_compute|].
  apply lru_bijection_preserved.
  - by vm_compute.
  - apply add_lru_inv; [by vm_compute|].
    apply add_lru_inv; [by vm_compute|]. apply lru_inv_new.
Defined.

Lemma add_rejects_unchanged_witness :
  M.add true 7 (unknown 64) 0 (M.new 0 1000) = (false, M.new 0 1000).
Proof.
  apply add_rejects_unchanged. right. right. right. split; reflexivity.
Defined.

(** C5 as stated fails: a cache that holds checksum 1 is saved; the file
    system is as before, and a [load] with the same fingerprint into a fresh
    cache does not bring checksum 1 back. *)
Lemma save_load_counterexample :
  let fs' := (M.save "cache" "rom.htc" 5 one_entry ∅).2 in
  let s' := (M.load world fs' "cache" "rom.htc" 5 false 10 (M.new 0 0)).2 in
  M.isCached 1 one_entry = true /\
  (M.save "cache" "rom.htc" 5 one_entry ∅).1 = false /\ fs' = ∅ /\
  M.isCached 1 s' = false.
Proof. by vm_compute. Qed.

Lemma save_writes_nothing_load_checks_config_witness :
  disk !! ("cache"%string, "rom.htc"%string) = Some cache_file /\
  M.header_config world cache_file <> Mach.to_int 6 /\
  M.load world disk "cache" "rom.htc" 6 false 10 (M.new 0 1000) =
    (Some false, M.new 0 1000) /\
  M.empty (M.new 0 1000) = true.
Proof.
  assert (Hfile : disk !! ("cache"%string, "rom.htc"%string) = Some cache_file)
    by (by vm_compute).
  assert (Hcfg : M.header_config world cache_file <> Mach.to_int 6)
    by (by vm_compute).
  split; [exact Hfile|]. split; [exact Hcfg|].
  exact (proj2 (save_writes_nothing_load_checks_config world disk
                  "cache" "rom.htc" 6 10 0 1000 (M.new 0 1000) cache_file)
               Hfile Hcfg).
Defined.

(** Loading the same file with its own fingerprint brings the record in. *)
Example load_matching_file :
  let r := M.load world disk "cache" "rom.htc" 5 false 10 (M.new 0 1000) in
  r.1 = Some true /\ M.isCached 1 r.2 = true /\ M.totalSize r.2 = 16.
Proof. by vm_compute. Qed.

(** C6 as stated fails: the file backend's [add] returns true for a zero
    checksum and a null payload, which the memory backend's rejects. *)
Lemma file_add_counterexample :
  (F.add 0 blank 0 (F.new 0 None)).1 = true /\
  (M.add true 0 blank 0 (M.new 0 0)).1 = false.
Proof. by vm_compute. Qed.

(** C8 as stated fails: the cache file cannot be opened, and [load] of a
    memory cache that holds an entry returns true. *)
Lemma load_unopenable_counterexample :
  (∅ : filesystem) !! ("cache"%string, "rom.htc"%string) = None /\
  M.load world ∅ "cache" "rom.htc" 5 false 10 one_entry =
    (Some true, one_entry).
Proof. by vm_compute. Qed.

Lemma io_failure_results_witness :
  (∅ : filesystem) !! ("cache"%string, "rom.htc"%string) = None /\
  M.load world ∅ "cache" "rom.htc" 5 false 10 (M.new 0 1000) =
    (Some (negb (M.empty (M.new 0 1000))), M.new 0 1000) /\
  F.get 1 blank (F.new 0 None) = (false, blank, F.new 0 None).
Proof.
  pose proof (io_failure_results world ∅ "cache" "rom.htc" 5 false 10
                (M.new 0 1000) (F.new 0 None) 1 blank)
    as (Hload & _ & _ & Hget & _).
  split; [by vm_compute|]. split.
  - apply Hload. by vm_compute.
  - apply Hget. right. reflexivity.
Defined.

Lemma file_backend_never_populated_witness :
  let f := F.run (F.Add 1 (rgba 10 10 400 x01) 0) (F.new 0 (Some "cache"%string)) in
  F.reachable f /\
  F.empty f = true /\ F.size f = 0 /\ F.totalSize f = 0 /\
  forall k info, F.get k info f = (false, info, f) /\ F.isCached k f = false.
Proof.
  intros f.
  assert (Hf : F.reachable f) by (apply F.reachable_run, F.reachable_new).
  split; [exact Hf|].
  exact (proj2 (file_backend_never_populated f) Hf).
Defined.

Lemma get_failed_decompress_promotes_witness :
  StdList.values (M._cachelist gz_cache) = [9; 10] /\
  exists s' e',
    M.get 9 blank gz_cache = Some (false, M.txc_info gz_entry, s') /\
    M._cache s' = <[9 := e']> (M._cache gz_cache) /\
    M.txc_info e' = M.txc_info gz_entry /\
    M.txc_size e' = M.txc_size gz_entry /\
    M._totalSize s' = M._totalSize gz_cache /\
    (exists l1 l2, StdList.values (M._cachelist gz_cache) = l1 ++ 9 :: l2 /\
                   StdList.values (M._cachelist s') = l1 ++ l2 ++ [9]) /\
    last (StdList.values (M._cachelist s')) = Some 9 /\
    (last (StdList.values (M._cachelist gz_cache)) <> Some 9 ->
     StdList.values (M._cachelist s') <> StdList.values (M._cachelist gz_cache)).
Proof.
  split; [by vm_compute|].
  apply get_failed_decompress_promotes.
  - by vm_compute.
  - apply add_lru_inv; [by vm_compute|].
    apply add_lru_inv; [by vm_compute|]. apply lru_inv_new.
  - done.
  - by vm_compute.
  - reflexivity.
  - reflexivity.
Defined.

(** A short read is not noticed: [load] of a file cut off inside a payload
    returns true and caches the record with the bytes it got, the rest of
    the block being whatever the allocator left there. *)
Example load_truncated_file :
  let r := M.load world truncated_disk "cache" "rom.htc" 5 false 10
                  (M.new 0 1000) in
  r.1 = Some true /\ M.isCached 1 r.2 = true /\
  (data ∘ M.txc_info) <$> (M._cache r.2 !! 1) =
    Some (Some (replicate 8 x07 ++ replicate 8 x00)).
Proof. by vm_compute. Qed.

(** The facade hands [add] to the backend chosen at construction, and the
    answer for a zero checksum depends on which one that is. *)
Example facade_add_by_backend :
  (TxCache.add true 0 blank 0 (TxCache.new 0x00400000 0 None)).1 = true /\
  (TxCache.add true 0 blank 0 (TxCache.new 0 0 None)).1 = false.
Proof. by vm_compute. Qed.

(** [load] need not return: on the record of [rewinding_file] the allocation
    fails, [gzseek] goes back to the start of the record, and every pass of
    the loop is the same as the one before. *)
Lemma rewinding_pass (i : nat) (checksum dataSize : Z) :
  M.load_record world i (Gz.mk rewinding_file 4 false) checksum dataSize
                (M.new 0 1000) =
  (Gz.mk rewinding_file 4 false, 1, -29, M.new 0 1000).
Proof. by vm_compute. Qed.

Example load_can_run_forever (fuel : nat) :
  (M.load world rewinding_disk "cache" "rom.htc" 5 false fuel
          (M.new 0 1000)).1 = None.
Proof.
  assert (Hloop : forall fuel i checksum dataSize,
    M.load_loop fuel world i (Gz.mk rewinding_file 4 false) checksum dataSize
                (M.new 0 1000) = (false, M.new 0 1000)).
  { clear fuel. induction fuel as [|fuel IH]; intros i checksum dataSize;
      [done|].
    cbn [M.load_loop]. rewrite rewinding_pass. cbn [Gz.gzeof Gz.past].
    apply IH. }
  unfold M.load.
  replace (Gz.gzopen (rewinding_disk !! ("cache"%string, "rom.htc"%string)))
    with (Some (Gz.mk rewinding_file 0 false)) by (by vm_compute).
  replace (Gz.read_int (M.junk_tmpconfig world) (Gz.mk rewinding_file 0 false))
    with (5, Gz.mk rewinding_file 4 false) by (by vm_compute).
  replace (bool_decide (5 = Mach.to_int 5) || false) with true
    by (by vm_compute).
  by rewrite Hloop.
Qed.

(** *** Worked runs of the further properties *)

#[local] Existing Instance env.

Lemma full_cache_well_formed : M.well_formed full_cache.
Proof. apply add_well_formed, well_formed_new. Qed.

Lemma calls_keep_well_formed_witness :
  M.well_formed full_cache /\
  exists s',
    M.run (M.Get 1 blank) full_cache = Some s' /\ M.well_formed s' /\
    M._cacheLimit s' = M._cacheLimit full_cache /\
    M._options s' = M._options full_cache.
Proof.
  split; [exact full_cache_well_formed|].
  exact (calls_keep_well_formed (M.Get 1 blank) full_cache
           full_cache_well_formed).
Defined.

Lemma empty_iff_total_zero_witness :
  M.well_formed full_cache /\
  (M.empty full_cache = true <-> M.totalSize full_cache = 0) /\
  (M.empty full_cache = true <-> forall k, M.isCached k full_cache = false) /\
  (M._cacheLimit full_cache <> 0 ->
   (M.empty full_cache = true <-> M._cachelist full_cache = [])).
Proof.
  split; [exact full_cache_well_formed|].
  exact (empty_iff_total_zero full_cache full_cache_well_formed).
Defined.

Lemma cache_and_list_sizes_agree_witness :
  M._cacheLimit (M.new 0 1000) <> 0 /\
  exists s,
    M.run_all [M.Add true 1 (rgba 10 15 600 x01) 0; M.Get 1 blank;
               M.Add true 2 (rgba 10 15 600 x02) 0; M.Del 1]
              (M.new 0 1000) = Some s /\
    M.size s = Z.of_nat (length (M._cachelist s)).
Proof.
  assert (Hlim : M._cacheLimit (M.new 0 1000) <> 0) by (by vm_compute).
  split; [exact Hlim|].
  exact (cache_and_list_sizes_agree _ 0 1000 Hlim).
Defined.


Lemma del_removes_exactly_witness :
  M.well_formed full_cache /\
  (1 = 0 \/ M._cache full_cache !! 1 = None ->
   M.del 1 full_cache = Some (false, full_cache)) /\
  (forall e, 1 <> 0 -> M._cache full_cache !! 1 = Some e ->
     exists s',
       M.del 1 full_cache = Some (true, s') /\
       M.isCached 1 s' = false /\
       M.totalSize s' = M.totalSize full_cache - M.txc_size e /\
       (forall k', k' <> 1 ->
          M._cache s' !! k' = M._cache full_cache !! k') /\
       StdList.values (M._cachelist s') =
         filter (fun x => x <> 1) (StdList.values (M._cachelist full_cache)) /\
       M.well_formed s').
Proof.
  split; [exact full_cache_well_formed|].
  exact (del_removes_exactly 1 full_cache full_cache_well_formed).
Defined.

Lemma get_changes_no_entry_witness :
  M.well_formed full_cache /\
  exists b out s',
    M.get 1 blank full_cache = Some (b, out, s') /\
    M.totalSize s' = M.totalSize full_cache /\
    (forall k', M.isCached k' s' = M.isCached k' full_cache) /\
    (forall k',
       (fun e => (M.txc_size e, M.txc_info e)) <$> (M._cache s' !! k')
       = (fun e => (M.txc_size e, M.txc_info e)) <$>
           (M._cache full_cache !! k')) /\
    (b = true -> 1 <> 0 /\ M.isCached 1 full_cache = true) /\
    (1 = 0 \/ M.isCached 1 full_cache = false ->
     b = false /\ out = blank /\ s' = full_cache) /\
    M.well_formed s'.
Proof.
  split; [exact full_cache_well_formed|].
  exact (get_changes_no_entry 1 blank full_cache full_cache_well_formed).
Defined.

Lemma get_clears_compressed_flag_witness :
  let r := M.get 1 blank one_entry in
  let out := default blank ((fun x => x.1.2) <$> r) in
  let s' := default one_entry (snd <$> r) in
  r = Some (true, out, s') /\ is_gz (format out) = false.
Proof.
  intros r out s'.
  assert (Hr : r = Some (true, out, s')) by (by vm_compute).
  split; [exact Hr|].
  exact (get_clears_compressed_flag 1 blank out one_entry s' Hr).
Defined.

Lemma add_evicts_lru_prefix_witness :
  let s' := (M.add true 2 (rgba 10 15 600 x02) 0 full_cache).2 in
  M.well_formed full_cache /\ M._cacheLimit full_cache <> 0 /\
  M.add true 2 (rgba 10 15 600 x02) 0 full_cache = (true, s') /\
  exists d r,
    StdList.values (M._cachelist full_cache) = d ++ r /\
    StdList.values (M._cachelist s') = r ++ [2] /\
    (forall k', k' ∈ d -> M.isCached k' s' = false) /\
    (forall k', k' ∈ r -> M._cache s' !! k' = M._cache full_cache !! k') /\
    M.isCached 2 s' = true.
Proof.
  intros s'.
  assert (Hlim : M._cacheLimit full_cache <> 0) by (by vm_compute).
  assert (Hadd : M.add true 2 (rgba 10 15 600 x02) 0 full_cache = (true, s'))
    by (by vm_compute).
  split; [exact full_cache_well_formed|]. split; [exact Hlim|].
  split; [exact Hadd|].
  exact (add_evicts_lru_prefix true 2 (rgba 10 15 600 x02) 0 full_cache s'
           full_cache_well_formed Hlim Hadd).
Defined.

Lemma eviction_is_minimal_witness :
  let s' := (M.add true 2 (rgba 10 15 600 x02) 0 full_cache).2 in
  M.well_formed full_cache /\ M._cacheLimit full_cache <> 0 /\
  M.add true 2 (rgba 10 15 600 x02) 0 full_cache = (true, s') /\
  exists d r,
    StdList.values (M._cachelist full_cache) = d ++ r /\
    StdList.values (M._cachelist s') = r ++ [2] /\
    M.totalSize s' =
      M.totalSize full_cache - M.bytes_of (M._cache full_cache) d
      + M.stored_size (rgba 10 15 600 x02) 0 /\
    (forall d1 d2, d = d1 ++ d2 -> d2 <> [] ->
       M._cacheLimit full_cache <
       M.totalSize full_cache - M.bytes_of (M._cache full_cache) d1
       + M.stored_size (rgba 10 15 600 x02) 0) /\
    (M.totalSize s' <= M._cacheLimit full_cache \/ r = []).
Proof.
  intros s'.
  assert (Hlim : M._cacheLimit full_cache <> 0) by (by vm_compute).
  assert (Hadd : M.add true 2 (rgba 10 15 600 x02) 0 full_cache = (true, s'))
    by (by vm_compute).
  split; [exact full_cache_well_formed|]. split; [exact Hlim|].
  split; [exact Hadd|].
  exact (eviction_is_minimal true 2 (rgba 10 15 600 x02) 0 full_cache s'
           full_cache_well_formed Hlim Hadd).
Defined.

Lemma add_within_budget_keeps_all_witness :
  let s' := (M.add true 2 (rgba 10 10 400 x02) 0 full_cache).2 in
  M.well_formed full_cache /\
  M.add true 2 (rgba 10 10 400 x02) 0 full_cache = (true, s') /\
  (M._cacheLimit full_cache = 0 \/
   M.totalSize full_cache + M.stored_size (rgba 10 10 400 x02) 0
   <= M._cacheLimit full_cache) /\
  (forall k', k' <> 2 -> M._cache s' !! k' = M._cache full_cache !! k') /\
  M.isCached 2 s' = true /\
  M.totalSize s' =
    M.totalSize full_cache + M.stored_size (rgba 10 10 400 x02) 0 /\
  M.size s' = M.size full_cache + 1.
Proof.
  intros s'.
  assert (Hadd : M.add true 2 (rgba 10 10 400 x02) 0 full_cache = (true, s'))
    by (by vm_compute).
  assert (Hroom : M._cacheLimit full_cache = 0 \/
                  M.totalSize full_cache
                  + M.stored_size (rgba 10 10 400 x02) 0
                  <= M._cacheLimit full_cache)
    by (right; by vm_compute).
  split; [exact full_cache_well_formed|]. split; [exact Hadd|].
  split; [exact Hroom|].
  exact (add_within_budget_keeps_all true 2 (rgba 10 10 400 x02) 0 full_cache
           s' full_cache_well_formed Hadd Hroom).
Defined.

Lemma oversize_entry_is_alone_witness :
  let s' := (M.add true 2 (rgba 10 30 1200 x02) 0 full_cache).2 in
  M.well_formed full_cache /\ M._cacheLimit full_cache <> 0 /\
  M.add true 2 (rgba 10 30 1200 x02) 0 full_cache = (true, s') /\
  M._cacheLimit full_cache < M.stored_size (rgba 10 30 1200 x02) 0 /\
  (forall k', M.isCached k' s' = true <-> k' = 2) /\
  M.totalSize s' = M.stored_size (rgba 10 30 1200 x02) 0 /\
  StdList.values (M._cachelist s') = [2].
Proof.
  intros s'.
  assert (Hlim : M._cacheLimit full_cache <> 0) by (by vm_compute).
  assert (Hadd : M.add true 2 (rgba 10 30 1200 x02) 0 full_cache = (true, s'))
    by (by vm_compute).
  assert (Hbig : M._cacheLimit full_cache
                 < M.stored_size (rgba 10 30 1200 x02) 0) by (by vm_compute).
  split; [exact full_cache_well_formed|]. split; [exact Hlim|].
  split; [exact Hadd|]. split; [exact Hbig|].
  exact (oversize_entry_is_alone true 2 (rgba 10 30 1200 x02) 0 full_cache s'
           full_cache_well_formed Hlim Hadd Hbig).
Defined.

Lemma failed_add_never_grows_witness :
  let s' := (M.add false 2 (rgba 10 15 600 x02) 0 full_cache).2 in
  M.well_formed full_cache /\
  M.add false 2 (rgba 10 15 600 x02) 0 full_cache = (false, s') /\
  (forall k' e, M._cache s' !! k' = Some e ->
                M._cache full_cache !! k' = Some e) /\
  M.totalSize s' <= M.totalSize full_cache /\
  (M._cacheLimit full_cache = 0 -> s' = full_cache) /\
  M.well_formed s'.
Proof.
  intros s'.
  assert (Hadd : M.add false 2 (rgba 10 15 600 x02) 0 full_cache = (false, s'))
    by (by vm_compute).
  split; [exact full_cache_well_formed|]. split; [exact Hadd|].
  exact (failed_add_never_grows false 2 (rgba 10 15 600 x02) 0 full_cache s'
           full_cache_well_formed Hadd).
Defined.

(** The eviction pass comes before the allocation: an [add] that fails for
    want of memory has already evicted what it needed to. *)
Example failed_add_can_evict :
  let r := M.add false 2 (rgba 10 15 600 x02) 0 full_cache in
  M.isCached 1 full_cache = true /\
  r.1 = false /\ M.isCached 1 r.2 = false /\ M.totalSize r.2 = 0.
Proof. by vm_compute. Qed.



(** The pass after the last record can store a record of its own: when the
    block for the one record of the file is refused and the next one is
    granted, the cache gets an entry under the record's checksum whose
    payload never was in the file. *)
Example load_stores_what_is_not_there :
  let w := M.mkWorld 0 0 0 (fun _ => rgba 2 2 0 x00) (fun _ => [])
                     (fun i => bool_decide (i <> 0%nat)) (fun _ => true) in
  let r := M.load w disk "cache" "rom.htc" 5 false 10 (M.new 0 1000) in
  r.1 = Some true /\
  (data ∘ M.txc_info) <$> (M._cache r.2 !! 1) = Some (Some (replicate 16 x00)).
Proof. by vm_compute. Qed.

Lemma file_get_success_requires_witness :
  let r := F.get 1 blank open_storage in
  r = (true, r.1.2, r.2) /\
  1 <> 0 /\ F.isCached 1 open_storage = true /\
  IfStream.is_open (F._infile open_storage) = true /\
  F._outfile_is_open open_storage = false /\
  is_Some (F._gzdest0 open_storage) /\
  IfStream.good (F._infile r.2) = true /\
  F._storage r.2 = F._storage open_storage /\
  is_gz (format r.1.2) = false.
Proof.
  intros r.
  assert (Hr : r = (true, r.1.2, r.2)) by (by vm_compute).
  split; [exact Hr|].
  exact (file_get_success_requires 1 blank r.1.2 open_storage r.2 Hr).
Defined.

(** [readData] on a record that is there: the caller gets the seven scalars
    and the payload, in the scratch buffer. *)
Example file_get_reads_record :
  let r := F.get 1 blank open_storage in
  r.1.1 = true /\ same_metadata r.1.2 (rgba 2 2 16 x07) /\
  take 16 <$> data r.1.2 = Some (replicate 16 x07).
Proof. by vm_compute. Qed.

Lemma replaceChars_percent_codes_witness :
  (length romname <= 12)%nat /\
  C.replaceChars 12 romname = Some (C.percent_coded romname).
Proof.
  assert (Hlen : (length romname <= 12)%nat) by (cbn; lia).
  split; [exact Hlen|].
  exact (replaceChars_percent_codes 12 romname Hlen).
Defined.

Example replaceChars_romname :
  C.replaceChars 2 romname = Some (StdString.of_literal "Conker%27s%20BFD") /\
  C.replaceChars 0 romname = None.
Proof. by vm_compute. Qed.

Lemma replaceChars_result_is_clean_witness :
  let s' := StdString.of_literal "Conker%27s%20BFD" in
  C.replaceChars 2 romname = Some s' /\
  (" "%char ∉ s') /\ ("'"%char ∉ s') /\
  length s' =
    (length romname
     + 2 * (C.count " "%char romname + C.count "'"%char romname))%nat /\
  C.replaceChars 0 s' = Some s'.
Proof.
  intros s'.
  assert (Hs : C.replaceChars 2 romname = Some s') by (by vm_compute).
  split; [exact Hs|].
  exact (replaceChars_result_is_clean 2 0 romname s' Hs).
Defined.

Lemma section_line_assigns_nothing_witness :
  let l := C.mk_line C.INI_SECTION (StdString.of_literal "CONKER%27S%20BFD")
                     [] in
  let config := fun _ : C.field => 7 in
  C.type l = C.INI_SECTION /\
  C.line_step 16 (StdString.toupper <$> C.percent_coded romname) l
              (false, config) = Some (true, config) /\
  config = config /\
  true = bool_decide (StdString.toupper <$> C.percent_coded romname
                      = C.percent_coded (C.name l)).
Proof.
  intros l config.
  assert (Hty : C.type l = C.INI_SECTION) by reflexivity.
  assert (Hstep : C.line_step 16
                    (StdString.toupper <$> C.percent_coded romname) l
                    (false, config) = Some (true, config))
    by (by vm_compute).
  split; [exact Hty|]. split; [exact Hstep|].
  exact (section_line_assigns_nothing 16 (C.percent_coded romname) l false
           true config config Hty Hstep).
Defined.

Lemma customini_short :
  Forall (fun l => (length (C.name l) <= 40)%nat) customini.
Proof.
  unfold customini.
  repeat (apply List.Forall_cons; [cbn; lia|]). apply List.Forall_nil.
Qed.

Lemma LoadCustomSettings_contract_witness :
  (length romname <= 40)%nat /\
  Forall (fun l => (length (C.name l) <= 40)%nat) customini /\
  exists config',
    C.LoadCustomSettings 40 romname customini (fun _ => 7) = Some config' /\
    (forall f, f ∉ C.ini_fields -> config' f = 7) /\
    (Forall (fun l => C.type l = C.INI_SECTION ->
                      StdString.toupper <$> C.percent_coded romname <>
                      C.percent_coded (C.name l)) customini ->
     config' = fun _ => 7).
Proof.
  assert (Hlen : (length romname <= 40)%nat) by (cbn; lia).
  split; [exact Hlen|]. split; [exact customini_short|].
  exact (LoadCustomSettings_contract 40 romname customini (fun _ => 7) Hlen
           customini_short).
Defined.

Lemma Config_LoadConfig_keeps_hacks_witness :
  (length romname <= 40)%nat /\
  Forall (fun l => (length (C.name l) <= 40)%nat) customini /\
  exists config',
    C.Config_LoadConfig desktop frontend 40 romname customini (fun _ => 7)
      = Some config' /\
    config' C.generalEmulation_hacks = 7 /\
    config' C.frameBufferEmulation_enable = C.EnableFBEmulation frontend /\
    config' C.generalEmulation_enableHWLighting = C.EnableHWLighting frontend /\
    config' C.generalEmulation_enableNoise = C.EnableNoiseEmulation frontend /\
    config' C.generalEmulation_enableLOD = C.EnableLODEmulation frontend /\
    config' C.generalEmulation_enableShadersStorage =
      (if C.VC desktop then 0 else C.EnableShadersStorage frontend) /\
    config' C.textureFilter_txFilterMode = C.txFilterMode frontend /\
    config' C.textureFilter_txEnhancementMode = C.txEnhancementMode frontend /\
    config' C.textureFilter_txFilterIgnoreBG = C.txFilterIgnoreBG frontend /\
    config' C.textureFilter_txHiresEnable = C.txHiresEnable frontend /\
    config' C.textureFilter_txHiresFullAlphaChannel =
      C.txHiresFullAlphaChannel frontend /\
    config' C.video_fxaa = C.EnableFXAA frontend /\
    config' C.graphics2D_bgMode = C.BackgroundMode frontend.
Proof.
  assert (Hlen : (length romname <= 40)%nat) by (cbn; lia).
  split; [exact Hlen|]. split; [exact customini_short|].
  exact (Config_LoadConfig_keeps_hacks desktop frontend 40 romname customini
           (fun _ => 7) Hlen customini_short).
Defined.

(** The ini has the last word on the fields it names: for [romname] the
    front end's [EnableCopyColorToRDRAM] gives way to the 1 of the ROM's
    section, and the 2 of the other section counts for nothing; a ROM
    without a section keeps the front end's value. *)
Example ini_overrides_frontend :
  (fun c => c C.frameBufferEmulation_copyToRDRAM) <$>
    C.Config_LoadConfig desktop frontend 40 romname customini (fun _ => 7)
  = Some 1 /\
  (fun c => c C.frameBufferEmulation_copyToRDRAM) <$>
    C.Config_LoadConfig desktop frontend 40 (StdString.of_literal "Mario 64")
      customini (fun _ => 7)
  = Some (C.EnableCopyColorToRDRAM frontend).
Proof. by vm_compute. Qed.

End Concrete.
